(** * scripts/fix_schema_conversions.py: the rewriting pipeline

    A shallow embedding of the regular-expression rewriting done by
    [fix_schema_conversions.py]: the patterns handed to [re.sub], the
    replacement templates, the four rule groups and the order in which
    [main] applies them, and the file accesses of [main].

    Documents are Python [str] values; a character is modelled by a Rocq
    [ascii], read as a code point in U+0000..U+00FF. *)

From Stdlib Require Import Ascii String List Bool Arith Lia.
Import ListNotations.
Local Open Scope string_scope.
Local Open Scope list_scope.
Local Open Scope nat_scope.

(** ** Text *)

Definition text := list ascii.

Definition str (s : string) : text := list_ascii_of_string s.

Definition NL : ascii := "010".
Definition TAB : ascii := "009".
Definition DQ : ascii := "034".

Definition code (c : ascii) : nat := nat_of_ascii c.

Definition in_range (lo hi c : ascii) : bool :=
  ((code lo <=? code c) && (code c <=? code hi))%nat.

(** ** Character classes

    [\d] on a [str] pattern is [Py_UNICODE_ISDECIMAL]: below U+0100 these are
    the ten ASCII digits.  [\w] is [Py_UNICODE_ISALNUM] or the underscore:
    below U+0100 the ASCII letters and digits, and in the Latin-1 supplement
    the letters (U+00AA, U+00B5, U+00BA, U+00C0-D6, U+00D8-F6, U+00F8-FF)
    and the numeric characters (U+00B2, U+00B3, U+00B9, U+00BC-BE). *)

Definition is_digit (c : ascii) : bool := in_range "0" "9" c.

Definition is_ascii_alpha (c : ascii) : bool :=
  in_range "a" "z" c || in_range "A" "Z" c.

Definition is_latin1_alnum (c : ascii) : bool :=
  let n := code c in
  ((n =? 170) || (n =? 178) || (n =? 179) || (n =? 181) || (n =? 185)
   || (n =? 186) || ((188 <=? n) && (n <=? 190))
   || ((192 <=? n) && (n <=? 214)) || ((216 <=? n) && (n <=? 246))
   || ((248 <=? n) && (n <=? 255)))%nat.

Definition is_word (c : ascii) : bool :=
  is_ascii_alpha c || is_digit c || Ascii.eqb c "_" || is_latin1_alnum c.

(** A class of the pattern language: [\w], [\d], or a bracketed set
    [[...]] / [[^...]] given by its ranges (a single character [c] is the
    range [c-c]). *)
Inductive cls : Type :=
| CWord
| CDigit
| CSet (negated : bool) (ranges : list (ascii * ascii)).

Definition in_ranges (rs : list (ascii * ascii)) (c : ascii) : bool :=
  existsb (fun r => in_range (fst r) (snd r) c) rs.

Definition cls_mem (k : cls) (c : ascii) : bool :=
  match k with
  | CWord => is_word c
  | CDigit => is_digit c
  | CSet neg rs => if neg then negb (in_ranges rs c) else in_ranges rs c
  end.

(** ** Patterns *)

Inductive regex : Type :=
| Eps
| Lit (c : ascii)
| Cls (k : cls)
| Seq (a b : regex)
| Alt (a b : regex)
| Star (a : regex)          (* greedy [a*] *)
| Grp (n : nat) (a : regex) (* capturing group number [n] *)
| Eol.                      (* [$] under [re.MULTILINE] *)

Definition Plus (a : regex) : regex := Seq a (Star a).

Fixpoint lits (t : text) : regex :=
  match t with
  | [] => Eps
  | c :: t' => Seq (Lit c) (lits t')
  end.

Declare Scope re_scope.
Delimit Scope re_scope with re.
Notation "a ;; b" := (Seq a b) (at level 61, right associativity) : re_scope.

(** ** The backtracking matcher

    Captures are an association list, the latest binding of a group first.
    [m r s c k] matches [r] at the head of [s] and hands the remaining text
    and the captures to the continuation [k]; when [k] fails the matcher
    backtracks into [r], alternatives in the order of the pattern and the
    star taking the longest repetition first, as Python's engine does.
    A round of the star that consumes nothing is not repeated; every
    starred part of the script's patterns consumes at least one character,
    so the case does not arise for them.  The fuel of the star is the
    length of the text, which is always enough ([star_loop_fuel]). *)

Definition caps := list (nat * text).

Definition result := (caps * text)%type.

Definition at_eol (s : text) : bool :=
  match s with
  | [] => true
  | c :: _ => Ascii.eqb c NL
  end.

Definition consumed (s s' : text) : text := firstn (length s - length s') s.

Section StarLoop.
Variable step : text -> caps -> (text -> caps -> option result) -> option result.
Variable k : text -> caps -> option result.

Fixpoint star_loop (fuel : nat) (s : text) (c : caps) : option result :=
  match fuel with
  | O => k s c
  | S f =>
      match step s c (fun s' c' =>
                        if (length s' <? length s)%nat then star_loop f s' c'
                        else None) with
      | Some x => Some x
      | None => k s c
      end
  end.
End StarLoop.

Fixpoint m (r : regex) (s : text) (c : caps)
  (k : text -> caps -> option result) {struct r} : option result :=
  match r with
  | Eps => k s c
  | Lit a =>
      match s with
      | b :: s' => if Ascii.eqb a b then k s' c else None
      | [] => None
      end
  | Cls cl =>
      match s with
      | b :: s' => if cls_mem cl b then k s' c else None
      | [] => None
      end
  | Seq a b => m a s c (fun s' c' => m b s' c' k)
  | Alt a b =>
      match m a s c k with
      | Some x => Some x
      | None => m b s c k
      end
  | Star a => star_loop (m a) k (length s) s c
  | Grp n a => m a s c (fun s' c' => k s' ((n, consumed s s') :: c'))
  | Eol => if at_eol s then k s c else None
  end.

(** [match_at r s]: the match of [r] that starts at the head of [s], as the
    captures and the text left after it. *)
Definition match_at (r : regex) (s : text) : option result :=
  m r s [] (fun s' c' => Some (c', s')).

(** ** Replacement templates *)

Inductive titem : Type :=
| TLit (t : text)
| TGrp (n : nat).

Definition template := list titem.

Fixpoint group (n : nat) (c : caps) : text :=
  match c with
  | [] => []
  | (i, t) :: c' => if Nat.eqb i n then t else group n c'
  end.

Fixpoint expand (t : template) (c : caps) : text :=
  match t with
  | [] => []
  | TLit l :: t' => l ++ expand t' c
  | TGrp n :: t' => group n c ++ expand t' c
  end.

Fixpoint ngroups (r : regex) : nat :=
  match r with
  | Eps | Lit _ | Cls _ | Eol => 0
  | Seq a b | Alt a b => Nat.max (ngroups a) (ngroups b)
  | Star a => ngroups a
  | Grp n a => Nat.max n (ngroups a)
  end.

(** [re] rejects a template that refers to a group the pattern does not
    have ("invalid group reference"), whatever the subject text. *)
Definition template_ok (r : regex) (t : template) : bool :=
  forallb (fun i => match i with
                    | TLit _ => true
                    | TGrp n => ((1 <=? n) && (n <=? ngroups r))%nat
                    end) t.

(** ** [re.sub]

    [sub_from r t skip s] walks the text once.  [skip] counts the
    characters of a match already replaced that are still to be passed
    over.  At a position where the pattern matches, the expanded template
    is emitted and the matched characters are skipped; elsewhere the
    character is copied.  (An empty match emits the template and copies the
    character; no pattern of the script matches the empty text.) *)
Fixpoint sub_from (r : regex) (t : template) (skip : nat) (s : text) : text :=
  match s with
  | [] =>
      match skip with
      | O => match match_at r [] with
             | Some (c, _) => expand t c
             | None => []
             end
      | S _ => []
      end
  | a :: s' =>
      match skip with
      | S n => sub_from r t n s'
      | O =>
          match match_at r s with
          | Some (c, rest) =>
              expand t c ++
              match length s - length rest with
              | O => a :: sub_from r t 0 s'
              | S n => sub_from r t n s'
              end
          | None => a :: sub_from r t 0 s'
          end
      end
  end.

Definition subst (r : regex) (t : template) (s : text) : text :=
  sub_from r t 0 s.

Definition re_sub (r : regex) (t : template) (s : text) : option text :=
  if template_ok r t then Some (subst r t s) else None.

Definition bind {A B : Type} (x : option A) (f : A -> option B) : option B :=
  match x with
  | Some a => f a
  | None => None
  end.

(** A rule group: the rules applied in the listed order, each to the
    output of the one before ([for pattern, replacement in patterns]). *)
Definition rule := (regex * template)%type.

Fixpoint apply_rules (rs : list rule) (s : text) : option text :=
  match rs with
  | [] => Some s
  | (r, t) :: rs' => bind (re_sub r t s) (apply_rules rs')
  end.

(** ** The pattern table *)

Local Open Scope re_scope.

Definition ident_start : cls := CSet false [("a", "z"); ("A", "Z"); ("_", "_")]%char.
Definition ident_char : cls :=
  CSet false [("a", "z"); ("A", "Z"); ("0", "9"); ("_", "_")]%char.
Definition not_rparen : cls := CSet true [(")", ")")]%char.
Definition not_rbracket : cls := CSet true [("]", "]")]%char.

Definition T (s : string) : titem := TLit (str s).

(** [fix_string_validations] *)

(* (\w+), ok := args\[(\d+)\]\.\(string\) *)
Definition pat_string_ok : regex :=
  Grp 1 (Plus (Cls CWord)) ;; lits (str ", ok := args[") ;;
  Grp 2 (Plus (Cls CDigit)) ;; lits (str "].(string)").

Definition tpl_string_ok : template :=
  [T "if args["; TGrp 2; T "] == nil || args["; TGrp 2;
   T "].Type() != engine.TypeString {"; TLit [NL; TAB; TAB; TAB];
   T "return nil, fmt.Errorf("; TLit [DQ]; T "argument must be string";
   TLit [DQ]; T ")"; TLit [NL; TAB; TAB]; T "}"; TLit [NL; TAB; TAB];
   TGrp 1; T " := args["; TGrp 2; T "].(engine.StringValue).Value()"].

(* args\[(\d+)\]\.\(string\) and its float64 and bool siblings *)
Definition pat_cast (ty : string) : regex :=
  lits (str "args[") ;; Grp 1 (Plus (Cls CDigit)) ;;
  lits (str "].(") ;; lits (str ty) ;; lits (str ")").

Definition tpl_cast (v : string) : template :=
  [T "args["; TGrp 1; T "].(engine."; T v; T ").Value()"].

Definition string_rules : list rule :=
  [ (pat_string_ok, tpl_string_ok);
    (pat_cast "string", tpl_cast "StringValue");
    (pat_cast "float64", tpl_cast "NumberValue");
    (pat_cast "bool", tpl_cast "BoolValue") ].

Definition fix_string_validations (content : text) : option text :=
  apply_rules string_rules content.

(** [fix_return_values]; every rule runs with [re.MULTILINE] *)

(* r'return (ID), nil$' where ID is [a-zA-Z_] followed by [a-zA-Z0-9_] starred *)
Definition pat_ret_ident : regex :=
  lits (str "return ") ;; Grp 1 (Cls ident_start ;; Star (Cls ident_char)) ;;
  lits (str ", nil") ;; Eol.

Definition tpl_ret_ident : template :=
  [T "return engine.NewStringValue("; TGrp 1; T "), nil"].

(* return (\d+), nil$ *)
Definition pat_ret_int : regex :=
  lits (str "return ") ;; Grp 1 (Plus (Cls CDigit)) ;; lits (str ", nil") ;; Eol.

Definition tpl_ret_int : template :=
  [T "return engine.NewNumberValue(float64("; TGrp 1; T ")), nil"].

(* return (true|false), nil$ *)
Definition pat_ret_bool : regex :=
  lits (str "return ") ;; Grp 1 (Alt (lits (str "true")) (lits (str "false"))) ;;
  lits (str ", nil") ;; Eol.

Definition tpl_ret_bool : template :=
  [T "return engine.NewBoolValue("; TGrp 1; T "), nil"].

(* return schemaToScript\(([^)]+)\), nil *)
Definition pat_ret_schema : regex :=
  lits (str "return schemaToScript(") ;; Grp 1 (Plus (Cls not_rparen)) ;;
  lits (str "), nil").

Definition tpl_ret_schema : template :=
  [T "return convertSchemaToScriptValue("; TGrp 1; T "), nil"].

(* r'return (ID)\[([^\]]+)\], nil' with the same ID *)
Definition pat_ret_index : regex :=
  lits (str "return ") ;; Grp 1 (Cls ident_start ;; Star (Cls ident_char)) ;;
  lits (str "[") ;; Grp 2 (Plus (Cls not_rbracket)) ;; lits (str "], nil").

Definition tpl_ret_index : template :=
  [T "// TODO: Convert array/slice return"; TLit [NL; TAB; TAB];
   T "return engine.NewArrayValue(helpers.ConvertSliceToScriptValue(";
   TGrp 1; T "["; TGrp 2; T "])), nil"].

Definition return_rules : list rule :=
  [ (pat_ret_ident, tpl_ret_ident);
    (pat_ret_int, tpl_ret_int);
    (pat_ret_bool, tpl_ret_bool);
    (pat_ret_schema, tpl_ret_schema);
    (pat_ret_index, tpl_ret_index) ].

Definition fix_return_values (content : text) : option text :=
  apply_rules return_rules content.

(** [fix_object_validations] *)

(* (\w+), ok := args\[(\d+)\]\.\(map\[string\]interface\{\}\) *)
Definition object_pattern : regex :=
  Grp 1 (Plus (Cls CWord)) ;; lits (str ", ok := args[") ;;
  Grp 2 (Plus (Cls CDigit)) ;; lits (str "].(map[string]interface{})").

Definition object_replacement : template :=
  [T "if args["; TGrp 2; T "] == nil || args["; TGrp 2;
   T "].Type() != engine.TypeObject {"; TLit [NL; TAB; TAB; TAB];
   T "return nil, fmt.Errorf("; TLit [DQ]; T "argument must be object";
   TLit [DQ]; T ")"; TLit [NL; TAB; TAB]; T "}"; TLit [NL; TAB; TAB];
   TGrp 1; T " := make(map[string]interface{})"; TLit [NL; TAB; TAB];
   T "for k, v := range args["; TGrp 2; T "].(engine.ObjectValue).Fields() {";
   TLit [NL; TAB; TAB; TAB]; TGrp 1; T "[k] = v.ToGo()"; TLit [NL; TAB; TAB];
   T "}"].

Definition fix_object_validations (content : text) : option text :=
  re_sub object_pattern object_replacement content.

(** [add_helper_import] *)

Fixpoint starts_with (p s : text) : bool :=
  match p, s with
  | [], _ => true
  | _ :: _, [] => false
  | a :: p', b :: s' => Ascii.eqb a b && starts_with p' s'
  end.

(** ['helpers' in content]: the substring test. *)
Fixpoint contains (p s : text) : bool :=
  starts_with p s ||
  match s with
  | [] => false
  | _ :: s' => contains p s'
  end.

Definition helpers : text := str "helpers".

(* r'(import \(\n(?:LINE\n)@)' where LINE is [^\)] starred and @ is the
   star of the non-capturing group *)
Definition import_pattern : regex :=
  Grp 1 (lits (str "import (") ;; Lit NL ;;
         Star (Star (Cls not_rparen) ;; Lit NL)).

Definition helper_line : text :=
  TAB :: DQ :: str "github.com/lexlapax/go-llmspell/pkg/bridge/structured/helpers"
  ++ [DQ; NL].

Definition import_replacement : template := [TGrp 1; TLit helper_line].

Definition add_helper_import (content : text) : option text :=
  if negb (contains helpers content)
  then re_sub import_pattern import_replacement content
  else Some content.

(** ** The pipeline: the four calls of [main], in its order *)

Definition pipeline (content : text) : option text :=
  bind (add_helper_import content) (fun c1 =>
  bind (fix_string_validations c1) (fun c2 =>
  bind (fix_object_validations c2) (fun c3 =>
  fix_return_values c3))).

(** * Properties of the matcher *)

(** ** What a match is

    [Derives r mt rest c c']: the pattern [r] matches the text [mt] when
    [rest] follows it, turning the captures [c] into [c']. *)
Inductive Derives : regex -> text -> text -> caps -> caps -> Prop :=
| D_Eps rest c : Derives Eps [] rest c c
| D_Lit a rest c : Derives (Lit a) [a] rest c c
| D_Cls cl b rest c : cls_mem cl b = true -> Derives (Cls cl) [b] rest c c
| D_Seq a b m1 m2 rest c c1 c2 :
    Derives a m1 (m2 ++ rest) c c1 -> Derives b m2 rest c1 c2 ->
    Derives (Seq a b) (m1 ++ m2) rest c c2
| D_AltL a b mt rest c c' : Derives a mt rest c c' -> Derives (Alt a b) mt rest c c'
| D_AltR a b mt rest c c' : Derives b mt rest c c' -> Derives (Alt a b) mt rest c c'
| D_Star0 a rest c : Derives (Star a) [] rest c c
| D_StarS a m1 m2 rest c c1 c2 :
    m1 <> [] -> Derives a m1 (m2 ++ rest) c c1 -> Derives (Star a) m2 rest c1 c2 ->
    Derives (Star a) (m1 ++ m2) rest c c2
| D_Grp n a mt rest c c' :
    Derives a mt rest c c' -> Derives (Grp n a) mt rest c ((n, mt) :: c')
| D_Eol rest c : at_eol rest = true -> Derives Eol [] rest c c.

Lemma consumed_app (mt rest : text) : consumed (mt ++ rest) rest = mt.
Proof.
  unfold consumed. rewrite length_app.
  replace (length mt + length rest - length rest) with (length mt) by lia.
  rewrite firstn_app, firstn_all. replace (length mt - length mt) with 0 by lia.
  simpl. now rewrite app_nil_r.
Qed.

Section Soundness.
Variable x : result.

Definition sound_at (r : regex) : Prop :=
  forall s c k, m r s c k = Some x ->
    exists mt rest c', s = mt ++ rest /\ Derives r mt rest c c' /\ k rest c' = Some x.

Lemma star_loop_sound (a : regex) (IHa : sound_at a) k fuel :
  forall s c, star_loop (m a) k fuel s c = Some x ->
    exists mt rest c',
      s = mt ++ rest /\ Derives (Star a) mt rest c c' /\ k rest c' = Some x.
Proof.
  induction fuel as [|f IHf]; intros s c H; simpl in H.
  - exists [], s, c. repeat split; auto. constructor.
  - destruct (m a s c _) as [y|] eqn:E.
    + injection H as ->.
      apply IHa in E. destruct E as (m1 & r1 & c1 & -> & D1 & K1).
      destruct (length r1 <? length (m1 ++ r1)) eqn:G; [|discriminate].
      apply IHf in K1. destruct K1 as (m2 & rest & c2 & -> & D2 & K2).
      exists (m1 ++ m2), rest, c2. rewrite app_assoc. repeat split; auto.
      apply D_StarS with c1; auto.
      intros ->. apply Nat.ltb_lt in G. simpl in G. lia.
    + exists [], s, c. repeat split; auto. constructor.
Qed.

Lemma m_sound (r : regex) : sound_at r.
Proof.
  induction r as [|a|cl|ra IHr1 rb IHr2|ra IHr1 rb IHr2|r IHr|n r IHr|];
    intros s c k H; simpl in H.
  - exists [], s, c. repeat split; auto. constructor.
  - destruct s as [|b s']; [discriminate|].
    destruct (Ascii.eqb a b) eqn:E; [|discriminate].
    apply Ascii.eqb_eq in E. subst b.
    exists [a], s', c. repeat split; auto. constructor.
  - destruct s as [|b s']; [discriminate|].
    destruct (cls_mem cl b) eqn:E; [|discriminate].
    exists [b], s', c. repeat split; auto. now constructor.
  - apply IHr1 in H. destruct H as (m1 & r1 & c1 & -> & D1 & K1).
    apply IHr2 in K1. destruct K1 as (m2 & rest & c2 & -> & D2 & K2).
    exists (m1 ++ m2), rest, c2. rewrite app_assoc. repeat split; auto.
    now apply D_Seq with c1.
  - destruct (m ra s c k) as [y|] eqn:E.
    + injection H as ->. apply IHr1 in E.
      destruct E as (mt & rest & c' & -> & D & K).
      exists mt, rest, c'. repeat split; auto. now apply D_AltL.
    + apply IHr2 in H. destruct H as (mt & rest & c' & -> & D & K).
      exists mt, rest, c'. repeat split; auto. now apply D_AltR.
  - now apply star_loop_sound in H.
  - apply IHr in H. destruct H as (mt & rest & c' & -> & D & K).
    rewrite consumed_app in K.
    exists mt, rest, ((n, mt) :: c'). repeat split; auto. now constructor.
  - destruct (at_eol s) eqn:E; [|discriminate].
    exists [], s, c. repeat split; auto. now constructor.
Qed.
End Soundness.

Lemma match_at_sound r s c rest :
  match_at r s = Some (c, rest) ->
  exists mt, s = mt ++ rest /\ Derives r mt rest [] c.
Proof.
  intros H. apply m_sound in H. destruct H as (mt & rest' & c' & -> & D & K).
  injection K as -> ->. now exists mt.
Qed.

(** ** The matcher and its continuation *)

Lemma star_loop_ext step k1 k2 :
  (forall s c ka kb, (forall s' c', ka s' c' = kb s' c') -> step s c ka = step s c kb) ->
  (forall s c, k1 s c = k2 s c) ->
  forall fuel s c, star_loop step k1 fuel s c = star_loop step k2 fuel s c.
Proof.
  intros Hstep Hk. induction fuel as [|f IH]; intros s c; simpl; auto.
  rewrite Hk.
  rewrite (Hstep s c _ (fun s' c' =>
     if length s' <? length s then star_loop step k2 f s' c' else None)); auto.
  intros s' c'. destruct (length s' <? length s); auto.
Qed.

Lemma m_ext r : forall s c k1 k2,
  (forall s' c', k1 s' c' = k2 s' c') -> m r s c k1 = m r s c k2.
Proof.
  induction r as [|a|cl|ra IHa rb IHb|ra IHa rb IHb|r IHr|n r IHr|];
    intros s c k1 k2 H; simpl.
  - apply H.
  - destruct s as [|b s]; auto. destruct (Ascii.eqb a b); auto.
  - destruct s as [|b s]; auto. destruct (cls_mem cl b); auto.
  - apply IHa. intros. now apply IHb.
  - rewrite (IHa s c k1 k2 H), (IHb s c k1 k2 H). reflexivity.
  - apply star_loop_ext; auto.
  - apply IHr. intros. apply H.
  - now rewrite H.
Qed.

Lemma m_none r : forall s c k,
  (forall s' c', k s' c' = None) -> m r s c k = None.
Proof.
  induction r as [|a|cl|ra IHa rb IHb|ra IHa rb IHb|r IHr|n r IHr|];
    intros s c k H; simpl.
  - apply H.
  - destruct s as [|b s]; auto. destruct (Ascii.eqb a b); auto.
  - destruct s as [|b s]; auto. destruct (cls_mem cl b); auto.
  - apply IHa. intros. now apply IHb.
  - rewrite (IHa s c k H). now apply IHb.
  - generalize (length s) at 1. intros fuel. revert s c.
    induction fuel as [|f IHf]; intros s c; simpl; auto.
    rewrite IHr; auto. intros s' c'. destruct (length s' <? length s); auto.
  - apply IHr. intros. apply H.
  - destruct (at_eol s); auto.
Qed.

(** The fuel of the star is the length of the text, and every round
    consumes at least one character: more fuel changes nothing. *)
Lemma star_loop_fuel a k : forall f1 f2 s c,
  length s <= f1 -> length s <= f2 ->
  star_loop (m a) k f1 s c = star_loop (m a) k f2 s c.
Proof.
  assert (Z : forall f s c, length s = 0 ->
            star_loop (m a) k f s c = k s c).
  { intros [|f] s c E; simpl; auto. rewrite m_none; auto.
    intros s' c'. rewrite E. reflexivity. }
  induction f1 as [|f1 IH]; intros f2 s c H1 H2.
  - rewrite (Z f2) by lia. reflexivity.
  - destruct f2 as [|f2].
    + rewrite (Z (S f1)) by lia. reflexivity.
    + simpl. erewrite m_ext; [reflexivity|].
      intros s' c'. simpl. destruct (length s' <? length s) eqn:G; auto.
      apply Nat.ltb_lt in G. apply IH; lia.
Qed.

Lemma m_star_unfold a s c k :
  m (Star a) s c k =
  match m a s c (fun s' c' =>
                   if length s' <? length s then m (Star a) s' c' k else None) with
  | Some x => Some x
  | None => k s c
  end.
Proof.
  simpl. destruct (length s) as [|n] eqn:E.
  - simpl. rewrite m_none; auto.
  - simpl. erewrite m_ext; [reflexivity|].
    intros s' c'. simpl. rewrite E.
    destruct (length s' <? S n) eqn:G; auto.
    apply Nat.ltb_lt in G. apply star_loop_fuel; lia.
Qed.

(** The star of a class: the run of characters of the class is taken
    whole first, then one character less, and so on. *)
Lemma m_star_cls_cons cl b s c k :
  cls_mem cl b = true ->
  m (Star (Cls cl)) (b :: s) c k =
  match m (Star (Cls cl)) s c k with
  | Some x => Some x
  | None => k (b :: s) c
  end.
Proof.
  intros H. rewrite m_star_unfold. cbn [m]. rewrite H.
  replace (length s <? length (b :: s)) with true; auto.
  symmetry. apply Nat.ltb_lt. simpl. lia.
Qed.

Definition stops (cl : cls) (s : text) : Prop :=
  match s with
  | [] => True
  | b :: _ => cls_mem cl b = false
  end.

Lemma m_star_cls_stop cl s c k :
  stops cl s -> m (Star (Cls cl)) s c k = k s c.
Proof.
  intros H. rewrite m_star_unfold. destruct s as [|b s]; simpl; auto.
  simpl in H. now rewrite H.
Qed.

Lemma m_star_cls_run cl x y c k r :
  Forall (fun b => cls_mem cl b = true) x -> stops cl y ->
  k y c = Some r -> m (Star (Cls cl)) (x ++ y) c k = Some r.
Proof.
  intros Hx Hy Hk. induction Hx as [|b x Hb Hx IH]; cbn [app].
  - rewrite m_star_cls_stop; auto.
  - rewrite m_star_cls_cons; auto. now rewrite IH.
Qed.

Lemma m_star_cls_fail cl x y c k :
  Forall (fun b => cls_mem cl b = true) x -> stops cl y ->
  (forall x1 x2, x = x1 ++ x2 -> k (x2 ++ y) c = None) ->
  m (Star (Cls cl)) (x ++ y) c k = None.
Proof.
  intros Hx Hy. induction Hx as [|b x Hb Hx IH]; intros Hk; cbn [app].
  - rewrite m_star_cls_stop; auto. apply (Hk [] []). reflexivity.
  - rewrite m_star_cls_cons; auto. rewrite IH.
    + apply (Hk [] (b :: x)). reflexivity.
    + intros x1 x2 ->. apply (Hk (b :: x1) x2). reflexivity.
Qed.

Lemma m_lits p : forall s c k,
  m (lits p) (p ++ s) c k = k s c.
Proof.
  induction p as [|a p IH]; intros s c k; simpl; auto.
  rewrite Ascii.eqb_refl. apply IH.
Qed.

Lemma m_lits_fail p : forall s c k,
  starts_with p s = false -> m (lits p) s c k = None.
Proof.
  induction p as [|a p IH]; intros s c k H; simpl in *.
  - discriminate.
  - destruct s as [|b s]; auto.
    destruct (Ascii.eqb a b); auto.
Qed.

(** ** Matches are not empty *)

Fixpoint nullable (r : regex) : bool :=
  match r with
  | Eps | Eol | Star _ => true
  | Lit _ | Cls _ => false
  | Seq a b => nullable a && nullable b
  | Alt a b => nullable a || nullable b
  | Grp _ a => nullable a
  end.

Lemma Derives_nonempty r mt rest c c' :
  Derives r mt rest c c' -> nullable r = false -> mt <> [].
Proof.
  induction 1; simpl; intros N; try discriminate.
  - apply andb_false_iff in N. intros E. apply app_eq_nil in E.
    destruct E as [E1 E2]. destruct N as [N|N].
    + now apply IHDerives1.
    + now apply IHDerives2.
  - apply orb_false_iff in N. tauto.
  - apply orb_false_iff in N. tauto.
  - auto.
Qed.

Lemma match_at_nil r : nullable r = false -> match_at r [] = None.
Proof.
  intros N. destruct (match_at r []) as [[c rest]|] eqn:E; auto.
  apply match_at_sound in E. destruct E as (mt & E & D).
  symmetry in E. apply app_eq_nil in E. destruct E as [-> _].
  now apply Derives_nonempty in D.
Qed.

(** ** Unfolding [re.sub] *)

Lemma sub_from_skip r t x : forall rest,
  sub_from r t (length x) (x ++ rest) = sub_from r t 0 rest.
Proof.
  induction x as [|a x IH]; intros rest; simpl; auto.
Qed.

Lemma subst_nil r t : nullable r = false -> subst r t [] = [].
Proof. intros N. unfold subst. simpl. now rewrite match_at_nil. Qed.

Lemma subst_copy r t a s :
  match_at r (a :: s) = None -> subst r t (a :: s) = a :: subst r t s.
Proof. intros H. unfold subst. simpl. now rewrite H. Qed.

Lemma subst_fire r t s c rest :
  nullable r = false -> match_at r s = Some (c, rest) ->
  subst r t s = expand t c ++ subst r t rest.
Proof.
  intros N H. pose proof H as H'. apply match_at_sound in H'.
  destruct H' as (mt & -> & D). apply Derives_nonempty in D; auto.
  destruct mt as [|a mt]; [contradiction|].
  unfold subst. cbn [sub_from app]. rewrite <- app_comm_cons in H. rewrite H.
  f_equal. cbn [length]. rewrite length_app.
  replace (S (length mt + length rest) - length rest) with (S (length mt)) by lia.
  apply sub_from_skip.
Qed.

(** [has_match r s]: the pattern matches somewhere in [s]. *)
Fixpoint has_match (r : regex) (s : text) : bool :=
  match match_at r s with
  | Some _ => true
  | None => match s with
            | [] => false
            | _ :: s' => has_match r s'
            end
  end.

Lemma subst_no_match r t s : has_match r s = false -> subst r t s = s.
Proof.
  induction s as [|a s IH]; intros H; simpl in H.
  - unfold subst. simpl. destruct (match_at r []); [discriminate|reflexivity].
  - destruct (match_at r (a :: s)) eqn:E; [discriminate|].
    rewrite subst_copy; auto. now rewrite IH.
Qed.

(** ** Patterns that stay on one line *)

Fixpoint newline_free (r : regex) : bool :=
  match r with
  | Eps | Eol => true
  | Lit a => negb (Ascii.eqb a NL)
  | Cls cl => negb (cls_mem cl NL)
  | Seq a b | Alt a b => newline_free a && newline_free b
  | Star a | Grp _ a => newline_free a
  end.

Lemma consumed_local (x s' z : text) : consumed (x ++ z) (s' ++ z) = consumed x s'.
Proof.
  unfold consumed. rewrite !length_app.
  replace (length x + length z - (length s' + length z))
    with (length x - length s') by lia.
  rewrite firstn_app.
  replace (length x - length s' - length x) with 0 by lia.
  simpl. now rewrite app_nil_r.
Qed.

Lemma m_local r : newline_free r = true ->
  forall y x c k,
    m r (x ++ NL :: y) c k = m r x c (fun s' c' => k (s' ++ NL :: y) c').
Proof.
  induction r as [|a|cl|ra IHa rb IHb|ra IHa rb IHb|r IHr|n r IHr|];
    intros F y x c k; simpl in F.
  - reflexivity.
  - destruct x as [|b x]; simpl.
    + apply negb_true_iff in F. now rewrite F.
    + reflexivity.
  - destruct x as [|b x]; simpl.
    + apply negb_true_iff in F. now rewrite F.
    + reflexivity.
  - apply andb_true_iff in F. destruct F as [Fa Fb].
    cbn [m]. rewrite IHa; auto. apply m_ext. intros. apply IHb; auto.
  - apply andb_true_iff in F. destruct F as [Fa Fb].
    cbn [m]. rewrite IHa, IHb; auto.
  - remember (length x) as n eqn:En.
    assert (L : length x <= n) by lia. clear En. revert x c L.
    induction n as [|n IHn]; intros x c L;
      rewrite (m_star_unfold r (x ++ NL :: y)), (m_star_unfold r x);
      rewrite IHr by auto;
      (erewrite m_ext; [reflexivity|]); intros s' c'; cbv beta;
      rewrite !length_app; cbn [length].
    + replace (length s' + S (length y) <? length x + S (length y)) with false.
      2:{ symmetry. apply Nat.ltb_ge. lia. }
      replace (length s' <? length x) with false; auto.
      symmetry. apply Nat.ltb_ge. lia.
    + destruct (length s' <? length x) eqn:G.
      * apply Nat.ltb_lt in G.
        replace (length s' + S (length y) <? length x + S (length y)) with true.
        2:{ symmetry. apply Nat.ltb_lt. lia. }
        apply IHn. lia.
      * apply Nat.ltb_ge in G.
        replace (length s' + S (length y) <? length x + S (length y)) with false; auto.
        symmetry. apply Nat.ltb_ge. lia.
  - cbn [m]. rewrite IHr; auto. apply m_ext. intros s' c'.
    now rewrite consumed_local.
  - cbn [m]. destruct x; reflexivity.
Qed.

Lemma m_map (f : result -> result) r : forall s c k,
  m r s c (fun s' c' => option_map f (k s' c')) = option_map f (m r s c k).
Proof.
  induction r as [|a|cl|ra IHa rb IHb|ra IHa rb IHb|r IHr|n r IHr|];
    intros s c k; cbn [m].
  - reflexivity.
  - destruct s as [|b s]; auto. destruct (Ascii.eqb a b); auto.
  - destruct s as [|b s]; auto. destruct (cls_mem cl b); auto.
  - rewrite <- IHa. apply m_ext. intros. apply IHb.
  - rewrite IHa, IHb. destruct (m ra s c k); reflexivity.
  - generalize (length s) at 1 2. intros fuel. revert s c.
    induction fuel as [|n IHf]; intros s c; simpl; auto.
    erewrite m_ext.
    2:{ intros s' c'.
        instantiate (1 := fun s' c' => option_map f
           (if length s' <? length s then star_loop (m r) k n s' c' else None)).
        cbv beta. destruct (length s' <? length s); auto. }
    rewrite IHr. destruct (m r s c _); reflexivity.
  - apply (IHr s c (fun s' c' => k s' ((n, consumed s s') :: c'))).
  - destruct (at_eol s); reflexivity.
Qed.

Definition push (z : text) (x : result) : result := (fst x, snd x ++ z).

Lemma match_at_local r x y :
  newline_free r = true ->
  match_at r (x ++ NL :: y) = option_map (push (NL :: y)) (match_at r x).
Proof.
  intros F. unfold match_at. rewrite m_local; auto.
  rewrite <- m_map. reflexivity.
Qed.

(** A pattern that cannot cross a line end rewrites a text line by line. *)
Lemma subst_lines r t y :
  newline_free r = true -> nullable r = false ->
  forall x, subst r t (x ++ NL :: y) = subst r t x ++ NL :: subst r t y.
Proof.
  intros F N x.
  assert (Z : subst r t ([] ++ NL :: y) = subst r t [] ++ NL :: subst r t y).
  { rewrite subst_nil by auto. cbn [app]. apply subst_copy.
    pose proof (match_at_local r [] y F) as M. cbn [app] in M.
    rewrite M, match_at_nil; auto. }
  remember (length x) as n eqn:En.
  assert (L : length x <= n) by lia. clear En. revert x L.
  induction n as [|n IH]; intros x L.
  - destruct x; [|simpl in L; lia]. now apply Z.
  - destruct x as [|a x].
    + now apply Z.
    + destruct (match_at r (a :: x)) as [[c rest]|] eqn:E.
      * rewrite (subst_fire r t (a :: x) c rest) by auto.
        rewrite (subst_fire r t _ c (rest ++ NL :: y)); auto.
        2:{ rewrite match_at_local, E; auto. }
        rewrite <- app_assoc. f_equal. apply IH.
        apply match_at_sound in E. destruct E as (mt & E & D).
        apply Derives_nonempty in D; auto.
        apply (f_equal (@length _)) in E. rewrite length_app in E.
        destruct mt; [contradiction|]. simpl in *. lia.
      * rewrite (subst_copy r t a x E). rewrite <- !app_comm_cons.
        rewrite subst_copy.
        2:{ rewrite app_comm_cons, match_at_local, E; auto. }
        f_equal. apply IH. simpl in L. lia.
Qed.

(** ** Occurrences of a window of character tests *)

Definition window := list (ascii -> bool).

Fixpoint opens (w : window) (s : text) : bool :=
  match w, s with
  | [], _ => true
  | _ :: _, [] => false
  | p :: w', b :: s' => p b && opens w' s'
  end.

Fixpoint occurs (w : window) (s : text) : bool :=
  opens w s ||
  match s with
  | [] => false
  | _ :: s' => occurs w s'
  end.

Definition lit_window (u : text) : window := map Ascii.eqb u.

Lemma opens_app w : forall mt rest, opens w mt = true -> opens w (mt ++ rest) = true.
Proof.
  induction w as [|p w IH]; intros mt rest H; simpl in *; auto.
  destruct mt as [|b mt]; [discriminate|]. simpl.
  apply andb_true_iff in H. destruct H as [H1 H2]. rewrite H1. simpl. auto.
Qed.

Lemma occurs_app_l w : forall x y, occurs w x = true -> occurs w (x ++ y) = true.
Proof.
  induction x as [|a x IH]; intros y H; simpl in H.
  - rewrite orb_false_r in H. apply (opens_app w [] y) in H. simpl in H.
    destruct y; simpl; rewrite H; reflexivity.
  - apply orb_true_iff in H. cbn [app occurs]. apply orb_true_iff.
    destruct H as [H|H]; [left|right]; auto.
    now apply (opens_app w (a :: x) y).
Qed.

Lemma occurs_app_r w : forall x y, occurs w y = true -> occurs w (x ++ y) = true.
Proof.
  induction x as [|a x IH]; intros y H; simpl; auto.
  rewrite IH; auto. apply orb_true_r.
Qed.

Lemma occurs_mid w u x y : opens w u = true -> occurs w (x ++ u ++ y) = true.
Proof.
  intros H. apply occurs_app_r. apply occurs_app_l.
  destruct u; simpl; rewrite H; reflexivity.
Qed.

Lemma occurs_tail w a s : occurs w (a :: s) = false -> occurs w s = false.
Proof. simpl. intros H. apply orb_false_iff in H. tauto. Qed.

(** Passing over a run of characters that the window cannot start in
    ([occurs_skip1]) or cannot continue in ([occurs_skip2], [occurs_skip3]). *)
Lemma occurs_skip1 p w x y :
  Forall (fun b => p b = false) x ->
  occurs (p :: w) (x ++ y) = occurs (p :: w) y.
Proof.
  induction 1 as [|b x Hb Hx IH]; auto.
  cbn [app occurs opens]. rewrite Hb. simpl. apply IH.
Qed.

Definition head_fails (p : ascii -> bool) (s : text) : Prop :=
  match s with
  | [] => True
  | b :: _ => p b = false
  end.

Lemma occurs_skip2 p1 p2 w x y :
  Forall (fun b => p2 b = false) x -> head_fails p2 y ->
  occurs (p1 :: p2 :: w) (x ++ y) = occurs (p1 :: p2 :: w) y.
Proof.
  intros Hx Hy. induction Hx as [|b x Hb Hx IH]; auto.
  cbn [app occurs]. rewrite IH.
  replace (opens (p1 :: p2 :: w) (b :: x ++ y)) with false; auto.
  cbn [opens]. destruct Hx as [|b' x' Hb' Hx']; cbn [app].
  - destruct y as [|d y]; simpl in *; [|rewrite Hy]; now rewrite andb_false_r.
  - simpl. rewrite Hb'. now rewrite andb_false_r.
Qed.

Definition second_fails (p : ascii -> bool) (s : text) : Prop :=
  match s with
  | _ :: d :: _ => p d = false
  | _ => True
  end.

Lemma occurs_skip3 p1 p2 p3 w x y :
  Forall (fun b => p2 b = false) x -> second_fails p3 y ->
  occurs (p1 :: p2 :: p3 :: w) (x ++ y) = occurs (p1 :: p2 :: p3 :: w) y.
Proof.
  intros Hx Hy. induction Hx as [|b x Hb Hx IH]; auto.
  cbn [app occurs]. rewrite IH.
  replace (opens (p1 :: p2 :: p3 :: w) (b :: x ++ y)) with false; auto.
  cbn [opens]. destruct Hx as [|b' x' Hb' Hx']; cbn [app].
  - destruct y as [|c [|d y]]; simpl in *;
      rewrite ?Hy, ?andb_false_r; reflexivity.
  - simpl. rewrite Hb'. now rewrite andb_false_r.
Qed.

(** A text in which the window of a rule occurs nowhere is left as it is. *)
Definition trigger (r : regex) (w : window) : Prop :=
  forall mt rest c, Derives r mt rest [] c -> occurs w mt = true.

Lemma no_trigger_no_match r w : trigger r w ->
  forall s, occurs w s = false -> has_match r s = false.
Proof.
  intros T. induction s as [|a s IH]; intros H.
  - simpl. destruct (match_at r []) as [[c rest]|] eqn:E; auto.
    apply match_at_sound in E. destruct E as (mt & E & D).
    apply T in D. rewrite E in H. rewrite occurs_app_l in H; auto.
  - cbn [has_match]. destruct (match_at r (a :: s)) as [[c rest]|] eqn:E.
    + apply match_at_sound in E. destruct E as (mt & E & D).
      apply T in D. rewrite E in H. rewrite occurs_app_l in H; auto.
    + apply IH. now apply occurs_tail in H.
Qed.

Lemma subst_no_trigger r t w s :
  trigger r w -> occurs w s = false -> subst r t s = s.
Proof.
  intros T H. apply subst_no_match. now apply (no_trigger_no_match r w).
Qed.

(** ** Taking a derivation apart *)

Lemma Derives_seq a b mt rest c c2 :
  Derives (Seq a b) mt rest c c2 ->
  exists m1 m2 c1, mt = m1 ++ m2 /\
    Derives a m1 (m2 ++ rest) c c1 /\ Derives b m2 rest c1 c2.
Proof. inversion 1; subst. eauto 7. Qed.

Lemma Derives_lit a mt rest c c' :
  Derives (Lit a) mt rest c c' -> mt = [a] /\ c' = c.
Proof. inversion 1; subst. auto. Qed.

Lemma Derives_cls cl mt rest c c' :
  Derives (Cls cl) mt rest c c' ->
  exists b, mt = [b] /\ cls_mem cl b = true /\ c' = c.
Proof. inversion 1; subst. eauto. Qed.

Lemma Derives_grp n a mt rest c c2 :
  Derives (Grp n a) mt rest c c2 ->
  exists c1, c2 = (n, mt) :: c1 /\ Derives a mt rest c c1.
Proof. inversion 1; subst. eauto. Qed.

Lemma Derives_eol mt rest c c' :
  Derives Eol mt rest c c' -> mt = [] /\ c' = c /\ at_eol rest = true.
Proof. inversion 1; subst. auto. Qed.

Lemma Derives_alt a b mt rest c c' :
  Derives (Alt a b) mt rest c c' ->
  Derives a mt rest c c' \/ Derives b mt rest c c'.
Proof. inversion 1; subst; auto. Qed.

Lemma Derives_lits p : forall mt rest c c',
  Derives (lits p) mt rest c c' -> mt = p /\ c' = c.
Proof.
  induction p as [|a p IH]; intros mt rest c c' D; simpl in D.
  - inversion D; subst. auto.
  - apply Derives_seq in D. destruct D as (m1 & m2 & c1 & -> & D1 & D2).
    apply Derives_lit in D1. destruct D1 as [-> ->].
    apply IH in D2. destruct D2 as [-> ->]. auto.
Qed.

Lemma Derives_star_cls cl mt rest c c' :
  Derives (Star (Cls cl)) mt rest c c' ->
  Forall (fun b => cls_mem cl b = true) mt /\ c' = c.
Proof.
  remember (Star (Cls cl)) as r eqn:Er. induction 1; try discriminate.
  - auto.
  - injection Er as ->. destruct (IHDerives2 eq_refl) as [F ->].
    apply Derives_cls in H0. destruct H0 as (b & -> & Hb & ->).
    split; auto. simpl. constructor; auto.
Qed.

Lemma Derives_plus_cls cl mt rest c c' :
  Derives (Plus (Cls cl)) mt rest c c' ->
  Forall (fun b => cls_mem cl b = true) mt /\ mt <> [] /\ c' = c.
Proof.
  unfold Plus. intros D. apply Derives_seq in D.
  destruct D as (m1 & m2 & c1 & -> & D1 & D2).
  apply Derives_cls in D1. destruct D1 as (b & -> & Hb & ->).
  apply Derives_star_cls in D2. destruct D2 as [F ->].
  split; [|split]; auto.
  - simpl. constructor; auto.
  - simpl. discriminate.
Qed.

Ltac take_apart :=
  repeat match goal with
    | D : Derives (Seq _ _) _ _ _ _ |- _ =>
        apply Derives_seq in D;
        let m1 := fresh "m" in let m2 := fresh "m" in let c1 := fresh "c" in
        destruct D as (m1 & m2 & c1 & -> & ? & ?)
    | D : Derives (lits _) _ _ _ _ |- _ =>
        apply Derives_lits in D; destruct D as [-> ->]
    | D : Derives (Lit _) _ _ _ _ |- _ =>
        apply Derives_lit in D; destruct D as [-> ->]
    | D : Derives (Grp _ _) _ _ _ _ |- _ =>
        apply Derives_grp in D;
        let c1 := fresh "c" in destruct D as (c1 & -> & ?)
    | D : Derives (Plus (Cls _)) _ _ _ _ |- _ =>
        apply Derives_plus_cls in D; destruct D as (? & ? & ->)
    | D : Derives (Star (Cls _)) _ _ _ _ |- _ =>
        apply Derives_star_cls in D; destruct D as (? & ->)
    | D : Derives Eol _ _ _ _ |- _ =>
        apply Derives_eol in D; destruct D as (-> & -> & ?)
    end.

Definition all_in (cl : cls) (x : text) : Prop :=
  Forall (fun b => cls_mem cl b = true) x.

(** ** The shape of a match of each pattern *)

Lemma shape_string_ok mt rest c :
  Derives pat_string_ok mt rest [] c ->
  exists W D, mt = W ++ str ", ok := args[" ++ D ++ str "].(string)" /\
    c = [(2, D); (1, W)] /\ all_in CWord W /\ W <> [] /\ all_in CDigit D /\ D <> [].
Proof.
  unfold pat_string_ok. intros D. take_apart. eauto 10.
Qed.

Lemma shape_cast ty mt rest c :
  Derives (pat_cast ty) mt rest [] c ->
  exists D, mt = str "args[" ++ D ++ str "].(" ++ str ty ++ str ")" /\
    c = [(1, D)] /\ all_in CDigit D /\ D <> [].
Proof.
  unfold pat_cast. intros D. take_apart. eauto 10.
Qed.

Lemma shape_object mt rest c :
  Derives object_pattern mt rest [] c ->
  exists W D, mt = W ++ str ", ok := args[" ++ D ++ str "].(map[string]interface{})" /\
    c = [(2, D); (1, W)] /\ all_in CWord W /\ W <> [] /\ all_in CDigit D /\ D <> [].
Proof.
  unfold object_pattern. intros D. take_apart. eauto 10.
Qed.

Lemma shape_ret_ident mt rest c :
  Derives pat_ret_ident mt rest [] c ->
  exists i I, mt = str "return " ++ (i :: I) ++ str ", nil" /\
    c = [(1, i :: I)] /\ cls_mem ident_start i = true /\ all_in ident_char I /\
    at_eol rest = true.
Proof.
  unfold pat_ret_ident. intros D. take_apart.
  match goal with H : Derives (Cls _) _ _ _ _ |- _ =>
    apply Derives_cls in H; destruct H as (i & -> & Hi & ->) end.
  rewrite !app_nil_r.
  match goal with H : Forall _ ?I |- _ => exists i, I end.
  repeat split; auto.
Qed.

Lemma shape_ret_int mt rest c :
  Derives pat_ret_int mt rest [] c ->
  exists D, mt = str "return " ++ D ++ str ", nil" /\
    c = [(1, D)] /\ all_in CDigit D /\ D <> [] /\ at_eol rest = true.
Proof.
  unfold pat_ret_int. intros D. take_apart. rewrite !app_nil_r. eauto 10.
Qed.

Lemma shape_ret_bool mt rest c :
  Derives pat_ret_bool mt rest [] c ->
  exists B, mt = str "return " ++ B ++ str ", nil" /\
    c = [(1, B)] /\ (B = str "true" \/ B = str "false") /\ at_eol rest = true.
Proof.
  unfold pat_ret_bool. intros D. take_apart.
  match goal with H : Derives (Alt _ _) _ _ _ _ |- _ =>
    apply Derives_alt in H; destruct H end;
    take_apart; rewrite !app_nil_r;
    [exists (str "true") | exists (str "false")]; repeat split; auto.
Qed.

Lemma shape_ret_schema mt rest c :
  Derives pat_ret_schema mt rest [] c ->
  exists X, mt = str "return schemaToScript(" ++ X ++ str "), nil" /\
    c = [(1, X)] /\ all_in not_rparen X /\ X <> [].
Proof.
  unfold pat_ret_schema. intros D. take_apart. eauto 10.
Qed.

Lemma shape_ret_index mt rest c :
  Derives pat_ret_index mt rest [] c ->
  exists i I X, mt = str "return " ++ (i :: I) ++ str "[" ++ X ++ str "], nil" /\
    c = [(2, X); (1, i :: I)] /\ cls_mem ident_start i = true /\
    all_in ident_char I /\ all_in not_rbracket X /\ X <> [].
Proof.
  unfold pat_ret_index. intros D. take_apart.
  match goal with H : Derives (Cls _) _ _ _ _ |- _ =>
    apply Derives_cls in H; destruct H as (i & -> & Hi & ->) end.
  match goal with H : Forall _ ?I, H' : Forall _ ?X |- _ => exists i, I, X end.
  repeat split; auto.
Qed.

Lemma Derives_import_body mt rest c c' :
  Derives (Star (Star (Cls not_rparen) ;; Lit NL)) mt rest c c' ->
  (mt = [] \/ exists b, mt = b ++ [NL]) /\ c' = c.
Proof.
  remember (Star (Star (Cls not_rparen) ;; Lit NL)) as r eqn:Er.
  induction 1; try discriminate.
  - auto.
  - injection Er as ->. destruct (IHDerives2 eq_refl) as [E ->].
    take_apart. split; auto. right. destruct E as [->|(b & ->)].
    + rewrite app_nil_r. eauto.
    + eexists. rewrite !app_assoc. reflexivity.
Qed.

Lemma shape_import mt rest c :
  Derives import_pattern mt rest [] c ->
  c = [(1, mt)] /\ exists b, mt = b ++ [NL].
Proof.
  unfold import_pattern. intros D. take_apart.
  match goal with H : Derives (Star _) _ _ _ _ |- _ =>
    apply Derives_import_body in H; destruct H as [E ->] end.
  split; auto. destruct E as [->|(b & ->)].
  - exists (str "import ("). reflexivity.
  - eexists. rewrite !app_assoc. reflexivity.
Qed.

(** ** Reasoning on [re.sub] by its steps *)

Lemma subst_ind r t (P : text -> text -> Prop) :
  nullable r = false ->
  P [] [] ->
  (forall a s s', match_at r (a :: s) = None -> P s s' -> P (a :: s) (a :: s')) ->
  (forall mt rest c s', mt <> [] -> Derives r mt rest [] c -> P rest s' ->
     P (mt ++ rest) (expand t c ++ s')) ->
  forall s, P s (subst r t s).
Proof.
  intros N P0 Pc Pf s. remember (length s) as n eqn:En.
  assert (L : length s <= n) by lia. clear En. revert s L.
  induction n as [|n IH]; intros s L.
  - destruct s; [|simpl in L; lia]. now rewrite subst_nil.
  - destruct s as [|a s]; [now rewrite subst_nil|].
    destruct (match_at r (a :: s)) as [[c rest]|] eqn:E.
    + rewrite (subst_fire r t _ c rest N E).
      apply match_at_sound in E. destruct E as (mt & E & D).
      pose proof (Derives_nonempty _ _ _ _ _ D N) as NE.
      rewrite E. apply Pf; auto. apply IH.
      apply (f_equal (@length _)) in E. rewrite length_app in E.
      destruct mt; [contradiction|]. simpl in *. lia.
    + rewrite subst_copy by auto. apply Pc; auto. apply IH. simpl in L. lia.
Qed.

(** ** Lines and blocks of lines *)

Definition line_start (pre : text) : Prop := pre = [] \/ exists p, pre = p ++ [NL].
Definition line_end (post : text) : Prop := post = [] \/ exists q, post = NL :: q.

(** [has_block B doc]: the text [B] stands in [doc] from the start of a
    line to the end of a line. *)
Definition has_block (B doc : text) : Prop :=
  exists pre post, doc = pre ++ B ++ post /\ line_start pre /\ line_end post.

Fixpoint join (ls : list text) : text :=
  match ls with
  | [] => []
  | [l] => l
  | l :: ls' => l ++ NL :: join ls'
  end.

Lemma subst_block r t B pre post :
  newline_free r = true -> nullable r = false ->
  line_start pre -> line_end post ->
  exists pre' post',
    subst r t (pre ++ B ++ post) = pre' ++ subst r t B ++ post' /\
    line_start pre' /\ line_end post'.
Proof.
  intros F N [->|(p & ->)] [->|(q & ->)].
  - exists [], []. rewrite app_nil_r. cbn [app]. rewrite app_nil_r.
    split; [reflexivity|]. split; left; auto.
  - exists [], (NL :: subst r t q). cbn [app]. rewrite subst_lines by auto.
    split; [reflexivity|]. split; [left|right]; eauto.
  - exists (subst r t p ++ [NL]), []. rewrite !app_nil_r, <- app_assoc. cbn [app].
    rewrite subst_lines by auto.
    split; [now rewrite <- app_assoc|]. split; [right|left]; eauto.
  - exists (subst r t p ++ [NL]), (NL :: subst r t q).
    rewrite <- !app_assoc. cbn [app]. rewrite subst_lines by auto.
    rewrite subst_lines by auto.
    split; [reflexivity|]. split; right; eauto.
Qed.

(** A one-line pattern rewrites a block in place, whatever surrounds it. *)
Lemma map_block r t B B' doc :
  newline_free r = true -> nullable r = false ->
  subst r t B = B' -> has_block B doc -> has_block B' (subst r t doc).
Proof.
  intros F N E (pre & post & -> & Hs & He).
  destruct (subst_block r t B pre post F N Hs He) as (pre' & post' & -> & Hs' & He').
  rewrite E. now exists pre', post'.
Qed.

Lemma keep_block r t w B doc :
  newline_free r = true -> nullable r = false ->
  trigger r w -> occurs w B = false ->
  has_block B doc -> has_block B (subst r t doc).
Proof.
  intros F N T H. apply map_block; auto. now apply (subst_no_trigger r t w).
Qed.

(** ** The import rule only inserts helper lines *)

Inductive Ins : text -> text -> Prop :=
| Ins_nil : Ins [] []
| Ins_copy a s s' : Ins s s' -> Ins (a :: s) (a :: s')
| Ins_line s s' : Ins s s' -> Ins (NL :: s) (NL :: helper_line ++ s').

Lemma Ins_app_copy x : forall s s', Ins s s' -> Ins (x ++ s) (x ++ s').
Proof. induction x; intros; simpl; auto. constructor. auto. Qed.

Lemma subst_Ins s : Ins s (subst import_pattern import_replacement s).
Proof.
  apply subst_ind; try reflexivity.
  - constructor.
  - intros. now constructor.
  - intros mt rest c s' NE D H. apply shape_import in D.
    destruct D as (-> & b & ->). cbn [import_replacement expand group Nat.eqb].
    rewrite app_nil_r, <- !app_assoc. cbn [app].
    apply Ins_app_copy. now apply Ins_line.
Qed.

Lemma Ins_cons a s z : Ins (a :: s) z ->
  exists s', Ins s s' /\ (z = a :: s' \/ (a = NL /\ z = NL :: helper_line ++ s')).
Proof. inversion 1; subst; eauto. Qed.

Lemma Ins_app x : forall y s', Ins (x ++ y) s' ->
  exists x' y', s' = x' ++ y' /\ Ins x x' /\ Ins y y'.
Proof.
  induction x as [|a x IH]; intros y s' H.
  - exists [], s'. repeat split; auto. constructor.
  - cbn [app] in H. apply Ins_cons in H. destruct H as (z & H & E).
    destruct (IH _ _ H) as (x' & y' & -> & Hx & Hy).
    destruct E as [->|[-> ->]].
    + exists (a :: x'), y'. repeat split; auto. now constructor.
    + exists (NL :: helper_line ++ x'), y'. split; [|split]; auto.
      now constructor.
Qed.

Lemma Ins_same B B' : Ins B B' -> ~ In NL B -> B' = B.
Proof.
  induction 1; intros NB; auto.
  - f_equal. apply IHIns. intros I. apply NB. now right.
  - exfalso. apply NB. now left.
Qed.

Lemma Ins_last p : forall s', Ins (p ++ [NL]) s' -> exists p', s' = p' ++ [NL].
Proof.
  induction p as [|a p IH]; intros s' H; cbn [app] in H;
    apply Ins_cons in H; destruct H as (z & H & E).
  - inversion H; subst. destruct E as [->|[_ ->]].
    + now exists [].
    + rewrite app_nil_r. exists (NL :: removelast helper_line). reflexivity.
  - destruct (IH _ H) as (p' & ->). destruct E as [->|[-> ->]].
    + now exists (a :: p').
    + exists (NL :: helper_line ++ p'). cbn [app]. now rewrite <- app_assoc.
Qed.

Lemma Ins_line_start pre pre' : Ins pre pre' -> line_start pre -> line_start pre'.
Proof.
  intros H [->|(p & ->)].
  - inversion H. now left.
  - right. now apply Ins_last in H.
Qed.

Lemma Ins_line_end post post' : Ins post post' -> line_end post -> line_end post'.
Proof.
  intros H [->|(q & ->)].
  - inversion H. now left.
  - right. apply Ins_cons in H. destruct H as (z & H & [->|[_ ->]]); eauto.
Qed.

Lemma Ins_block B doc doc' :
  ~ In NL B -> Ins doc doc' -> has_block B doc -> has_block B doc'.
Proof.
  intros NB H (pre & post & -> & Hs & He).
  apply Ins_app in H. destruct H as (pre' & z & -> & Hp & Hz).
  apply Ins_app in Hz. destruct Hz as (B' & post' & -> & HB & Hq).
  apply Ins_same in HB; auto. subst B'.
  exists pre', post'. split; [reflexivity|]. split.
  - now apply (Ins_line_start pre).
  - now apply (Ins_line_end post).
Qed.

(** ** Rules that replace pieces of a line

    [Rep rules s s']: [s'] is [s] with some disjoint pieces [u] replaced by
    [v], for pairs [rules u v]; everything else is copied. *)
Section Replace.
Variable rules : text -> text -> Prop.

Inductive Rep : text -> text -> Prop :=
| Rep_nil : Rep [] []
| Rep_copy a s s' : Rep s s' -> Rep (a :: s) (a :: s')
| Rep_fire u v s s' : rules u v -> Rep s s' -> Rep (u ++ s) (v ++ s').

Lemma Rep_app_copy x : forall s s', Rep s s' -> Rep (x ++ s) (x ++ s').
Proof. induction x; intros; simpl; auto. constructor. auto. Qed.

Hypothesis rules_one_line : forall u v, rules u v -> ~ In NL u.

Lemma app_split_nl (u : text) : forall s x y,
  u ++ s = x ++ NL :: y -> ~ In NL u ->
  exists x1, x = u ++ x1 /\ s = x1 ++ NL :: y.
Proof.
  induction u as [|a u IH]; intros s x y E NI.
  - exists x. auto.
  - destruct x as [|b x]; cbn [app] in E.
    + injection E as -> _. exfalso. apply NI. now left.
    + injection E as -> E. destruct (IH _ _ _ E) as (x1 & -> & ->).
      * intros I. apply NI. now right.
      * now exists x1.
Qed.

Lemma Rep_split s s' : Rep s s' -> forall x y, s = x ++ NL :: y ->
  exists x' y', s' = x' ++ NL :: y' /\ Rep x x' /\ Rep y y'.
Proof.
  induction 1 as [|a s s' H IH|u v s s' R H IH]; intros x y E.
  - destruct x; discriminate.
  - destruct x as [|b x]; cbn [app] in E.
    + injection E as -> ->. exists [], s'. repeat split; auto. constructor.
    + injection E as -> ->. destruct (IH _ _ eq_refl) as (x' & y' & -> & Hx & Hy).
      exists (b :: x'), y'. repeat split; auto. now constructor.
  - destruct (app_split_nl u s x y E (rules_one_line u v R)) as (x1 & -> & ->).
    destruct (IH _ _ eq_refl) as (x' & y' & -> & Hx & Hy).
    exists (v ++ x'), y'. rewrite <- app_assoc. repeat split; auto.
    now constructor.
Qed.

(** A line is [safe] when no piece of a rule can begin in it. *)
Variable safe : text -> Prop.
Hypothesis safe_tail : forall a s, safe (a :: s) -> safe s.
Hypothesis safe_rule : forall u v s, rules u v -> safe (u ++ s) -> False.

Lemma Rep_same B B' : Rep B B' -> safe B -> B' = B.
Proof.
  induction 1 as [|a s s' H IH|u v s s' R H IH]; intros S; auto.
  - f_equal. apply IH. now apply safe_tail in S.
  - exfalso. eapply safe_rule; eauto.
Qed.

Lemma Rep_join ls : forall l, Forall safe (l :: ls) ->
  forall B', Rep (join (l :: ls)) B' -> B' = join (l :: ls).
Proof.
  induction ls as [|l2 ls IH]; intros l S B' H.
  - simpl in *. apply Rep_same; auto. now inversion S.
  - change (join (l :: l2 :: ls)) with (l ++ NL :: join (l2 :: ls)) in *.
    destruct (Rep_split _ _ H _ _ eq_refl) as (x' & y' & -> & Hx & Hy).
    inversion S; subst.
    apply Rep_same in Hx; auto. subst x'. f_equal. f_equal. now apply IH.
Qed.

Lemma Rep_line_start pre s' post :
  line_start pre -> Rep (pre ++ post) s' ->
  exists pre' post', s' = pre' ++ post' /\ line_start pre' /\ Rep post post'.
Proof.
  intros [->|(p & ->)] H.
  - exists [], s'. repeat split; auto. now left.
  - rewrite <- app_assoc in H. cbn [app] in H.
    destruct (Rep_split _ _ H _ _ eq_refl) as (x' & y' & -> & Hx & Hy).
    exists (x' ++ [NL]), y'. rewrite <- app_assoc. repeat split; auto.
    right. now exists x'.
Qed.

Lemma Rep_line_end B post s' :
  line_end post -> Rep (B ++ post) s' ->
  exists B' post', s' = B' ++ post' /\ line_end post' /\ Rep B B'.
Proof.
  intros [->|(q & ->)] H.
  - rewrite app_nil_r in H. exists s', []. rewrite app_nil_r.
    repeat split; auto. now left.
  - destruct (Rep_split _ _ H _ _ eq_refl) as (x' & y' & -> & Hx & Hy).
    exists x', (NL :: y'). repeat split; auto. right. now exists y'.
Qed.

Lemma Rep_block l ls doc doc' :
  Forall safe (l :: ls) -> Rep doc doc' ->
  has_block (join (l :: ls)) doc -> has_block (join (l :: ls)) doc'.
Proof.
  intros S H (pre & post & -> & Hs & He).
  destruct (Rep_line_start _ _ _ Hs H) as (pre' & z & -> & Hs' & Hz).
  destruct (Rep_line_end _ _ _ He Hz) as (B' & post' & -> & He' & HB).
  apply Rep_join in HB; auto. subst B'. now exists pre', post'.
Qed.
End Replace.

Lemma all_in_not_In cl x c : all_in cl x -> cls_mem cl c = false -> ~ In c x.
Proof.
  intros F H I. unfold all_in in F. rewrite Forall_forall in F.
  apply F in I. congruence.
Qed.

(** *** The schema-helper rename *)

Definition rules_schema (u v : text) : Prop :=
  u = str "return schemaToScript(" /\ v = str "return convertSchemaToScriptValue(".

Lemma subst_schema_Rep s :
  Rep rules_schema s (subst pat_ret_schema tpl_ret_schema s).
Proof.
  apply subst_ind; try reflexivity.
  - constructor.
  - intros. now constructor.
  - intros mt rest c s' NE D H. apply shape_ret_schema in D.
    destruct D as (X & -> & -> & FX & NX).
    unfold tpl_ret_schema, T. cbn [expand group Nat.eqb].
    rewrite app_nil_r, <- !app_assoc.
    apply Rep_fire; [split; reflexivity|].
    apply Rep_app_copy. now apply Rep_app_copy.
Qed.

Definition w_schema : window := lit_window (str "t(").

Definition safe_schema (l : text) : Prop := occurs w_schema l = false.

Lemma keep_block_schema l ls doc :
  Forall safe_schema (l :: ls) -> has_block (join (l :: ls)) doc ->
  has_block (join (l :: ls)) (subst pat_ret_schema tpl_ret_schema doc).
Proof.
  intros S. apply (Rep_block rules_schema) with (safe := safe_schema); auto.
  - intros u v [-> _]. simpl. intuition discriminate.
  - intros a s. apply occurs_tail.
  - intros u v s [-> _] H. unfold safe_schema in H.
    rewrite occurs_app_l in H; [discriminate|reflexivity].
  - apply subst_schema_Rep.
Qed.

(** *** The index rule *)

Definition index_open : text :=
  str "// TODO: Convert array/slice return" ++ [NL; TAB; TAB] ++
  str "return engine.NewArrayValue(helpers.ConvertSliceToScriptValue(".

Definition rules_index (u v : text) : Prop :=
  (exists i I, cls_mem ident_start i = true /\ all_in ident_char I /\
     u = str "return " ++ (i :: I) ++ str "[" /\
     v = index_open ++ (i :: I) ++ str "[")
  \/ (u = str "], nil" /\ v = str "])), nil").

Lemma subst_index_Rep s :
  Rep rules_index s (subst pat_ret_index tpl_ret_index s).
Proof.
  apply subst_ind; try reflexivity.
  - constructor.
  - intros. now constructor.
  - intros mt rest c s' NE D H. apply shape_ret_index in D.
    destruct D as (i & I & X & -> & -> & Hi & FI & FX & NX).
    unfold tpl_ret_index, T. cbn [expand group Nat.eqb].
    rewrite app_nil_r.
    replace ((str "return " ++ (i :: I) ++ str "[" ++ X ++ str "], nil") ++ rest)
      with ((str "return " ++ (i :: I) ++ str "[") ++ X ++ str "], nil" ++ rest)
      by (now rewrite <- !app_assoc).
    match goal with |- Rep _ _ ?out =>
      replace out with ((index_open ++ (i :: I) ++ str "[") ++ X ++ str "])), nil" ++ s')
    end.
    2:{ unfold index_open. now rewrite <- !app_assoc. }
    apply Rep_fire; [left; exists i, I; auto|].
    apply Rep_app_copy. apply Rep_fire; [right; auto|]. exact H.
Qed.

Definition w_bracket : window := [Ascii.eqb "["].
Definition w_return : window :=
  [Ascii.eqb "n"; Ascii.eqb " "; cls_mem ident_start].
Definition w_close : window := lit_window (str "],").

Definition safe_index (l : text) : Prop :=
  (occurs w_bracket l = false \/ occurs w_return l = false) /\
  occurs w_close l = false.

Lemma keep_block_index l ls doc :
  Forall safe_index (l :: ls) -> has_block (join (l :: ls)) doc ->
  has_block (join (l :: ls)) (subst pat_ret_index tpl_ret_index doc).
Proof.
  intros S. apply (Rep_block rules_index) with (safe := safe_index); auto.
  - intros u v [(i & I & Hi & FI & -> & _)|[-> _]].
    + intros H. apply in_app_or in H. destruct H as [H|H].
      * simpl in H. intuition discriminate.
      * apply in_app_or in H. destruct H as [[H|H]|H].
        -- subst i. discriminate.
        -- revert H. now apply (all_in_not_In ident_char).
        -- simpl in H. intuition discriminate.
    + simpl. intuition discriminate.
  - intros a s [[H|H] H']; split; eauto using occurs_tail.
  - intros u v s [(i & I & Hi & FI & -> & _)|[-> _]] [[H|H] H'].
    + rewrite <- !app_assoc in H.
      rewrite occurs_app_r in H; [discriminate|].
      apply occurs_app_r. reflexivity.
    + change (str "return ") with (str "retur" ++ str "n ") in H.
      rewrite <- !app_assoc in H. rewrite occurs_app_r in H; [discriminate|].
      change (occurs w_return ("n"%char :: " "%char :: i :: I ++ str "[" ++ s) = true).
      unfold w_return. cbn [occurs opens]. rewrite Hi. reflexivity.
    + rewrite occurs_app_l in H'; [discriminate|reflexivity].
    + rewrite occurs_app_l in H'; [discriminate|reflexivity].
  - apply subst_index_Rep.
Qed.

(** ** What every match of a one-line rule contains *)

Definition w_cast_s : window := lit_window (str "].(s").
Definition w_cast_f : window := lit_window (str "].(f").
Definition w_cast_b : window := lit_window (str "].(b").
Definition w_cast_m : window := lit_window (str "].(m").
Definition w_nil : window := lit_window (str ", n").
Definition w_ident_comma : window := [cls_mem ident_char; Ascii.eqb ","].
Definition w_digit_comma : window := [is_digit; Ascii.eqb ","].
Definition w_e_comma : window := lit_window (str "e,").

Ltac find_window :=
  first [ reflexivity
        | apply occurs_app_l; reflexivity
        | apply occurs_app_r; find_window ].

Lemma trigger_string_ok : trigger pat_string_ok w_cast_s.
Proof.
  intros mt rest c D. apply shape_string_ok in D.
  destruct D as (W & D & -> & _). find_window.
Qed.

Lemma trigger_cast_string : trigger (pat_cast "string") w_cast_s.
Proof.
  intros mt rest c D. apply shape_cast in D.
  destruct D as (D & -> & _). find_window.
Qed.

Lemma trigger_cast_float : trigger (pat_cast "float64") w_cast_f.
Proof.
  intros mt rest c D. apply shape_cast in D.
  destruct D as (D & -> & _). find_window.
Qed.

Lemma trigger_cast_bool : trigger (pat_cast "bool") w_cast_b.
Proof.
  intros mt rest c D. apply shape_cast in D.
  destruct D as (D & -> & _). find_window.
Qed.

Lemma trigger_object : trigger object_pattern w_cast_m.
Proof.
  intros mt rest c D. apply shape_object in D.
  destruct D as (W & D & -> & _). find_window.
Qed.

Lemma trigger_ret_ident_nil : trigger pat_ret_ident w_nil.
Proof.
  intros mt rest c D. apply shape_ret_ident in D.
  destruct D as (i & I & -> & _). find_window.
Qed.

Lemma trigger_ret_int_nil : trigger pat_ret_int w_nil.
Proof.
  intros mt rest c D. apply shape_ret_int in D.
  destruct D as (D & -> & _). find_window.
Qed.

Lemma trigger_ret_bool_nil : trigger pat_ret_bool w_nil.
Proof.
  intros mt rest c D. apply shape_ret_bool in D.
  destruct D as (B & -> & _). find_window.
Qed.

Lemma ident_start_char b :
  cls_mem ident_start b = true -> cls_mem ident_char b = true.
Proof.
  unfold ident_start, ident_char, cls_mem, in_ranges, existsb, fst, snd.
  intros H. repeat (apply orb_true_iff in H; destruct H as [H|H]);
    rewrite ?H, ?orb_true_r; auto; discriminate.
Qed.

Lemma last_char (x : text) : x <> [] -> exists y z, x = y ++ [z].
Proof.
  intros H. destruct (exists_last H) as (y & z & E). eauto.
Qed.

Lemma trigger_ret_ident_comma : trigger pat_ret_ident w_ident_comma.
Proof.
  intros mt rest c D. apply shape_ret_ident in D.
  destruct D as (i & I & -> & _ & Hi & FI & _).
  assert (F : all_in ident_char (i :: I)).
  { constructor; auto. now apply ident_start_char. }
  destruct (last_char (i :: I)) as (y & z & E); [discriminate|].
  rewrite E in *. apply Forall_app in F. destruct F as [_ F].
  inversion F; subst. rewrite <- app_assoc.
  apply occurs_app_r. apply occurs_app_r.
  cbn [app str list_ascii_of_string occurs opens w_ident_comma].
  match goal with H : cls_mem ident_char z = true |- _ => rewrite H end.
  reflexivity.
Qed.

Lemma trigger_ret_int_comma : trigger pat_ret_int w_digit_comma.
Proof.
  intros mt rest c D. apply shape_ret_int in D.
  destruct D as (D & -> & _ & FD & ND & _).
  destruct (last_char D ND) as (y & z & E).
  rewrite E in *. apply Forall_app in FD. destruct FD as [_ F].
  inversion F; subst. rewrite <- app_assoc.
  apply occurs_app_r. apply occurs_app_r.
  cbn [app str list_ascii_of_string occurs opens w_digit_comma].
  match goal with H : cls_mem CDigit z = true |- _ => simpl in H; rewrite H end.
  reflexivity.
Qed.

Lemma trigger_ret_bool_comma : trigger pat_ret_bool w_e_comma.
Proof.
  intros mt rest c D. apply shape_ret_bool in D.
  destruct D as (B & -> & _ & [->| ->] & _); reflexivity.
Qed.

(** ** The rule groups as total functions

    Every template of the script refers to groups its pattern has, so no
    call of [re.sub] is rejected and each group is a total function. *)

Definition import_text (doc : text) : text :=
  if negb (contains helpers doc) then subst import_pattern import_replacement doc
  else doc.

Definition strings_text (doc : text) : text :=
  subst (pat_cast "bool") (tpl_cast "BoolValue")
    (subst (pat_cast "float64") (tpl_cast "NumberValue")
       (subst (pat_cast "string") (tpl_cast "StringValue")
          (subst pat_string_ok tpl_string_ok doc))).

Definition object_text (doc : text) : text :=
  subst object_pattern object_replacement doc.

Definition returns_text (doc : text) : text :=
  subst pat_ret_index tpl_ret_index
    (subst pat_ret_schema tpl_ret_schema
       (subst pat_ret_bool tpl_ret_bool
          (subst pat_ret_int tpl_ret_int
             (subst pat_ret_ident tpl_ret_ident doc)))).

Definition pipeline_text (doc : text) : text :=
  returns_text (object_text (strings_text (import_text doc))).

Lemma add_helper_import_total doc : add_helper_import doc = Some (import_text doc).
Proof.
  unfold add_helper_import, import_text.
  destruct (negb (contains helpers doc)); reflexivity.
Qed.

Lemma fix_string_validations_total doc :
  fix_string_validations doc = Some (strings_text doc).
Proof. reflexivity. Qed.

Lemma fix_object_validations_total doc :
  fix_object_validations doc = Some (object_text doc).
Proof. reflexivity. Qed.

Lemma fix_return_values_total doc :
  fix_return_values doc = Some (returns_text doc).
Proof. reflexivity. Qed.

Lemma pipeline_total doc : pipeline doc = Some (pipeline_text doc).
Proof.
  unfold pipeline, pipeline_text. rewrite add_helper_import_total. cbn [bind].
  rewrite fix_string_validations_total. cbn [bind].
  rewrite fix_object_validations_total. cbn [bind].
  apply fix_return_values_total.
Qed.

(** ** Blocks that a rule group leaves in place *)

Lemma keep_import B doc :
  ~ In NL B -> has_block B doc -> has_block B (import_text doc).
Proof.
  intros NB H. unfold import_text.
  destruct (negb (contains helpers doc)); auto.
  apply (Ins_block B doc); auto. apply subst_Ins.
Qed.

Lemma keep_strings B doc :
  occurs w_cast_s B = false -> occurs w_cast_f B = false ->
  occurs w_cast_b B = false ->
  has_block B doc -> has_block B (strings_text doc).
Proof.
  intros Hs Hf Hb H. unfold strings_text.
  apply (keep_block _ _ w_cast_b); auto using trigger_cast_bool.
  apply (keep_block _ _ w_cast_f); auto using trigger_cast_float.
  apply (keep_block _ _ w_cast_s); auto using trigger_cast_string.
  apply (keep_block _ _ w_cast_s); auto using trigger_string_ok.
Qed.

Lemma keep_object B doc :
  occurs w_cast_m B = false -> has_block B doc -> has_block B (object_text doc).
Proof.
  intros Hm H. apply (keep_block _ _ w_cast_m); auto using trigger_object.
Qed.

Definition safe_ret_ident (B : text) : Prop :=
  occurs w_nil B = false \/ occurs w_ident_comma B = false.
Definition safe_ret_int (B : text) : Prop :=
  occurs w_nil B = false \/ occurs w_digit_comma B = false.
Definition safe_ret_bool (B : text) : Prop :=
  occurs w_nil B = false \/ occurs w_e_comma B = false.

Lemma keep_ret_ident B doc :
  safe_ret_ident B -> has_block B doc ->
  has_block B (subst pat_ret_ident tpl_ret_ident doc).
Proof.
  intros [H|H].
  - apply (keep_block _ _ w_nil); auto using trigger_ret_ident_nil.
  - apply (keep_block _ _ w_ident_comma); auto using trigger_ret_ident_comma.
Qed.

Lemma keep_ret_int B doc :
  safe_ret_int B -> has_block B doc ->
  has_block B (subst pat_ret_int tpl_ret_int doc).
Proof.
  intros [H|H].
  - apply (keep_block _ _ w_nil); auto using trigger_ret_int_nil.
  - apply (keep_block _ _ w_digit_comma); auto using trigger_ret_int_comma.
Qed.

Lemma keep_ret_bool B doc :
  safe_ret_bool B -> has_block B doc ->
  has_block B (subst pat_ret_bool tpl_ret_bool doc).
Proof.
  intros [H|H].
  - apply (keep_block _ _ w_nil); auto using trigger_ret_bool_nil.
  - apply (keep_block _ _ w_e_comma); auto using trigger_ret_bool_comma.
Qed.

Lemma keep_returns l ls doc :
  safe_ret_ident (join (l :: ls)) -> safe_ret_int (join (l :: ls)) ->
  safe_ret_bool (join (l :: ls)) ->
  Forall safe_schema (l :: ls) -> Forall safe_index (l :: ls) ->
  has_block (join (l :: ls)) doc -> has_block (join (l :: ls)) (returns_text doc).
Proof.
  intros H1 H2 H3 H4 H5 H. unfold returns_text.
  apply keep_block_index; auto. apply keep_block_schema; auto.
  apply keep_ret_bool; auto. apply keep_ret_int; auto.
  now apply keep_ret_ident.
Qed.

(** ** Evaluating a match on a text with unknown parts *)

Lemma m_seq a b s c k :
  m (Seq a b) s c k = m a s c (fun s' c' => m b s' c' k).
Proof. reflexivity. Qed.

(** A group of one [c1] and a starred [c2] in front of a text: it takes
    the whole run [i :: x]
    when what follows does not continue the run and the rest of the pattern
    accepts it. *)
Lemma m_grp_run n c1 c2 i x y c k r :
  cls_mem c1 i = true -> all_in c2 x -> stops c2 y ->
  k y ((n, i :: x) :: c) = Some r ->
  m (Grp n (Cls c1 ;; Star (Cls c2))) ((i :: x) ++ y) c k = Some r.
Proof.
  intros Hi Hx Hy Hk. cbn [m app]. rewrite Hi.
  change (star_loop (m (Cls c2)) ?k0 (length ?s) ?s ?c0)
    with (m (Star (Cls c2)) s c0 k0).
  apply m_star_cls_run; auto.
  change (i :: x ++ y) with ((i :: x) ++ y). now rewrite consumed_app.
Qed.

Lemma m_lits_seq p b s c k :
  m (lits p ;; b) (p ++ s) c k = m b s c k.
Proof. rewrite m_seq. apply m_lits. Qed.

(** ** Where a match can begin *)

Definition begins (r : regex) (p : ascii -> bool) : Prop :=
  forall mt rest c, Derives r mt rest [] c -> exists b mt', mt = b :: mt' /\ p b = true.

Lemma begins_no_match r p b s :
  begins r p -> p b = false -> match_at r (b :: s) = None.
Proof.
  intros B H. destruct (match_at r (b :: s)) as [[c rest]|] eqn:E; auto.
  apply match_at_sound in E. destruct E as (mt & E & D).
  apply B in D. destruct D as (b' & mt' & -> & Hb).
  injection E as -> _. congruence.
Qed.

Lemma subst_skip r t p x s :
  begins r p -> Forall (fun b => p b = false) x ->
  subst r t (x ++ s) = x ++ subst r t s.
Proof.
  intros B. induction 1 as [|b x Hb Hx IH]; auto.
  cbn [app]. rewrite subst_copy; [now rewrite IH|].
  now apply (begins_no_match r p).
Qed.

Lemma begins_string_ok : begins pat_string_ok is_word.
Proof.
  intros mt rest c D. apply shape_string_ok in D.
  destruct D as (W & D & -> & _ & FW & NW & _).
  destruct W as [|b W]; [contradiction|]. inversion FW; subst.
  exists b. eexists. split; [reflexivity|assumption].
Qed.

Lemma begins_object : begins object_pattern is_word.
Proof.
  intros mt rest c D. apply shape_object in D.
  destruct D as (W & D & -> & _ & FW & NW & _).
  destruct W as [|b W]; [contradiction|]. inversion FW; subst.
  exists b. eexists. split; [reflexivity|assumption].
Qed.

Lemma begins_ret_ident : begins pat_ret_ident (Ascii.eqb "r").
Proof.
  intros mt rest c D. apply shape_ret_ident in D.
  destruct D as (i & I & -> & _).
  eexists. eexists. split; reflexivity.
Qed.

Lemma begins_ret_int : begins pat_ret_int (Ascii.eqb "r").
Proof.
  intros mt rest c D. apply shape_ret_int in D.
  destruct D as (D & -> & _).
  eexists. eexists. split; reflexivity.
Qed.

Lemma begins_ret_index : begins pat_ret_index (Ascii.eqb "r").
Proof.
  intros mt rest c D. apply shape_ret_index in D.
  destruct D as (i & I & X & -> & _).
  eexists. eexists. split; reflexivity.
Qed.

(** ** Indentation *)

Definition blank (b : ascii) : bool := Ascii.eqb b " " || Ascii.eqb b TAB.

Definition all_blank (x : text) : Prop := Forall (fun b => blank b = true) x.

Lemma blank_fails (p : ascii -> bool) x :
  p " "%char = false -> p TAB = false -> all_blank x ->
  Forall (fun b => p b = false) x.
Proof.
  intros Hs Ht H. eapply Forall_impl; [|exact H].
  intros b Hb. unfold blank in Hb. apply orb_true_iff in Hb.
  destruct Hb as [Hb|Hb]; apply Ascii.eqb_eq in Hb; now subst.
Qed.

Lemma class_neq (P : ascii -> bool) c x :
  P c = false -> Forall (fun b => P b = true) x ->
  Forall (fun b => Ascii.eqb c b = false) x.
Proof.
  intros Hc H. eapply Forall_impl; [|exact H].
  intros b Hb. cbv beta. destruct (Ascii.eqb c b) eqn:E; auto.
  apply Ascii.eqb_eq in E. congruence.
Qed.

(** * The string-argument idiom *)

Definition string_idiom (name k : text) : text :=
  name ++ str ", ok := args[" ++ k ++ str "].(string)".

Definition guard_head (ty : string) (k : text) : text :=
  str "if args[" ++ k ++ str "] == nil || args[" ++ k ++
  str "].Type() != engine.Type" ++ str ty ++ str " {".

Definition guard_error (what : string) : text :=
  [TAB; TAB; TAB] ++ str "return nil, fmt.Errorf(" ++ [DQ] ++
  str "argument must be " ++ str what ++ [DQ] ++ str ")".

Definition guard_close : text := [TAB; TAB] ++ str "}".

Definition string_extract (name k : text) : text :=
  [TAB; TAB] ++ name ++ str " := args[" ++ k ++ str "].(engine.StringValue).Value()".

Definition string_block (indent name k : text) : list text :=
  [ indent ++ guard_head "String" k; guard_error "string"; guard_close;
    string_extract name k ].

Lemma match_string_idiom name k :
  all_in CWord name -> name <> [] -> all_in CDigit k -> k <> [] ->
  match_at pat_string_ok (string_idiom name k) = Some ([(2, k); (1, name)], []).
Proof.
  intros Fn Nn Fk Nk.
  destruct name as [|n0 name]; [contradiction|].
  destruct k as [|k0 k]; [contradiction|].
  inversion Fn; subst. inversion Fk; subst.
  unfold match_at, pat_string_ok, string_idiom. rewrite m_seq.
  apply m_grp_run; auto; [reflexivity|].
  rewrite m_lits_seq, m_seq.
  apply m_grp_run; auto; reflexivity.
Qed.

Lemma fire_string_idiom indent name k :
  all_blank indent ->
  all_in CWord name -> name <> [] -> all_in CDigit k -> k <> [] ->
  subst pat_string_ok tpl_string_ok (indent ++ string_idiom name k)
  = join (string_block indent name k).
Proof.
  intros Fi Fn Nn Fk Nk.
  rewrite (subst_skip _ _ is_word) by
    (auto using begins_string_ok; apply blank_fails; auto).
  rewrite (subst_fire pat_string_ok tpl_string_ok _ _ _ eq_refl
             (match_string_idiom name k Fn Nn Fk Nk)).
  rewrite subst_nil by reflexivity.
  unfold string_block, join, guard_head, guard_error, guard_close, string_extract,
    tpl_string_ok, T.
  cbn [expand group Nat.eqb]. repeat rewrite <- app_assoc. reflexivity.
Qed.

(** ** Showing that a window occurs nowhere in a text with unknown parts *)

Lemma occurs_cons_skip w a s :
  opens w (a :: s) = false -> occurs w (a :: s) = occurs w s.
Proof. intros H. cbn [occurs]. now rewrite H. Qed.

Ltac run_fails :=
  first [ apply blank_fails; [reflexivity | reflexivity | assumption]
        | apply (class_neq (cls_mem CWord)); [reflexivity | assumption]
        | apply (class_neq (cls_mem CDigit)); [reflexivity | assumption]
        | apply (class_neq (cls_mem ident_char)); [reflexivity | assumption] ].

Ltac head_ok := first [exact I | exact eq_refl].

Ltac no_occ_step :=
  first [ rewrite occurs_cons_skip by reflexivity
        | rewrite occurs_skip1 by run_fails
        | rewrite occurs_skip2 by (first [run_fails | head_ok])
        | rewrite occurs_skip3 by (first [run_fails | head_ok]) ].

Ltac no_occ :=
  repeat rewrite <- app_assoc;
  cbn [app str list_ascii_of_string];
  repeat no_occ_step; reflexivity.

Ltac open_block :=
  unfold string_block, join, guard_head, guard_error, guard_close, string_extract,
    w_cast_s, w_cast_f, w_cast_b, w_cast_m, w_nil, w_schema, w_bracket,
    w_return, w_close, w_ident_comma, w_digit_comma, w_e_comma, lit_window;
  cbn [map str list_ascii_of_string].

Section StringBlock.
Variables indent name k : text.
Hypothesis Fi : all_blank indent.
Hypothesis Fn : all_in CWord name.
Hypothesis Fk : all_in CDigit k.

Let B := join (string_block indent name k).

Lemma string_block_cast_s : occurs w_cast_s B = false.
Proof. unfold B. open_block. no_occ. Qed.

Lemma string_block_cast_f : occurs w_cast_f B = false.
Proof. unfold B. open_block. no_occ. Qed.

Lemma string_block_cast_b : occurs w_cast_b B = false.
Proof. unfold B. open_block. no_occ. Qed.

Lemma string_block_cast_m : occurs w_cast_m B = false.
Proof. unfold B. open_block. no_occ. Qed.

Lemma string_block_nil : occurs w_nil B = false.
Proof. unfold B. open_block. no_occ. Qed.

Lemma string_block_schema : Forall safe_schema (string_block indent name k).
Proof. repeat constructor; unfold safe_schema; open_block; no_occ. Qed.

Lemma string_block_index : Forall safe_index (string_block indent name k).
Proof.
  repeat constructor; unfold safe_index; open_block;
    first [left; no_occ | right; no_occ | no_occ].
Qed.
End StringBlock.

Lemma run_not_In (P : ascii -> bool) x c :
  Forall (fun b => P b = true) x -> P c = false -> ~ In c x.
Proof.
  intros F H I. rewrite Forall_forall in F. apply F in I. congruence.
Qed.

Lemma not_In_app (c : ascii) x y : ~ In c x -> ~ In c y -> ~ In c (x ++ y).
Proof. intros Hx Hy H. apply in_app_or in H. tauto. Qed.

Lemma not_In_str (s : string) :
  forallb (fun b => negb (Ascii.eqb NL b)) (str s) = true -> ~ In NL (str s).
Proof.
  intros H I. rewrite forallb_forall in H. apply H in I.
  now rewrite Ascii.eqb_refl in I.
Qed.

Ltac one_line :=
  repeat first
    [ apply not_In_app
    | apply not_In_str; reflexivity
    | apply (run_not_In blank); [assumption | reflexivity]
    | apply (run_not_In (cls_mem CWord)); [assumption | reflexivity]
    | apply (run_not_In (cls_mem CDigit)); [assumption | reflexivity]
    | apply (run_not_In (cls_mem ident_char)); [assumption | reflexivity] ].

(** The string idiom on a line of its own.  A document with the
    destructuring string-argument idiom
    [name, ok := args[k].(string)] on a line of its own (after any
    indentation) comes out of the pipeline with, in place of that line, the
    four lines of [string_block]: the guard on [args[k]] that returns the
    error "argument must be string", and after it the extraction
    [name := args[k].(engine.StringValue).Value()]. *)
Lemma string_idiom_line doc indent name k :
  all_blank indent ->
  all_in CWord name -> name <> [] -> all_in CDigit k -> k <> [] ->
  has_block (indent ++ string_idiom name k) doc ->
  exists out, pipeline doc = Some out /\
    has_block (join (string_block indent name k)) out.
Proof.
  intros Fi Fn Nn Fk Nk H.
  exists (pipeline_text doc). split; [apply pipeline_total|].
  unfold pipeline_text.
  apply keep_import in H; [|unfold string_idiom; one_line].
  apply (keep_returns (indent ++ guard_head "String" k));
    try (left; now apply string_block_nil).
  { now apply string_block_schema. }
  { now apply string_block_index. }
  apply keep_object; [now apply string_block_cast_m|].
  unfold strings_text.
  apply (keep_block _ _ w_cast_b);
    [reflexivity | reflexivity | apply trigger_cast_bool
    | now apply string_block_cast_b |].
  apply (keep_block _ _ w_cast_f);
    [reflexivity | reflexivity | apply trigger_cast_float
    | now apply string_block_cast_f |].
  apply (keep_block _ _ w_cast_s);
    [reflexivity | reflexivity | apply trigger_cast_string
    | now apply string_block_cast_s |].
  apply (map_block _ _ (indent ++ string_idiom name k)); auto.
  now apply fire_string_idiom.
Qed.

(** * The object-argument idiom *)

Definition object_idiom (name k : text) : text :=
  name ++ str ", ok := args[" ++ k ++ str "].(map[string]interface{})".

Definition object_make (name : text) : text :=
  [TAB; TAB] ++ name ++ str " := make(map[string]interface{})".

Definition object_loop (k : text) : text :=
  [TAB; TAB] ++ str "for k, v := range args[" ++ k ++
  str "].(engine.ObjectValue).Fields() {".

Definition object_copy (name : text) : text :=
  [TAB; TAB; TAB] ++ name ++ str "[k] = v.ToGo()".

Definition object_block (indent name k : text) : list text :=
  [ indent ++ guard_head "Object" k; guard_error "object"; guard_close;
    object_make name; object_loop k; object_copy name; guard_close ].

Lemma match_object_idiom name k :
  all_in CWord name -> name <> [] -> all_in CDigit k -> k <> [] ->
  match_at object_pattern (object_idiom name k) = Some ([(2, k); (1, name)], []).
Proof.
  intros Fn Nn Fk Nk.
  destruct name as [|n0 name]; [contradiction|].
  destruct k as [|k0 k]; [contradiction|].
  inversion Fn; subst. inversion Fk; subst.
  unfold match_at, object_pattern, object_idiom. rewrite m_seq.
  apply m_grp_run; auto; [reflexivity|].
  rewrite m_lits_seq, m_seq.
  apply m_grp_run; auto; reflexivity.
Qed.

Lemma fire_object_idiom indent name k :
  all_blank indent ->
  all_in CWord name -> name <> [] -> all_in CDigit k -> k <> [] ->
  subst object_pattern object_replacement (indent ++ object_idiom name k)
  = join (object_block indent name k).
Proof.
  intros Fi Fn Nn Fk Nk.
  rewrite (subst_skip _ _ is_word) by
    (auto using begins_object; apply blank_fails; auto).
  rewrite (subst_fire object_pattern object_replacement _ _ _ eq_refl
             (match_object_idiom name k Fn Nn Fk Nk)).
  rewrite subst_nil by reflexivity.
  unfold object_block, join, guard_head, guard_error, guard_close, object_make,
    object_loop, object_copy, object_replacement, T.
  cbn [expand group Nat.eqb]. repeat rewrite <- app_assoc. reflexivity.
Qed.

Ltac open_object :=
  unfold object_block, object_idiom, object_make, object_loop, object_copy;
  open_block.

Section ObjectBlock.
Variables indent name k : text.
Hypothesis Fi : all_blank indent.
Hypothesis Fn : all_in CWord name.
Hypothesis Fk : all_in CDigit k.

Let L := indent ++ object_idiom name k.
Let B := join (object_block indent name k).

Lemma object_idiom_cast_s : occurs w_cast_s L = false.
Proof. unfold L. open_object. no_occ. Qed.

Lemma object_idiom_cast_f : occurs w_cast_f L = false.
Proof. unfold L. open_object. no_occ. Qed.

Lemma object_idiom_cast_b : occurs w_cast_b L = false.
Proof. unfold L. open_object. no_occ. Qed.

Lemma object_block_nil : occurs w_nil B = false.
Proof. unfold B. open_object. no_occ. Qed.

Lemma object_block_schema : Forall safe_schema (object_block indent name k).
Proof. repeat constructor; unfold safe_schema; open_object; no_occ. Qed.

Lemma object_block_index : Forall safe_index (object_block indent name k).
Proof.
  repeat constructor; unfold safe_index; open_object;
    first [left; no_occ | right; no_occ | no_occ].
Qed.
End ObjectBlock.

(** The object idiom on a line of its own.  A document with the
    object-argument idiom
    [name, ok := args[k].(map[string]interface{})] on a line of its own
    (after any indentation) comes out of the pipeline with, in place of that
    line, the seven lines of [object_block]: the guard on [args[k]] that
    returns the error "argument must be object", the construction of the
    empty mapping [name := make(map[string]interface{})], and the loop over
    the fields of [args[k]] that stores [v.ToGo()] under the same key. *)
Lemma object_idiom_line doc indent name k :
  all_blank indent ->
  all_in CWord name -> name <> [] -> all_in CDigit k -> k <> [] ->
  has_block (indent ++ object_idiom name k) doc ->
  exists out, pipeline doc = Some out /\
    has_block (join (object_block indent name k)) out.
Proof.
  intros Fi Fn Nn Fk Nk H.
  exists (pipeline_text doc). split; [apply pipeline_total|].
  unfold pipeline_text.
  apply keep_import in H; [|unfold object_idiom; one_line].
  apply keep_strings in H;
    [| now apply object_idiom_cast_s | now apply object_idiom_cast_f
     | now apply object_idiom_cast_b ].
  apply (keep_returns (indent ++ guard_head "Object" k));
    try (left; now apply object_block_nil).
  { now apply object_block_schema. }
  { now apply object_block_index. }
  apply (map_block _ _ (indent ++ object_idiom name k)); auto.
  now apply fire_object_idiom.
Qed.

(** * Bare returns *)

Definition ret_line (v : text) : text := str "return " ++ v ++ str ", nil".

Definition wrap_string (v : text) : text :=
  str "return engine.NewStringValue(" ++ v ++ str "), nil".

Definition wrap_number (v : text) : text :=
  str "return engine.NewNumberValue(float64(" ++ v ++ str ")), nil".

Definition wrap_bool (v : text) : text :=
  str "return engine.NewBoolValue(" ++ v ++ str "), nil".

(** An identifier as the first rule reads it: [[a-zA-Z_]] and then any
    number of [[a-zA-Z0-9_]]. *)
Definition identifier (v : text) : Prop :=
  match v with
  | [] => False
  | i :: v' => cls_mem ident_start i = true /\ all_in ident_char v'
  end.

Lemma identifier_chars v : identifier v -> all_in ident_char v.
Proof.
  destruct v as [|i v']; [contradiction|]. intros [Hi Hv].
  constructor; auto. now apply ident_start_char.
Qed.

Lemma match_ret_ident v :
  identifier v -> match_at pat_ret_ident (ret_line v) = Some ([(1, v)], []).
Proof.
  destruct v as [|i v']; [contradiction|]. intros [Hi Hv].
  unfold match_at, pat_ret_ident, ret_line. rewrite m_lits_seq, m_seq.
  apply m_grp_run; auto; reflexivity.
Qed.

Lemma fire_ret_ident indent v :
  all_blank indent -> identifier v ->
  subst pat_ret_ident tpl_ret_ident (indent ++ ret_line v) = indent ++ wrap_string v.
Proof.
  intros Fi Hv.
  rewrite (subst_skip _ _ (Ascii.eqb "r")) by
    (auto using begins_ret_ident; apply blank_fails; auto).
  rewrite (subst_fire pat_ret_ident tpl_ret_ident _ _ _ eq_refl
             (match_ret_ident v Hv)).
  rewrite subst_nil by reflexivity.
  unfold wrap_string, tpl_ret_ident, T.
  cbn [expand group Nat.eqb]. repeat rewrite <- app_assoc. reflexivity.
Qed.

Ltac open_ret :=
  unfold ret_line, wrap_string, wrap_number, wrap_bool; open_block.

Section IdentReturn.
Variables indent v : text.
Hypothesis Fi : all_blank indent.
Hypothesis Fv : all_in ident_char v.

Let L := indent ++ ret_line v.
Let W := indent ++ wrap_string v.

Lemma ret_line_cast_s : occurs w_cast_s L = false.
Proof. unfold L. open_ret. no_occ. Qed.

Lemma ret_line_cast_f : occurs w_cast_f L = false.
Proof. unfold L. open_ret. no_occ. Qed.

Lemma ret_line_cast_b : occurs w_cast_b L = false.
Proof. unfold L. open_ret. no_occ. Qed.

Lemma ret_line_cast_m : occurs w_cast_m L = false.
Proof. unfold L. open_ret. no_occ. Qed.

Lemma wrap_string_ident : occurs w_ident_comma W = false.
Proof. unfold W. open_ret. no_occ. Qed.

Lemma wrap_string_int : occurs w_digit_comma W = false.
Proof. unfold W. open_ret. no_occ. Qed.

Lemma wrap_string_bool : occurs w_e_comma W = false.
Proof. unfold W. open_ret. no_occ. Qed.

Lemma wrap_string_schema : Forall safe_schema [W].
Proof. repeat constructor; unfold safe_schema, W; open_ret; no_occ. Qed.

Lemma wrap_string_index : Forall safe_index [W].
Proof.
  repeat constructor; unfold safe_index, W; open_ret;
    first [left; no_occ | right; no_occ | no_occ].
Qed.
End IdentReturn.

(** A bare identifier returned with [nil] on a line of its own is wrapped
    in the string-value constructor, whatever the identifier. *)
Lemma ret_ident_rewritten doc indent v :
  all_blank indent -> identifier v ->
  has_block (indent ++ ret_line v) doc ->
  has_block (indent ++ wrap_string v) (pipeline_text doc).
Proof.
  intros Fi Hv H. pose proof (identifier_chars v Hv) as Fv.
  unfold pipeline_text.
  apply keep_import in H; [|unfold ret_line; one_line].
  apply keep_strings in H;
    [| now apply ret_line_cast_s | now apply ret_line_cast_f
     | now apply ret_line_cast_b ].
  apply keep_object in H; [| now apply ret_line_cast_m].
  unfold returns_text.
  apply (keep_block_index (indent ++ wrap_string v) []);
    [now apply wrap_string_index|].
  apply (keep_block_schema (indent ++ wrap_string v) []);
    [now apply wrap_string_schema|].
  apply keep_ret_bool; [right; now apply wrap_string_bool|].
  apply keep_ret_int; [right; now apply wrap_string_int|].
  apply (map_block _ _ (indent ++ ret_line v)); auto.
  now apply fire_ret_ident.
Qed.

Lemma starts_with_app B : forall post, starts_with B (B ++ post) = true.
Proof.
  induction B as [|a B IH]; intros post; simpl; auto.
  now rewrite Ascii.eqb_refl, IH.
Qed.

Lemma contains_app_r B pre : forall s, contains B s = true -> contains B (pre ++ s) = true.
Proof.
  induction pre as [|a pre IH]; intros s H; simpl; auto.
  rewrite IH; auto. apply orb_true_r.
Qed.

Lemma has_block_contains B doc : has_block B doc -> contains B doc = true.
Proof.
  intros (pre & post & -> & _). apply contains_app_r.
  destruct (B ++ post) eqn:E; simpl; rewrite <- ?E, starts_with_app; reflexivity.
Qed.

Lemma has_block_whole B : has_block B B.
Proof.
  exists [], []. rewrite app_nil_r. split; [reflexivity|]. split; now left.
Qed.

(** C10.  A line [return nil, nil] (after any indentation) comes out of the
    pipeline as [return engine.NewStringValue(nil), nil]: the keyword [nil]
    is an identifier for the first return rule. *)
Theorem return_nil_wrapped doc indent :
  all_blank indent ->
  has_block (indent ++ str "return nil, nil") doc ->
  exists out, pipeline doc = Some out /\
    has_block (indent ++ str "return engine.NewStringValue(nil), nil") out.
Proof.
  intros Fi H. exists (pipeline_text doc). split; [apply pipeline_total|].
  apply (ret_ident_rewritten doc indent (str "nil")); auto.
  split; [reflexivity | repeat constructor].
Qed.

Lemma return_nil_wrapped_witness :
  exists out, pipeline (str "return nil, nil") = Some out /\
    has_block (str "return engine.NewStringValue(nil), nil") out.
Proof.
  apply (return_nil_wrapped (str "return nil, nil") []).
  - constructor.
  - apply has_block_whole.
Defined.

(** C1, as the specification states it, fails: the line [return count, nil]
    does not come out wrapped in the numeric-value constructor. *)
Lemma return_count_not_number :
  ~ exists out, pipeline (str "return count, nil") = Some out /\
      has_block (str "return engine.NewNumberValue(float64(count)), nil") out.
Proof.
  intros (out & E & H). vm_compute in E. injection E as <-.
  apply has_block_contains in H. vm_compute in H. discriminate.
Qed.

(** C1, amended.  A line [return count, nil] (after any indentation) comes
    out of the pipeline as [return engine.NewStringValue(count), nil]:
    [count] is a bare identifier, and the first return rule wraps it in the
    string-value constructor. *)
Theorem return_count_wrapped doc indent :
  all_blank indent ->
  has_block (indent ++ str "return count, nil") doc ->
  exists out, pipeline doc = Some out /\
    has_block (indent ++ str "return engine.NewStringValue(count), nil") out.
Proof.
  intros Fi H. exists (pipeline_text doc). split; [apply pipeline_total|].
  apply (ret_ident_rewritten doc indent (str "count")); auto.
  split; [reflexivity | repeat constructor].
Qed.

Lemma return_count_wrapped_witness :
  exists out, pipeline (str "return count, nil") = Some out /\
    has_block (str "return engine.NewStringValue(count), nil") out.
Proof.
  apply (return_count_wrapped (str "return count, nil") []).
  - constructor.
  - apply has_block_whole.
Defined.

Lemma string_idiom_line_example :
  exists out, pipeline (str "name, ok := args[0].(string)") = Some out /\
    has_block (join (string_block [] (str "name") (str "0"))) out.
Proof.
  apply (string_idiom_line _ [] (str "name") (str "0")).
  - constructor.
  - repeat constructor.
  - discriminate.
  - repeat constructor.
  - discriminate.
  - apply has_block_whole.
Defined.

Lemma object_idiom_line_example :
  exists out,
    pipeline (str "opts, ok := args[1].(map[string]interface{})") = Some out /\
    has_block (join (object_block [] (str "opts") (str "1"))) out.
Proof.
  apply (object_idiom_line _ [] (str "opts") (str "1")).
  - constructor.
  - repeat constructor.
  - discriminate.
  - repeat constructor.
  - discriminate.
  - apply has_block_whole.
Defined.

(** * Documents without matches *)

Definition all_patterns : list regex :=
  [ import_pattern; pat_string_ok; pat_cast "string"; pat_cast "float64";
    pat_cast "bool"; object_pattern; pat_ret_ident; pat_ret_int; pat_ret_bool;
    pat_ret_schema; pat_ret_index ].

Definition no_pattern_matches (doc : text) : bool :=
  forallb (fun r => negb (has_match r doc)) all_patterns.

(** C6.  The pipeline returns a text on every document, and a document in
    which none of its eleven patterns matches anywhere is returned as it
    is. *)
Theorem pipeline_total_and_identity :
  (forall doc, exists out, pipeline doc = Some out) /\
  (forall doc, no_pattern_matches doc = true -> pipeline doc = Some doc).
Proof.
  split.
  - intros doc. eexists. apply pipeline_total.
  - intros doc H. rewrite pipeline_total. f_equal.
    unfold no_pattern_matches, all_patterns in H. cbn [forallb] in H.
    repeat (apply andb_true_iff in H; destruct H as [?H H]).
    repeat match goal with
      | N : negb _ = true |- _ => apply negb_true_iff in N
      end.
    unfold pipeline_text, returns_text, object_text, strings_text, import_text.
    destruct (negb (contains helpers doc));
      repeat (rewrite (subst_no_match _ _ doc) by assumption); reflexivity.
Qed.

Lemma pipeline_identity_witness :
  no_pattern_matches (str "package main") = true /\
  pipeline (str "package main") = Some (str "package main").
Proof.
  split; [reflexivity|].
  apply (proj2 pipeline_total_and_identity). reflexivity.
Defined.

(** * One of each bare return *)

Definition three_returns (x n b : text) : text :=
  join [ret_line x; ret_line n; ret_line b].

(** C2.  On a document with one bare identifier, one integer literal and
    one boolean literal, one run of the pipeline wraps the identifier in the
    string-value constructor and the integer in the numeric-value
    constructor, but the boolean literal [true] comes out in the
    string-value constructor, not the boolean one: the identifier rule runs
    first and [true] is an identifier for it. *)
Lemma three_returns_once :
  pipeline (three_returns (str "x") (str "42") (str "true"))
  = Some (join [wrap_string (str "x"); wrap_number (str "42");
                wrap_string (str "true")]).
Proof. vm_compute. reflexivity. Qed.

(** ** More windows: the import rule, and the return rules by their head *)

Definition w_import : window := lit_window (str "t (").

Lemma shape_import_head mt rest c :
  Derives import_pattern mt rest [] c ->
  exists body, mt = str "import (" ++ NL :: body.
Proof.
  unfold import_pattern. intros D. take_apart. eexists. reflexivity.
Qed.

Lemma trigger_import : trigger import_pattern w_import.
Proof.
  intros mt rest c D. apply shape_import_head in D.
  destruct D as (body & ->). find_window.
Qed.

Lemma trigger_ret_schema : trigger pat_ret_schema w_schema.
Proof.
  intros mt rest c D. apply shape_ret_schema in D.
  destruct D as (X & -> & _). find_window.
Qed.

Lemma trigger_ret_index : trigger pat_ret_index w_bracket.
Proof.
  intros mt rest c D. apply shape_ret_index in D.
  destruct D as (i & I & X & -> & _).
  apply occurs_app_r. apply occurs_app_r. reflexivity.
Qed.

Lemma trigger_ret_ident_head : trigger pat_ret_ident w_return.
Proof.
  intros mt rest c D. apply shape_ret_ident in D.
  destruct D as (i & I & -> & _ & Hi & _).
  change (str "return ") with (str "retur" ++ str "n ").
  rewrite <- !app_assoc. apply occurs_app_r.
  change (occurs w_return ("n"%char :: " "%char :: i :: I ++ str ", nil") = true).
  unfold w_return. cbn [occurs opens]. rewrite Hi. reflexivity.
Qed.

Lemma digit_not_ident_start b :
  is_digit b = true -> cls_mem ident_start b = false.
Proof.
  unfold is_digit, ident_start, cls_mem, in_ranges, existsb, fst, snd, in_range.
  change (code "0") with 48. change (code "9") with 57.
  change (code "a") with 97. change (code "z") with 122.
  change (code "A") with 65. change (code "Z") with 90.
  change (code "_") with 95.
  intros H. apply andb_true_iff in H. destruct H as [H1 H2].
  apply Nat.leb_le in H1, H2.
  repeat (apply orb_false_iff; split); auto;
    apply andb_false_iff;
    first [ left; apply Nat.leb_gt; lia | right; apply Nat.leb_gt; lia ].
Qed.

Lemma opens_return_digits n rest :
  all_in CDigit n -> n <> [] ->
  opens w_return ("n"%char :: " "%char :: n ++ rest) = false.
Proof.
  intros F N. destruct n as [|n0 n]; [contradiction|]. inversion F; subst.
  unfold w_return. cbn [opens app].
  rewrite digit_not_ident_start by assumption. reflexivity.
Qed.

Lemma match_ret_int n :
  all_in CDigit n -> n <> [] ->
  match_at pat_ret_int (ret_line n) = Some ([(1, n)], []).
Proof.
  intros F N. destruct n as [|n0 n]; [contradiction|]. inversion F; subst.
  unfold match_at, pat_ret_int, ret_line. rewrite m_lits_seq, m_seq.
  apply m_grp_run; auto; reflexivity.
Qed.

Lemma fire_ret_int n :
  all_in CDigit n -> n <> [] ->
  subst pat_ret_int tpl_ret_int (ret_line n) = wrap_number n.
Proof.
  intros F N.
  rewrite (subst_fire pat_ret_int tpl_ret_int _ _ _ eq_refl (match_ret_int n F N)).
  rewrite subst_nil by reflexivity.
  unfold wrap_number, tpl_ret_int, T.
  cbn [expand group Nat.eqb]. repeat rewrite <- app_assoc. reflexivity.
Qed.

(** ** Rule groups on a text without their windows *)

Lemma import_text_same doc : occurs w_import doc = false -> import_text doc = doc.
Proof.
  intros H. unfold import_text. destruct (negb (contains helpers doc)); auto.
  now apply (subst_no_trigger _ _ w_import), H; apply trigger_import.
Qed.

Lemma strings_text_same doc :
  occurs w_cast_s doc = false -> occurs w_cast_f doc = false ->
  occurs w_cast_b doc = false -> strings_text doc = doc.
Proof.
  intros Hs Hf Hb. unfold strings_text.
  rewrite (subst_no_trigger _ _ w_cast_s doc) by auto using trigger_string_ok.
  rewrite (subst_no_trigger _ _ w_cast_s doc) by auto using trigger_cast_string.
  rewrite (subst_no_trigger _ _ w_cast_f doc) by auto using trigger_cast_float.
  now rewrite (subst_no_trigger _ _ w_cast_b doc) by auto using trigger_cast_bool.
Qed.

Lemma object_text_same doc : occurs w_cast_m doc = false -> object_text doc = doc.
Proof.
  intros H. now apply (subst_no_trigger _ _ w_cast_m), H; apply trigger_object.
Qed.

Lemma returns_text_same doc :
  occurs w_ident_comma doc = false -> occurs w_digit_comma doc = false ->
  occurs w_e_comma doc = false -> occurs w_schema doc = false ->
  occurs w_bracket doc = false -> returns_text doc = doc.
Proof.
  intros H1 H2 H3 H4 H5. unfold returns_text.
  rewrite (subst_no_trigger _ _ w_ident_comma doc)
    by auto using trigger_ret_ident_comma.
  rewrite (subst_no_trigger _ _ w_digit_comma doc)
    by auto using trigger_ret_int_comma.
  rewrite (subst_no_trigger _ _ w_e_comma doc) by auto using trigger_ret_bool_comma.
  rewrite (subst_no_trigger _ _ w_schema doc) by auto using trigger_ret_schema.
  now rewrite (subst_no_trigger _ _ w_bracket doc) by auto using trigger_ret_index.
Qed.

Ltac no_occ_digits :=
  repeat rewrite <- app_assoc;
  cbn [app str list_ascii_of_string];
  repeat first
    [ no_occ_step
    | rewrite occurs_cons_skip by (apply opens_return_digits; assumption) ];
  reflexivity.

Ltac open_three :=
  unfold three_returns, join, w_import; open_ret.

Section ThreeReturns.
Variables x n b : text.
Hypothesis Hx : identifier x.
Hypothesis Fn : all_in CDigit n.
Hypothesis Nn : n <> [].
Hypothesis Hb : b = str "true" \/ b = str "false".

Let Fx : all_in ident_char x := identifier_chars x Hx.

Let doc := three_returns x n b.
Let W := join [wrap_string x; wrap_number n; wrap_string b].

Lemma three_returns_quiet :
  occurs w_import doc = false /\ occurs w_cast_s doc = false /\
  occurs w_cast_f doc = false /\ occurs w_cast_b doc = false /\
  occurs w_cast_m doc = false.
Proof.
  unfold doc. destruct Hb as [-> | ->]; repeat split; open_three; no_occ.
Qed.

Lemma three_returns_ident :
  subst pat_ret_ident tpl_ret_ident doc
  = join [wrap_string x; ret_line n; wrap_string b].
Proof.
  unfold doc, three_returns, join.
  rewrite !subst_lines by reflexivity.
  pose proof (fire_ret_ident [] x (Forall_nil _) Hx) as E. cbn [app] in E.
  rewrite E.
  rewrite (subst_no_trigger _ _ w_return (ret_line n)).
  - cbn [app]. destruct Hb as [-> | ->]; reflexivity.
  - apply trigger_ret_ident_head.
  - open_ret. no_occ_digits.
Qed.

Lemma three_returns_int :
  subst pat_ret_int tpl_ret_int (join [wrap_string x; ret_line n; wrap_string b])
  = W.
Proof.
  unfold W, join. rewrite !subst_lines by reflexivity.
  rewrite fire_ret_int by assumption.
  rewrite (subst_no_trigger _ _ w_digit_comma (wrap_string x)).
  - destruct Hb as [-> | ->]; reflexivity.
  - apply trigger_ret_int_comma.
  - apply (wrap_string_int [] x); auto. constructor.
Qed.

Lemma wrapped_quiet :
  occurs w_import W = false /\ occurs w_cast_s W = false /\
  occurs w_cast_f W = false /\ occurs w_cast_b W = false /\
  occurs w_cast_m W = false /\ occurs w_ident_comma W = false /\
  occurs w_digit_comma W = false /\ occurs w_e_comma W = false /\
  occurs w_schema W = false /\ occurs w_bracket W = false.
Proof.
  unfold W. destruct Hb as [-> | ->]; repeat split; open_three; no_occ.
Qed.

Lemma three_returns_first_pass : pipeline_text doc = W.
Proof.
  destruct three_returns_quiet as (H1 & H2 & H3 & H4 & H5).
  destruct wrapped_quiet as (_ & _ & _ & _ & _ & _ & _ & G3 & G4 & G5).
  unfold pipeline_text.
  rewrite import_text_same, strings_text_same, object_text_same by assumption.
  unfold returns_text. rewrite three_returns_ident, three_returns_int.
  rewrite (subst_no_trigger _ _ w_e_comma W) by auto using trigger_ret_bool_comma.
  rewrite (subst_no_trigger _ _ w_schema W) by auto using trigger_ret_schema.
  now rewrite (subst_no_trigger _ _ w_bracket W) by auto using trigger_ret_index.
Qed.

Lemma three_returns_second_pass : pipeline_text W = W.
Proof.
  destruct wrapped_quiet as (H1 & H2 & H3 & H4 & H5 & G1 & G2 & G3 & G4 & G5).
  unfold pipeline_text.
  rewrite import_text_same, strings_text_same, object_text_same by assumption.
  now apply returns_text_same.
Qed.
End ThreeReturns.

(** C7.  For the document of three lines with one bare identifier [x], one
    integer literal [n] and one boolean literal [b], each returned with
    [nil]: the pipeline wraps each line once, and a second run of the
    pipeline on that output returns it unchanged, so no wrapped return is
    wrapped again. *)
Theorem second_pass_keeps_wrapped x n b :
  identifier x -> all_in CDigit n -> n <> [] ->
  b = str "true" \/ b = str "false" ->
  let wrapped := join [wrap_string x; wrap_number n; wrap_string b] in
  pipeline (three_returns x n b) = Some wrapped /\
  pipeline wrapped = Some wrapped.
Proof.
  intros Hx Fn Nn Hb wrapped. split; rewrite pipeline_total; f_equal.
  - now apply three_returns_first_pass.
  - now apply three_returns_second_pass.
Qed.

Lemma second_pass_keeps_wrapped_witness :
  let wrapped := join [wrap_string (str "x"); wrap_number (str "42");
                       wrap_string (str "true")] in
  pipeline (three_returns (str "x") (str "42") (str "true")) = Some wrapped /\
  pipeline wrapped = Some wrapped.
Proof.
  apply (second_pass_keeps_wrapped (str "x") (str "42") (str "true")).
  - split; [reflexivity | constructor].
  - repeat constructor.
  - discriminate.
  - now left.
Defined.

(** * Brackets left open at a line end

    [scan st s] reads [s] with the flag [st] saying whether a [[] has been
    seen with no []] after it; it fails when a line ends with the flag
    up, and gives the flag at the end of [s] otherwise. *)
Fixpoint scan (st : bool) (s : text) : option bool :=
  match s with
  | [] => Some st
  | c :: s' =>
      if Ascii.eqb c "[" then scan true s'
      else if Ascii.eqb c "]" then scan false s'
      else if Ascii.eqb c NL then (if st then None else scan false s')
      else scan st s'
  end.

(** No line of [s] ends inside an open bracket. *)
Definition brackets_closed (s : text) : Prop := scan false s <> None.

Definition neutral (c : ascii) : bool :=
  negb (Ascii.eqb c "[" || Ascii.eqb c "]" || Ascii.eqb c NL).

Lemma scan_app a : forall st b,
  scan st (a ++ b) = bind (scan st a) (fun st' => scan st' b).
Proof.
  induction a as [|c a IH]; intros st b; cbn [app scan bind]; auto.
  destruct (Ascii.eqb c "["); auto. destruct (Ascii.eqb c "]"); auto.
  destruct (Ascii.eqb c NL); auto. destruct st; auto.
Qed.

Lemma scan_neutral x st : Forall (fun c => neutral c = true) x -> scan st x = Some st.
Proof.
  induction 1 as [|c x Hc Hx IH]; auto.
  unfold neutral in Hc. apply negb_true_iff in Hc.
  apply orb_false_iff in Hc. destruct Hc as [Hc H3].
  apply orb_false_iff in Hc. destruct Hc as [H1 H2].
  cbn [scan]. now rewrite H1, H2, H3.
Qed.

Lemma class_neutral (P : ascii -> bool) x :
  P "["%char = false -> P "]"%char = false -> P NL = false ->
  Forall (fun c => P c = true) x -> Forall (fun c => neutral c = true) x.
Proof.
  intros H1 H2 H3 F. eapply Forall_impl; [|exact F].
  intros c Hc. unfold neutral. apply negb_true_iff.
  repeat (apply orb_false_iff; split);
    (destruct (Ascii.eqb c _) eqn:E; auto; apply Ascii.eqb_eq in E; congruence).
Qed.

Lemma scan_run (P : ascii -> bool) x st :
  P "["%char = false -> P "]"%char = false -> P NL = false ->
  Forall (fun c => P c = true) x -> scan st x = Some st.
Proof. intros. apply scan_neutral. now apply (class_neutral P). Qed.

(** A rule is [quiet] when its replacement reads like the text it
    replaces. *)
Definition quiet (r : regex) (t : template) : Prop :=
  forall mt rest c st, Derives r mt rest [] c -> scan st (expand t c) = scan st mt.

Lemma subst_scan r t :
  nullable r = false -> quiet r t ->
  forall s st, scan st (subst r t s) = scan st s.
Proof.
  intros N Q s. apply subst_ind; auto.
  - intros a s0 s' _ IH st. cbn [scan]. rewrite !IH. reflexivity.
  - intros mt rest c s' _ D IH st. rewrite !scan_app, (Q mt rest c st D).
    destruct (scan st mt); cbn [bind]; auto.
Qed.

Ltac scan_run_step :=
  first
    [ rewrite (scan_run (cls_mem CWord)) by (assumption || reflexivity)
    | rewrite (scan_run (cls_mem CDigit)) by (assumption || reflexivity)
    | rewrite (scan_run (cls_mem ident_char)) by (assumption || reflexivity) ].

Ltac scan_eval :=
  repeat rewrite scan_app;
  repeat first [ progress cbn [bind scan str list_ascii_of_string Ascii.eqb
                                 Bool.eqb andb orb negb NL TAB DQ]
               | scan_run_step ].

Lemma scan_app_some st a st' b :
  scan st a = Some st' -> scan st (a ++ b) = scan st' b.
Proof. intros H. now rewrite scan_app, H. Qed.

Ltac scan_run_solve :=
  first
    [ apply (scan_run (cls_mem CWord)); [reflexivity | reflexivity | reflexivity | assumption]
    | apply (scan_run (cls_mem CDigit)); [reflexivity | reflexivity | reflexivity | assumption]
    | apply (scan_run (cls_mem ident_char)); [reflexivity | reflexivity | reflexivity | assumption] ].

Ltac scan_piece :=
  match goal with
  | |- context [scan ?b (?a ++ ?rest)] =>
      first
        [ rewrite (scan_app_some b a b rest) by scan_run_solve
        | let v := eval vm_compute in (scan b a) in
          lazymatch v with
          | Some ?b' => rewrite (scan_app_some b a b' rest) by (vm_compute; reflexivity)
          end ]
  | |- context [scan ?b ?l] =>
      first
        [ rewrite (_ : scan b l = Some b) by scan_run_solve
        | let v := eval vm_compute in (scan b l) in
          lazymatch v with
          | Some ?b' => change (scan b l) with (Some b')
          end ]
  end.

Ltac scan_steps := repeat rewrite <- app_assoc; repeat scan_piece.

Lemma quiet_string_ok : quiet pat_string_ok tpl_string_ok.
Proof.
  intros mt rest c st D. apply shape_string_ok in D.
  destruct D as (W & K & -> & -> & FW & _ & FK & _).
  unfold tpl_string_ok, T. cbn [expand group Nat.eqb].
  destruct st; scan_steps; reflexivity.
Qed.

Ltac quiet_cast_proof :=
  let D := fresh "D" in
  intros mt rest c st D; apply shape_cast in D;
  destruct D as (K & -> & -> & FK & _);
  unfold tpl_cast, T; cbn [expand group Nat.eqb];
  destruct st; scan_steps; reflexivity.

Lemma quiet_cast_string : quiet (pat_cast "string") (tpl_cast "StringValue").
Proof. quiet_cast_proof. Qed.

Lemma quiet_cast_float : quiet (pat_cast "float64") (tpl_cast "NumberValue").
Proof. quiet_cast_proof. Qed.

Lemma quiet_cast_bool : quiet (pat_cast "bool") (tpl_cast "BoolValue").
Proof. quiet_cast_proof. Qed.

Lemma quiet_object : quiet object_pattern object_replacement.
Proof.
  intros mt rest c st D. apply shape_object in D.
  destruct D as (W & K & -> & -> & FW & _ & FK & _).
  unfold object_replacement, T. cbn [expand group Nat.eqb].
  destruct st; scan_steps; reflexivity.
Qed.

Lemma quiet_ret_ident : quiet pat_ret_ident tpl_ret_ident.
Proof.
  intros mt rest c st D. apply shape_ret_ident in D.
  destruct D as (i & I & -> & -> & Hi & FI & _).
  assert (F : all_in ident_char (i :: I)).
  { constructor; auto. now apply ident_start_char. }
  unfold tpl_ret_ident, T. cbn [expand group Nat.eqb].
  destruct st; scan_steps; reflexivity.
Qed.

Lemma quiet_ret_int : quiet pat_ret_int tpl_ret_int.
Proof.
  intros mt rest c st D. apply shape_ret_int in D.
  destruct D as (K & -> & -> & FK & _).
  unfold tpl_ret_int, T. cbn [expand group Nat.eqb].
  destruct st; scan_steps; reflexivity.
Qed.

Lemma quiet_ret_bool : quiet pat_ret_bool tpl_ret_bool.
Proof.
  intros mt rest c st D. apply shape_ret_bool in D.
  destruct D as (B & -> & -> & [-> | ->] & _);
    destruct st; reflexivity.
Qed.

(** ** A line whose earlier lines close their brackets *)

Lemma subst_split r t B pre post :
  newline_free r = true -> nullable r = false ->
  line_start pre -> line_end post ->
  subst r t (pre ++ B ++ post) = subst r t pre ++ subst r t B ++ subst r t post.
Proof.
  intros F N Hs He.
  assert (E : subst r t (B ++ post) = subst r t B ++ subst r t post).
  { destruct He as [->|(q & ->)].
    - now rewrite subst_nil, !app_nil_r.
    - rewrite subst_lines by auto. f_equal.
      change (NL :: q) with ([] ++ NL :: q). rewrite subst_lines by auto.
      now rewrite subst_nil. }
  destruct Hs as [->|(p & ->)].
  - now rewrite subst_nil.
  - rewrite <- !app_assoc. cbn [app]. rewrite !subst_lines by auto.
    rewrite subst_nil by auto. rewrite <- app_assoc. cbn [app]. now rewrite E.
Qed.

Lemma subst_line_start r t pre :
  newline_free r = true -> nullable r = false ->
  line_start pre -> line_start (subst r t pre).
Proof.
  intros F N [->|(p & ->)].
  - left. now apply subst_nil.
  - right. exists (subst r t p). rewrite subst_lines by auto.
    now rewrite subst_nil.
Qed.

Lemma subst_line_end r t post :
  newline_free r = true -> nullable r = false ->
  line_end post -> line_end (subst r t post).
Proof.
  intros F N [->|(q & ->)].
  - left. now apply subst_nil.
  - right. exists (subst r t q).
    change (NL :: q) with ([] ++ NL :: q). rewrite subst_lines by auto.
    now rewrite subst_nil.
Qed.

Definition guarded_block (B doc : text) : Prop :=
  exists pre post, doc = pre ++ B ++ post /\ line_start pre /\ line_end post /\
    brackets_closed pre.

Lemma keep_guarded r t w B doc :
  newline_free r = true -> nullable r = false ->
  trigger r w -> occurs w B = false -> quiet r t ->
  guarded_block B doc -> guarded_block B (subst r t doc).
Proof.
  intros F N T H Q (pre & post & -> & Hs & He & Hc).
  exists (subst r t pre), (subst r t post).
  rewrite subst_split by auto. rewrite (subst_no_trigger r t w B) by auto.
  split; [reflexivity|].
  split; [now apply subst_line_start|].
  split; [now apply subst_line_end|].
  unfold brackets_closed. now rewrite subst_scan.
Qed.

Lemma scan_nl st s : scan st (NL :: s) = if st then None else scan false s.
Proof. reflexivity. Qed.

Lemma scan_helper_line s : scan false (helper_line ++ s) = scan false s.
Proof. apply scan_app_some. vm_compute. reflexivity. Qed.

Lemma Ins_scan s s' : Ins s s' -> forall st, scan st s' = scan st s.
Proof.
  induction 1 as [|a s s' H IH|s s' H IH]; intros st.
  - reflexivity.
  - cbn [scan]. rewrite !IH. reflexivity.
  - rewrite !scan_nl. destruct st; [reflexivity|].
    rewrite scan_helper_line. apply IH.
Qed.

Lemma keep_guarded_import B doc :
  ~ In NL B -> guarded_block B doc -> guarded_block B (import_text doc).
Proof.
  intros NB H. unfold import_text.
  destruct (negb (contains helpers doc)); auto.
  destruct H as (pre & post & -> & Hs & He & Hc).
  pose proof (subst_Ins (pre ++ B ++ post)) as H.
  apply Ins_app in H. destruct H as (pre' & z & -> & Hp & Hz).
  apply Ins_app in Hz. destruct Hz as (B' & post' & -> & HB & Hq).
  apply Ins_same in HB; auto. subst B'.
  exists pre', post'. split; [reflexivity|].
  split; [now apply (Ins_line_start pre)|].
  split; [now apply (Ins_line_end post)|].
  unfold brackets_closed. now rewrite (Ins_scan pre pre').
Qed.

Lemma schema_one_line u v : rules_schema u v -> ~ In NL u.
Proof. intros [-> _]. simpl. intuition discriminate. Qed.

Lemma schema_safe_rule u v s : rules_schema u v -> safe_schema (u ++ s) -> False.
Proof.
  intros [-> _] H. unfold safe_schema in H.
  rewrite occurs_app_l in H; [discriminate|reflexivity].
Qed.

Lemma Rep_schema_scan s s' :
  Rep rules_schema s s' -> forall st, scan st s' = scan st s.
Proof.
  induction 1 as [|a s s' H IH|u v s s' [-> ->] H IH]; intros st.
  - reflexivity.
  - cbn [scan]. rewrite !IH. reflexivity.
  - rewrite (scan_app_some st _ st), (scan_app_some st _ st); auto;
      destruct st; vm_compute; reflexivity.
Qed.

Lemma keep_guarded_schema l doc :
  safe_schema l -> guarded_block l doc ->
  guarded_block l (subst pat_ret_schema tpl_ret_schema doc).
Proof.
  intros S (pre & post & -> & Hs & He & Hc).
  pose proof (subst_schema_Rep (pre ++ l ++ post)) as H.
  assert (K : forall z, Rep rules_schema (l ++ post) z ->
            exists post', z = l ++ post' /\ line_end post').
  { intros z Hz.
    destruct (Rep_line_end rules_schema schema_one_line _ _ _ He Hz)
      as (B' & post' & -> & He' & HB).
    apply (Rep_same rules_schema safe_schema) in HB; auto.
    - subst B'. now exists post'.
    - intros a s. apply occurs_tail.
    - apply schema_safe_rule. }
  destruct Hs as [->|(p & ->)].
  - remember (subst pat_ret_schema tpl_ret_schema ([] ++ l ++ post))
      as out eqn:Eo. clear Eo.
    destruct (K _ H) as (post' & -> & He').
    exists [], post'. repeat split; auto. now left.
  - remember (subst pat_ret_schema tpl_ret_schema ((p ++ [NL]) ++ l ++ post))
      as out eqn:Eo. clear Eo.
    rewrite <- app_assoc in H. cbn [app] in H.
    destruct (Rep_split rules_schema schema_one_line _ _ H _ _ eq_refl)
      as (x' & y' & -> & Hx & Hy).
    destruct (K _ Hy) as (post' & -> & He').
    exists (x' ++ [NL]), post'. rewrite <- app_assoc. cbn [app].
    split; [reflexivity|]. split; [right; now exists x'|]. split; auto.
    unfold brackets_closed in *. rewrite scan_app in *.
    now rewrite (Rep_schema_scan p x' Hx).
Qed.

(** ** The index rule below closed brackets *)

Lemma match_ret_index i I X r :
  cls_mem ident_start i = true -> all_in ident_char I ->
  all_in not_rbracket X -> X <> [] ->
  match_at pat_ret_index
    (str "return " ++ (i :: I) ++ str "[" ++ X ++ str "], nil" ++ r)
  = Some ([(2, X); (1, i :: I)], r).
Proof.
  intros Hi FI FX NX. destruct X as [|x0 X]; [contradiction|].
  inversion FX; subst.
  unfold match_at, pat_ret_index. rewrite m_lits_seq, m_seq.
  apply m_grp_run; [assumption | assumption | reflexivity |].
  rewrite m_lits_seq, m_seq.
  apply m_grp_run; [assumption | assumption | reflexivity |].
  now rewrite m_lits.
Qed.

Lemma scan_open_fail x z :
  all_in not_rbracket x -> scan true (x ++ NL :: z) = None.
Proof.
  induction 1 as [|c x Hc Hx IH]; [reflexivity|].
  cbn [app scan]. destruct (Ascii.eqb c "[") eqn:E1; auto.
  destruct (Ascii.eqb c "]") eqn:E2.
  - apply Ascii.eqb_eq in E2. subst c. discriminate.
  - destruct (Ascii.eqb c NL); auto.
Qed.

Lemma index_open_scan i I st :
  cls_mem ident_start i = true -> all_in ident_char I ->
  scan st (str "return " ++ (i :: I) ++ str "[") = Some true.
Proof.
  intros Hi FI.
  assert (F : all_in ident_char (i :: I)).
  { constructor; auto. now apply ident_start_char. }
  rewrite (scan_app_some st _ st) by (destruct st; vm_compute; reflexivity).
  rewrite (scan_app_some st _ st)
    by (apply (scan_run (cls_mem ident_char)); auto).
  reflexivity.
Qed.

Lemma index_open_one_line i I :
  cls_mem ident_start i = true -> all_in ident_char I ->
  ~ In NL (str "return " ++ (i :: I) ++ str "[").
Proof.
  intros Hi FI.
  assert (F : all_in ident_char (i :: I)).
  { constructor; auto. now apply ident_start_char. }
  one_line.
Qed.

(** A match of the index rule that begins on a line above, all of whose
    brackets are closed on their line, ends above as well. *)
Lemma index_no_cross s1 s2 rest c r' :
  brackets_closed ((s1 ++ s2) ++ [NL]) ->
  match_at pat_ret_index (s2 ++ NL :: rest) = Some (c, r') ->
  exists r'', r' = r'' ++ NL :: rest /\ length r'' < length s2.
Proof.
  intros Hc E. apply match_at_sound in E. destruct E as (mt & E & D).
  pose proof (Derives_nonempty _ _ _ _ _ D eq_refl) as NE.
  apply shape_ret_index in D.
  destruct D as (i & I & X & Emt & _ & Hi & FI & FX & NX).
  apply app_eq_app in E. destruct E as (l & [[E1 E2] | [E1 E2]]).
  - exists l. split; auto. rewrite E1, length_app.
    destruct mt; [contradiction|]. simpl. lia.
  - destruct l as [|b l].
    + exists []. rewrite app_nil_r in E1. cbn [app] in E2.
      rewrite <- E2, <- E1. split; auto.
      destruct mt; [contradiction|]. simpl. lia.
    + exfalso. cbn [app] in E2. injection E2 as <- _.
      remember (str "return " ++ (i :: I) ++ str "[") as u eqn:Eu.
      assert (Su : forall st, scan st u = Some true).
      { intros st. rewrite Eu. now apply index_open_scan. }
      assert (Nu : ~ In NL u).
      { rewrite Eu. now apply index_open_one_line. }
      assert (Em : mt = u ++ X ++ str "], nil").
      { rewrite Emt, Eu. now rewrite <- !app_assoc. }
      rewrite Em in E1. apply app_split_nl in E1; auto.
      destruct E1 as (x1 & Es2 & E3).
      apply app_eq_app in E3. destruct E3 as (l2 & [[E4 E5] | [E4 E5]]).
      * assert (F1 : all_in not_rbracket x1).
        { rewrite E4 in FX. apply Forall_app in FX. tauto. }
        apply Hc. rewrite Es2.
        replace ((s1 ++ u ++ x1) ++ [NL]) with (s1 ++ u ++ x1 ++ [NL])
          by (now rewrite <- !app_assoc).
        rewrite scan_app. destruct (scan false s1); [|reflexivity]. cbn [bind].
        rewrite (scan_app_some _ _ true) by apply Su.
        now apply scan_open_fail.
      * assert (N : In NL (str "], nil")).
        { rewrite E5. apply in_or_app. right. now left. }
        simpl in N. intuition discriminate.
Qed.

Lemma index_before_line rest : forall n s1 s2,
  length s2 <= n -> brackets_closed ((s1 ++ s2) ++ [NL]) ->
  exists p', subst pat_ret_index tpl_ret_index (s2 ++ NL :: rest)
             = p' ++ NL :: subst pat_ret_index tpl_ret_index rest.
Proof.
  assert (Z : subst pat_ret_index tpl_ret_index (NL :: rest)
              = NL :: subst pat_ret_index tpl_ret_index rest).
  { apply subst_copy.
    apply (begins_no_match _ (Ascii.eqb "r")); auto using begins_ret_index. }
  induction n as [|n IH]; intros s1 s2 L Hc.
  - destruct s2; [|simpl in L; lia]. now exists [].
  - destruct s2 as [|a s2]; [now exists []|].
    destruct (match_at pat_ret_index ((a :: s2) ++ NL :: rest))
      as [[c r']|] eqn:E.
    + destruct (index_no_cross s1 (a :: s2) rest c r' Hc E) as (r'' & -> & Lr).
      rewrite (subst_fire pat_ret_index tpl_ret_index _ c (r'' ++ NL :: rest)
                 eq_refl E).
      pose proof E as E'. apply match_at_sound in E'.
      destruct E' as (mt & E' & _).
      assert (Es : a :: s2 = mt ++ r'').
      { rewrite app_assoc in E'. now apply app_inv_tail in E'. }
      destruct (IH (s1 ++ mt) r'') as (p' & Ep).
      * simpl in *. lia.
      * replace ((s1 ++ mt) ++ r'') with (s1 ++ a :: s2)
          by (rewrite Es; now rewrite app_assoc).
        exact Hc.
      * rewrite Ep. exists (expand tpl_ret_index c ++ p').
        now rewrite <- app_assoc.
    + cbn [app] in *. rewrite (subst_copy _ _ _ _ E).
      destruct (IH (s1 ++ [a]) s2) as (p' & Ep).
      * simpl in L. lia.
      * replace ((s1 ++ [a]) ++ s2) with (s1 ++ a :: s2)
          by (now rewrite <- app_assoc).
        exact Hc.
      * rewrite Ep. now exists (a :: p').
Qed.

(** * The indexed return *)

Definition index_line : text := str "return result[idx], nil".

Definition array_block (indent : text) : list text :=
  [ indent ++ str "// TODO: Convert array/slice return";
    [TAB; TAB] ++
    str "return engine.NewArrayValue(helpers.ConvertSliceToScriptValue(result[idx])), nil" ].

Lemma fire_index_line indent post :
  all_blank indent -> line_end post ->
  exists post',
    subst pat_ret_index tpl_ret_index ((indent ++ index_line) ++ post)
    = join (array_block indent) ++ post' /\ line_end post'.
Proof.
  intros Fi He. exists (subst pat_ret_index tpl_ret_index post). split.
  - rewrite <- app_assoc.
    rewrite (subst_skip _ _ (Ascii.eqb "r")) by
      (auto using begins_ret_index; apply blank_fails; auto).
    assert (E : match_at pat_ret_index (index_line ++ post)
                = Some ([(2, str "idx"); (1, str "result")], post)).
    { apply (match_ret_index "r"%char (str "esult") (str "idx") post).
      - reflexivity.
      - repeat constructor.
      - repeat constructor.
      - discriminate. }
    rewrite (subst_fire pat_ret_index tpl_ret_index _ _ _ eq_refl E).
    unfold array_block, join, tpl_ret_index, T.
    cbn [expand group Nat.eqb]. repeat rewrite <- app_assoc. reflexivity.
  - destruct He as [->|(q & ->)].
    + left. now apply subst_nil.
    + right. exists (subst pat_ret_index tpl_ret_index q). apply subst_copy.
      apply (begins_no_match _ (Ascii.eqb "r")); auto using begins_ret_index.
Qed.

Lemma index_line_fires indent doc :
  all_blank indent -> guarded_block (indent ++ index_line) doc ->
  has_block (join (array_block indent)) (subst pat_ret_index tpl_ret_index doc).
Proof.
  intros Fi (pre & post & -> & Hs & He & Hc).
  destruct (fire_index_line indent post Fi He) as (post' & E & He').
  destruct Hs as [->|(p & ->)].
  - cbn [app]. rewrite E. exists [], post'.
    split; [reflexivity|]. split; auto. now left.
  - destruct (index_before_line ((indent ++ index_line) ++ post)
                (length p) [] p (le_n _) Hc) as (p' & Ep).
    replace ((p ++ [NL]) ++ (indent ++ index_line) ++ post)
      with (p ++ NL :: (indent ++ index_line) ++ post)
      by (now rewrite <- !app_assoc).
    rewrite Ep, E. exists (p' ++ [NL]), post'.
    split; [now rewrite <- !app_assoc|]. split; auto. right. now exists p'.
Qed.

Ltac open_index :=
  unfold index_line; open_block.

Section IndexLine.
Variable indent : text.
Hypothesis Fi : all_blank indent.

Let L := indent ++ index_line.

Lemma index_line_quiet :
  occurs w_cast_s L = false /\ occurs w_cast_f L = false /\
  occurs w_cast_b L = false /\ occurs w_cast_m L = false /\
  occurs w_ident_comma L = false /\ occurs w_digit_comma L = false /\
  occurs w_e_comma L = false /\ occurs w_schema L = false.
Proof. unfold L. repeat split; open_index; no_occ. Qed.
End IndexLine.

(** C8, as the specification states it, fails: below a line that leaves a
    bracket open, the line [return result[idx], nil] is taken into the match
    that began above it and does not come out as the array-value return. *)
Lemma index_return_swallowed :
  ~ exists out,
      pipeline (str "return a[" ++ NL :: index_line) = Some out /\
      has_block (join (array_block [])) out.
Proof.
  intros (out & E & H). vm_compute in E. injection E as <-.
  apply has_block_contains in H. vm_compute in H. discriminate.
Qed.

(** C8, amended.  A document with the line [return result[idx], nil] (after
    any indentation), in which no earlier line ends with a [[] still open,
    comes out of the pipeline with, in place of that line, the review
    comment [// TODO: Convert array/slice return] and below it the return of
    [engine.NewArrayValue(helpers.ConvertSliceToScriptValue(result[idx]))]. *)
Theorem index_return_rewritten doc indent :
  all_blank indent ->
  guarded_block (indent ++ index_line) doc ->
  exists out, pipeline doc = Some out /\
    has_block (join (array_block indent)) out.
Proof.
  intros Fi H. exists (pipeline_text doc). split; [apply pipeline_total|].
  destruct (index_line_quiet indent Fi)
    as (Hs & Hf & Hb & Hm & H1 & H2 & H3 & H4).
  unfold pipeline_text, returns_text, object_text, strings_text.
  apply index_line_fires; auto.
  apply keep_guarded_schema; auto.
  apply (keep_guarded _ _ w_e_comma);
    auto using trigger_ret_bool_comma, quiet_ret_bool.
  apply (keep_guarded _ _ w_digit_comma);
    auto using trigger_ret_int_comma, quiet_ret_int.
  apply (keep_guarded _ _ w_ident_comma);
    auto using trigger_ret_ident_comma, quiet_ret_ident.
  apply (keep_guarded _ _ w_cast_m); auto using trigger_object, quiet_object.
  apply (keep_guarded _ _ w_cast_b);
    auto using trigger_cast_bool, quiet_cast_bool.
  apply (keep_guarded _ _ w_cast_f);
    auto using trigger_cast_float, quiet_cast_float.
  apply (keep_guarded _ _ w_cast_s);
    auto using trigger_cast_string, quiet_cast_string.
  apply (keep_guarded _ _ w_cast_s);
    auto using trigger_string_ok, quiet_string_ok.
  apply keep_guarded_import; auto.
  unfold index_line. one_line.
Qed.

Lemma index_return_rewritten_witness :
  exists out,
    pipeline (str "x := m[0]" ++ NL :: [TAB] ++ index_line) = Some out /\
    has_block (join (array_block [TAB])) out.
Proof.
  apply (index_return_rewritten _ [TAB]).
  - repeat constructor.
  - exists (str "x := m[0]" ++ [NL]), [].
    split; [reflexivity|]. split; [right; now exists (str "x := m[0]")|].
    split; [now left|]. vm_compute. discriminate.
Defined.

(** * The helper import *)

Definition import_open : text := str "import (" ++ [NL].

Definition w_import_open : window := lit_window (str "import (").

Lemma trigger_import_open : trigger import_pattern w_import_open.
Proof.
  intros mt rest c D. apply shape_import_head in D.
  destruct D as (body & ->). find_window.
Qed.

Lemma begins_import : begins import_pattern (Ascii.eqb "i").
Proof.
  intros mt rest c D. apply shape_import_head in D.
  destruct D as (body & ->). eexists. eexists. split; reflexivity.
Qed.

(** Above the block: no match of the import pattern begins in lines that do
    not hold [import (]. *)
Lemma import_skip t p : occurs w_import_open p = false ->
  forall rest, subst import_pattern t (p ++ NL :: rest)
               = p ++ NL :: subst import_pattern t rest.
Proof.
  induction p as [|a p IH]; intros H rest.
  - apply subst_copy.
    apply (begins_no_match _ (Ascii.eqb "i")); auto using begins_import.
  - cbn [app]. rewrite subst_copy.
    + f_equal. apply IH. now apply occurs_tail in H.
    + destruct (match_at import_pattern (a :: p ++ NL :: rest))
        as [[c r']|] eqn:E; auto.
      exfalso. apply match_at_sound in E. destruct E as (mt & E & D).
      apply shape_import_head in D. destruct D as (body & ->).
      rewrite <- app_assoc in E. change (a :: p ++ NL :: rest)
        with ((a :: p) ++ NL :: rest) in E. symmetry in E.
      apply app_split_nl in E; [|simpl; intuition discriminate].
      destruct E as (x1 & E & _). rewrite E in H.
      rewrite occurs_app_l in H; [discriminate|reflexivity].
Qed.

Lemma m_star_cls_backoff cl x z y c k r :
  all_in cl x -> cls_mem cl z = true -> stops cl y ->
  k y c = None -> k (z :: y) c = Some r ->
  m (Star (Cls cl)) (x ++ z :: y) c k = Some r.
Proof.
  intros Hx Hz Hy K0 K1. induction Hx as [|b x Hb Hx IH]; cbn [app].
  - rewrite m_star_cls_cons by auto. rewrite m_star_cls_stop by auto.
    now rewrite K0.
  - rewrite m_star_cls_cons by auto. now rewrite IH.
Qed.

Lemma m_lit_cons a s c k : m (Lit a) (a :: s) c k = k s c.
Proof. cbn [m]. now rewrite Ascii.eqb_refl. Qed.

Definition import_lines : regex := Star (Star (Cls not_rparen) ;; Lit NL).

Lemma m_import_lines_none rest c k :
  m import_lines (")"%char :: rest) c k = k (")"%char :: rest) c.
Proof.
  unfold import_lines. rewrite m_star_unfold, m_seq.
  rewrite m_star_cls_stop by reflexivity. reflexivity.
Qed.

(** The lines of the block: the repetition takes all of them, up to the
    line with the closing parenthesis. *)
Lemma m_import_lines body rest c k r :
  all_in not_rparen body -> (body = [] \/ exists b, body = b ++ [NL]) ->
  k (")"%char :: rest) c = Some r ->
  m import_lines (body ++ ")"%char :: rest) c k = Some r.
Proof.
  intros F [->|(b & ->)] K.
  - cbn [app]. now rewrite m_import_lines_none.
  - unfold import_lines. rewrite m_star_unfold, m_seq.
    apply Forall_app in F. destruct F as [Fb Fn].
    rewrite <- app_assoc. cbn [app].
    rewrite (m_star_cls_backoff not_rparen b NL (")"%char :: rest) c _ r).
    + reflexivity.
    + exact Fb.
    + reflexivity.
    + reflexivity.
    + reflexivity.
    + rewrite m_lit_cons.
      replace (length (")"%char :: rest) <? length (b ++ NL :: ")"%char :: rest))
        with true.
      2:{ symmetry. apply Nat.ltb_lt. rewrite length_app. simpl. lia. }
      fold import_lines. rewrite m_import_lines_none. exact K.
Qed.

Lemma m_grp n a s c k :
  m (Grp n a) s c k = m a s c (fun s' c' => k s' ((n, consumed s s') :: c')).
Proof. reflexivity. Qed.

Lemma m_import_block body post c k r :
  all_in not_rparen body -> (body = [] \/ exists b, body = b ++ [NL]) ->
  k (")"%char :: post) c = Some r ->
  m (lits (str "import (") ;; Lit NL ;; import_lines)
    ((import_open ++ body) ++ ")"%char :: post) c k = Some r.
Proof.
  intros F E K.
  replace ((import_open ++ body) ++ ")"%char :: post)
    with (str "import (" ++ NL :: body ++ ")"%char :: post)
    by (unfold import_open; now rewrite <- !app_assoc).
  rewrite m_lits_seq, m_seq, m_lit_cons. now apply m_import_lines.
Qed.

Lemma match_import_block body post :
  all_in not_rparen body -> (body = [] \/ exists b, body = b ++ [NL]) ->
  match_at import_pattern ((import_open ++ body) ++ ")"%char :: post)
  = Some ([(1, import_open ++ body)], ")"%char :: post).
Proof.
  intros F E. unfold match_at, import_pattern. rewrite m_grp.
  apply m_import_block; auto. now rewrite consumed_app.
Qed.

Lemma occurs_import_close post :
  occurs w_import_open post = false ->
  occurs w_import_open (")"%char :: post) = false.
Proof. intros H. rewrite occurs_cons_skip; auto. Qed.

(** The rule on a document with one import block. *)
Lemma import_block_rewritten pre body post :
  line_start pre -> occurs w_import_open pre = false ->
  all_in not_rparen body -> (body = [] \/ exists b, body = b ++ [NL]) ->
  occurs w_import_open post = false ->
  subst import_pattern import_replacement
    (pre ++ (import_open ++ body) ++ ")"%char :: post)
  = pre ++ (import_open ++ body) ++ helper_line ++ ")"%char :: post.
Proof.
  intros Hs Hp F E Hq.
  assert (Z : subst import_pattern import_replacement
                ((import_open ++ body) ++ ")"%char :: post)
              = (import_open ++ body) ++ helper_line ++ ")"%char :: post).
  { rewrite (subst_fire import_pattern import_replacement _ _ _ eq_refl
               (match_import_block body post F E)).
    rewrite (subst_no_trigger _ _ w_import_open (")"%char :: post))
      by auto using trigger_import_open, occurs_import_close.
    cbn [import_replacement expand group Nat.eqb].
    now rewrite app_nil_r, <- !app_assoc. }
  destruct Hs as [->|(p & ->)].
  - exact Z.
  - assert (Hp' : occurs w_import_open p = false).
    { destruct (occurs w_import_open p) eqn:O; auto.
      now rewrite (occurs_app_l _ p [NL] O) in Hp. }
    rewrite <- !app_assoc. cbn [app]. rewrite import_skip by auto.
    rewrite <- !app_assoc in Z. now rewrite Z.
Qed.

Definition fmt_import : text := [TAB; DQ] ++ str "fmt" ++ [DQ; NL].

(** C3, as the specification states it, fails: in an import block that
    already lists a package, the helper line is not put right after the
    opening [import (]. *)
Lemma import_not_after_opening :
  let doc := import_open ++ fmt_import ++ str ")" ++ [NL] in
  contains helpers doc = false /\
  ~ exists out, pipeline doc = Some out /\
      contains (import_open ++ helper_line) out = true.
Proof.
  split; [reflexivity|].
  intros (out & E & H). vm_compute in E. injection E as <-.
  vm_compute in H. discriminate.
Qed.

(** The import rule by itself.  When [helpers] occurs anywhere in the
    document, the import
    rule returns the document as it is.  When it occurs nowhere and the
    document has one import block -- [import (] at the start of a line, then
    lines without a closing parenthesis, then [)] -- and no other
    [import (], the rule adds exactly one helper import line, at the end of
    the block: after the last line of the block and before the closing
    parenthesis (right after the opening only when the block is empty). *)
Lemma helper_import_rule doc :
  (contains helpers doc = true -> add_helper_import doc = Some doc) /\
  (contains helpers doc = false ->
   forall pre body post,
     doc = pre ++ (import_open ++ body) ++ ")"%char :: post ->
     line_start pre -> occurs w_import_open pre = false ->
     all_in not_rparen body -> (body = [] \/ exists b, body = b ++ [NL]) ->
     occurs w_import_open post = false ->
     add_helper_import doc
     = Some (pre ++ (import_open ++ body) ++ helper_line ++ ")"%char :: post)).
Proof.
  split.
  - intros H. unfold add_helper_import. now rewrite H.
  - intros H pre body post -> Hs Hp F E Hq.
    unfold add_helper_import. rewrite H. cbn [negb]. unfold re_sub.
    change (template_ok import_pattern import_replacement) with true. cbv iota.
    f_equal. now apply import_block_rewritten.
Qed.

Lemma helper_import_rule_example :
  let pre := str "package main" ++ [NL; NL] in
  add_helper_import (pre ++ (import_open ++ fmt_import) ++ str ")" ++ [NL])
  = Some (pre ++ (import_open ++ fmt_import) ++ helper_line ++ str ")" ++ [NL]).
Proof.
  intros pre.
  apply (proj2 (helper_import_rule
                  (pre ++ (import_open ++ fmt_import) ++ str ")" ++ [NL]))
           eq_refl pre fmt_import [NL]).
  - reflexivity.
  - right. now exists (str "package main" ++ [NL]).
  - reflexivity.
  - repeat constructor.
  - right. now exists ([TAB; DQ] ++ str "fmt" ++ [DQ]).
  - reflexivity.
Defined.

(** * [main]: the files

    A file system maps a path to the bytes of the file.  Both
    [open(file_path, 'r')] and [open(..., 'w')] are in text mode with the
    default encoding and the default [newline=None].  The encoding is taken
    to be UTF-8, the default of Python on Linux and macOS and in its UTF-8
    mode.  On reading, the bytes are decoded ([decode_utf8]; a sequence
    that is not UTF-8 raises [UnicodeDecodeError]) and the line ends CR LF
    and CR become the newline character ([read_text]); on writing, each
    newline character becomes the line separator of the platform
    ([write_text]) and the text is encoded ([encode_utf8]).  A write can
    fail ([fate]).  The [print] calls are left out. *)

Definition CR : ascii := "013".

Definition filesystem := list (string * text).

Fixpoint lookup (fs : filesystem) (p : string) : option text :=
  match fs with
  | [] => None
  | (q, b) :: fs' => if String.eqb q p then Some b else lookup fs' p
  end.

Definition store (fs : filesystem) (p : string) (b : text) : filesystem :=
  (p, b) :: fs.

(** What decoding the bytes of a file gives. *)
Inductive reading : Type :=
| Decoded (t : text)
| Undecodable   (* the bytes are not UTF-8: [UnicodeDecodeError] *)
| Beyond.       (* valid UTF-8 with a character above U+00FF, which the
                   texts of this development do not have *)

(** A continuation byte, 0x80..0xBF. *)
Definition cont (d : ascii) : bool := (128 <=? code d) && (code d <? 192).

(** The second byte of a sequence of three and of four: no overlong forms,
    no surrogates, nothing above U+10FFFF. *)
Definition second3 (n : nat) (d : ascii) : bool :=
  if n =? 224 then (160 <=? code d) && (code d <? 192)
  else if n =? 237 then (128 <=? code d) && (code d <? 160)
  else cont d.

Definition second4 (n : nat) (d : ascii) : bool :=
  if n =? 240 then (144 <=? code d) && (code d <? 192)
  else if n =? 244 then (128 <=? code d) && (code d <? 144)
  else cont d.

Definition push_char (c : ascii) (r : reading) : reading :=
  match r with
  | Decoded t => Decoded (c :: t)
  | _ => r
  end.

Definition push_code (cp : nat) (r : reading) : reading :=
  match r with
  | Decoded t => if cp <? 256 then Decoded (ascii_of_nat cp :: t) else Beyond
  | _ => r
  end.

Definition beyond (r : reading) : reading :=
  match r with
  | Undecodable => Undecodable
  | _ => Beyond
  end.

(** The strict UTF-8 decoder: one error anywhere makes the whole read
    fail. *)
Fixpoint decode_utf8 (b : text) : reading :=
  match b with
  | [] => Decoded []
  | c :: b1 =>
      let n := code c in
      if n <? 128 then push_char c (decode_utf8 b1)
      else if n <? 194 then Undecodable
      else if n <? 224 then
        match b1 with
        | d :: b2 =>
            if cont d
            then push_code ((n - 192) * 64 + (code d - 128)) (decode_utf8 b2)
            else Undecodable
        | [] => Undecodable
        end
      else if n <? 240 then
        match b1 with
        | d :: e :: b3 =>
            if second3 n d && cont e then beyond (decode_utf8 b3)
            else Undecodable
        | _ => Undecodable
        end
      else if n <? 245 then
        match b1 with
        | d :: e :: f :: b4 =>
            if second4 n d && cont e && cont f then beyond (decode_utf8 b4)
            else Undecodable
        | _ => Undecodable
        end
      else Undecodable
  end.

Definition encode_utf8 (t : text) : text :=
  flat_map (fun c =>
              if code c <? 128 then [c]
              else [ascii_of_nat (192 + code c / 64);
                    ascii_of_nat (128 + code c mod 64)]) t.

(** Universal newlines on reading. *)
Fixpoint read_text (b : text) : text :=
  match b with
  | [] => []
  | c :: b' =>
      if Ascii.eqb c CR then
        NL :: match b' with
              | d :: b'' => if Ascii.eqb d NL then read_text b'' else read_text b'
              | [] => []
              end
      else c :: read_text b'
  end.

Definition write_text (linesep : text) (t : text) : text :=
  flat_map (fun c => if Ascii.eqb c NL then linesep else [c]) t.

(** What becomes of [open(path, 'w')] and the write that follows. *)
Inductive fate : Type :=
| Refused         (* the open raises; the path is left as it was *)
| Cut (n : nat)   (* the open empties the file, the write raises after
                     [n] bytes *)
| Stored.         (* the whole data is written *)

Inductive event : Type :=
| Write (p : string) (data : text).

Inductive exit : Type :=
| Exit (code : nat)  (* [sys.exit(code)], or 0 at the end of [main] *)
| Raised.            (* an exception that [main] does not catch *)

(** [main linesep fates argv fs]: how the process ends, the file system it
    leaves, and the writes in the order they happen; [fates] tells what
    becomes of a write to each path.  The result is [None] for a file with
    a character above U+00FF, where this development has no text to run
    the pipeline on. *)
Definition main (linesep : text) (fates : string -> fate)
    (argv : list string) (fs : filesystem)
  : option (exit * filesystem * list event) :=
  match argv with
  | [_; file_path] =>
      match lookup fs file_path with
      | None => Some (Raised, fs, [])
      | Some bytes =>
          match decode_utf8 bytes with
          | Undecodable => Some (Raised, fs, [])
          | Beyond => None
          | Decoded raw =>
              let content := read_text raw in
              let backup := String.append file_path ".py_backup" in
              let saved := encode_utf8 (write_text linesep content) in
              match fates backup with
              | Refused => Some (Raised, fs, [])
              | Cut n =>
                  Some (Raised, store fs backup (firstn n saved),
                        [Write backup (firstn n saved)])
              | Stored =>
                  let fs1 := store fs backup saved in
                  match pipeline content with
                  | None => Some (Raised, fs1, [Write backup saved])
                  | Some fixed =>
                      let out := encode_utf8 (write_text linesep fixed) in
                      match fates file_path with
                      | Refused => Some (Raised, fs1, [Write backup saved])
                      | Cut n =>
                          Some (Raised, store fs1 file_path (firstn n out),
                                [Write backup saved;
                                 Write file_path (firstn n out)])
                      | Stored =>
                          Some (Exit 0, store fs1 file_path out,
                                [Write backup saved; Write file_path out])
                      end
                  end
              end
          end
      end
  | _ => Some (Exit 1, fs, [])
  end.


(** C9.  The backup is written before the file is overwritten, at the path
    with [.py_backup] appended; but it is not always a byte-identical copy:
    for a file with a CR LF line end, on a platform whose line separator is
    the newline character, the backup holds a bare newline in its place. *)
Lemma backup_loses_carriage_return :
  let original := str "x" ++ [CR; NL] ++ str "y" in
  let fs := [("schema.go", original)] in
  exists fs' out,
    main [NL] (fun _ => Stored) ["fix_schema_conversions.py"; "schema.go"] fs
    = Some (Exit 0, fs',
            [ Write "schema.go.py_backup" (str "x" ++ [NL] ++ str "y");
              Write "schema.go" out ]) /\
    lookup fs' "schema.go.py_backup" <> Some original.
Proof.
  eexists. eexists. split.
  - vm_compute. reflexivity.
  - vm_compute. discriminate.
Qed.

(** * More on [main] *)















(** * More on the rules *)

(** X5.  The first return rule takes every identifier: a line
    [return v, nil] (after any indentation) with [v] an identifier comes out
    of the pipeline as [return engine.NewStringValue(v), nil], in any
    document. *)
Theorem bare_identifier_wrapped doc indent v :
  all_blank indent -> identifier v ->
  has_block (indent ++ ret_line v) doc ->
  exists out, pipeline doc = Some out /\
    has_block (indent ++ wrap_string v) out.
Proof.
  intros Fi Hv H. exists (pipeline_text doc). split; [apply pipeline_total|].
  now apply ret_ident_rewritten.
Qed.

Lemma bare_identifier_wrapped_witness :
  exists out, pipeline ([TAB] ++ ret_line (str "err")) = Some out /\
    has_block ([TAB] ++ wrap_string (str "err")) out.
Proof.
  apply (bare_identifier_wrapped _ [TAB] (str "err")).
  - repeat constructor.
  - split; [reflexivity | repeat constructor].
  - apply has_block_whole.
Defined.

Lemma fire_ret_int_indented indent n :
  all_blank indent -> all_in CDigit n -> n <> [] ->
  subst pat_ret_int tpl_ret_int (indent ++ ret_line n) = indent ++ wrap_number n.
Proof.
  intros Fi Fn Nn.
  rewrite (subst_skip _ _ (Ascii.eqb "r")) by
    (auto using begins_ret_int; apply blank_fails; auto).
  now rewrite fire_ret_int.
Qed.

Section NumberReturn.
Variables indent n : text.
Hypothesis Fi : all_blank indent.
Hypothesis Fn : all_in CDigit n.
Hypothesis Nn : n <> [].

Let L := indent ++ ret_line n.
Let W := indent ++ wrap_number n.

Lemma number_line_quiet :
  occurs w_cast_s L = false /\ occurs w_cast_f L = false /\
  occurs w_cast_b L = false /\ occurs w_cast_m L = false.
Proof. unfold L. repeat split; open_ret; no_occ. Qed.

Lemma number_line_not_ident : occurs w_return L = false.
Proof. unfold L. open_ret. no_occ_digits. Qed.

Lemma wrap_number_quiet :
  occurs w_e_comma W = false /\ Forall safe_schema [W] /\ Forall safe_index [W].
Proof.
  unfold W. split; [open_ret; no_occ|]. split.
  - repeat constructor; unfold safe_schema; open_ret; no_occ.
  - repeat constructor; unfold safe_index; open_ret;
      first [left; no_occ | right; no_occ | no_occ].
Qed.
End NumberReturn.

(** X6.  A line [return n, nil] (after any indentation) with [n] an integer
    literal comes out of the pipeline as
    [return engine.NewNumberValue(float64(n)), nil], in any document. *)
Theorem integer_return_wrapped doc indent n :
  all_blank indent -> all_in CDigit n -> n <> [] ->
  has_block (indent ++ ret_line n) doc ->
  exists out, pipeline doc = Some out /\
    has_block (indent ++ wrap_number n) out.
Proof.
  intros Fi Fn Nn H. exists (pipeline_text doc). split; [apply pipeline_total|].
  destruct (number_line_quiet indent n Fi Fn) as (Hs & Hf & Hb & Hm).
  destruct (wrap_number_quiet indent n Fi Fn) as (He & Hsch & Hidx).
  unfold pipeline_text.
  apply keep_import in H; [|unfold ret_line; one_line].
  apply keep_strings in H; auto. apply keep_object in H; auto.
  unfold returns_text.
  apply (keep_block_index (indent ++ wrap_number n) []); auto.
  apply (keep_block_schema (indent ++ wrap_number n) []); auto.
  apply keep_ret_bool; [now right|].
  apply (map_block _ _ (indent ++ ret_line n)); auto.
  - now apply fire_ret_int_indented.
  - apply (keep_block _ _ w_return); auto using trigger_ret_ident_head.
    now apply number_line_not_ident.
Qed.

Lemma integer_return_wrapped_witness :
  exists out, pipeline ([TAB] ++ ret_line (str "42")) = Some out /\
    has_block ([TAB] ++ wrap_number (str "42")) out.
Proof.
  apply (integer_return_wrapped _ [TAB] (str "42")).
  - repeat constructor.
  - repeat constructor.
  - discriminate.
  - apply has_block_whole.
Defined.

(** X7.  Wherever the boolean return rule matches, the identifier return
    rule matches too, with the same captured text and the same text left
    over.  The identifier rule is applied first, so it is the one that
    rewrites [return true, nil] and [return false, nil]. *)
Theorem bool_rule_shadowed s c rest :
  match_at pat_ret_bool s = Some (c, rest) ->
  match_at pat_ret_ident s = Some (c, rest).
Proof.
  intros H. apply match_at_sound in H. destruct H as (mt & -> & D).
  apply shape_ret_bool in D. destruct D as (B & -> & -> & HB & He).
  unfold match_at, pat_ret_ident. rewrite <- !app_assoc.
  rewrite m_lits_seq, m_seq.
  assert (K : m (lits (str ", nil") ;; Eol) (str ", nil" ++ rest) [(1, B)]
                (fun s' c' => Some (c', s')) = Some ([(1, B)], rest)).
  { rewrite m_lits_seq. cbn [m]. now rewrite He. }
  destruct HB as [-> | ->].
  - apply (m_grp_run 1 ident_start ident_char "t"%char (str "rue"));
      [reflexivity | repeat constructor | reflexivity | exact K].
  - apply (m_grp_run 1 ident_start ident_char "f"%char (str "alse"));
      [reflexivity | repeat constructor | reflexivity | exact K].
Qed.

Lemma bool_rule_shadowed_witness :
  match_at pat_ret_ident (str "return false, nil" ++ [NL] ++ str "}")
  = Some ([(1, str "false")], [NL] ++ str "}").
Proof.
  apply (bool_rule_shadowed (str "return false, nil" ++ [NL] ++ str "}")).
  reflexivity.
Defined.

(** X8.  A document without the text [import (] -- a file with single-line
    imports or none -- is returned by the import rule as it is: no helper
    import is added, whether or not [helpers] occurs in it. *)
Theorem no_import_block_unchanged doc :
  occurs w_import_open doc = false -> add_helper_import doc = Some doc.
Proof.
  intros H. rewrite add_helper_import_total. f_equal. unfold import_text.
  destruct (negb (contains helpers doc)); auto.
  apply (subst_no_trigger _ _ w_import_open); auto using trigger_import_open.
Qed.

Lemma no_import_block_unchanged_witness :
  let doc := str "package main" ++ [NL] ++ str "import " ++ [DQ] ++ str "fmt"
             ++ [DQ; NL] in
  add_helper_import doc = Some doc.
Proof. intros doc. apply no_import_block_unchanged. reflexivity. Defined.

(** X9.  The string-argument and the object-argument groups work line by
    line: the result on two texts joined by a line end is the two results
    joined by a line end. *)
Theorem validations_line_by_line x y :
  (forall a b, fix_string_validations x = Some a ->
               fix_string_validations y = Some b ->
               fix_string_validations (x ++ NL :: y) = Some (a ++ NL :: b)) /\
  (forall a b, fix_object_validations x = Some a ->
               fix_object_validations y = Some b ->
               fix_object_validations (x ++ NL :: y) = Some (a ++ NL :: b)).
Proof.
  split; intros a b Ha Hb.
  - rewrite fix_string_validations_total in *.
    injection Ha as <-. injection Hb as <-. f_equal.
    unfold strings_text. now rewrite !subst_lines by reflexivity.
  - rewrite fix_object_validations_total in *.
    injection Ha as <-. injection Hb as <-. f_equal.
    unfold object_text. now rewrite subst_lines by reflexivity.
Qed.

Lemma validations_line_by_line_witness :
  fix_string_validations (str "a := args[0].(bool)" ++ NL :: str "b := 1")
  = Some (str "a := args[0].(engine.BoolValue).Value()" ++ NL :: str "b := 1").
Proof.
  apply (proj1 (validations_line_by_line (str "a := args[0].(bool)")
                  (str "b := 1"))); reflexivity.
Defined.

(** * Direct type assertions on an argument *)

(** The three direct-cast rules of [fix_string_validations]: the asserted Go
    type and the engine value type that replaces it. *)
Definition direct_casts : list (string * string) :=
  [("string", "StringValue"); ("float64", "NumberValue"); ("bool", "BoolValue")].

Lemma string_rules_casts :
  string_rules =
  (pat_string_ok, tpl_string_ok)
  :: map (fun p => (pat_cast (fst p), tpl_cast (snd p))) direct_casts.
Proof. reflexivity. Qed.

Definition cast_expr (ty : string) (k : text) : text :=
  str "args[" ++ k ++ str "].(" ++ str ty ++ str ")".

Definition cast_value (v : string) (k : text) : text :=
  str "args[" ++ k ++ str "].(engine." ++ str v ++ str ").Value()".

Lemma match_cast ty k :
  all_in CDigit k -> k <> [] ->
  match_at (pat_cast ty) (cast_expr ty k) = Some ([(1, k)], []).
Proof.
  intros Fk Nk. destruct k as [|k0 k]; [contradiction|]. inversion Fk; subst.
  unfold match_at, pat_cast, cast_expr. rewrite m_lits_seq, m_seq.
  apply m_grp_run; auto; [reflexivity|].
  rewrite !m_lits_seq.
  rewrite <- (app_nil_r (str ")")). now rewrite m_lits.
Qed.

Lemma begins_cast ty : begins (pat_cast ty) (Ascii.eqb "a").
Proof.
  intros mt rest c D. apply shape_cast in D. destruct D as (D & -> & _).
  eexists. eexists. split; reflexivity.
Qed.

(** No match of a cast rule begins inside a word that is followed by
    anything but an opening bracket. *)
Lemma cast_not_in_word ty b x c z :
  all_in CWord (b :: x) -> cls_mem CWord c = false -> c <> "["%char ->
  match_at (pat_cast ty) ((b :: x) ++ c :: z) = None.
Proof.
  intros F Hc Hn.
  destruct (match_at (pat_cast ty) ((b :: x) ++ c :: z)) as [[cc rest]|] eqn:E;
    auto.
  apply match_at_sound in E. destruct E as (mt & E & D).
  apply shape_cast in D. destruct D as (D0 & -> & _).
  cbn [str list_ascii_of_string app] in E.
  unfold all_in in F. rewrite Forall_forall in F.
  destruct x as [|a2 [|a3 [|a4 [|a5 x]]]]; cbn [app] in E; injection E; intros;
    subst.
  - vm_compute in Hc. discriminate.
  - vm_compute in Hc. discriminate.
  - vm_compute in Hc. discriminate.
  - congruence.
  - assert (H5 : cls_mem CWord "["%char = true) by (apply F; simpl; auto 10).
    vm_compute in H5. discriminate.
Qed.

Lemma subst_cast_word ty t name c z :
  all_in CWord name -> cls_mem CWord c = false -> c <> "["%char ->
  subst (pat_cast ty) t (name ++ c :: z)
  = name ++ subst (pat_cast ty) t (c :: z).
Proof.
  intros F Hc Hn. induction name as [|b x IH]; auto.
  rewrite <- app_comm_cons at 1.
  rewrite subst_copy.
  - rewrite IH; [reflexivity|]. now inversion F.
  - rewrite app_comm_cons. now apply cast_not_in_word.
Qed.

(** The left-hand sides in front of a cast: a plain short declaration and a
    destructuring one. *)
Definition plain_lhs : text := str " := ".
Definition ok_lhs : text := str ", ok := ".

Lemma fire_cast ty v indent name lhs k :
  newline_free (pat_cast ty) = true -> nullable (pat_cast ty) = false ->
  all_blank indent -> all_in CWord name -> all_in CDigit k -> k <> [] ->
  lhs = plain_lhs \/ lhs = ok_lhs ->
  subst (pat_cast ty) (tpl_cast v) (indent ++ name ++ lhs ++ cast_expr ty k)
  = indent ++ name ++ lhs ++ cast_value v k.
Proof.
  intros _ N Fi Fn Fk Nk Hl.
  rewrite (subst_skip _ _ (Ascii.eqb "a")) by
    (auto using begins_cast; apply blank_fails; auto).
  f_equal.
  assert (E : subst (pat_cast ty) (tpl_cast v) (cast_expr ty k)
              = cast_value v k).
  { rewrite (subst_fire (pat_cast ty) (tpl_cast v) _ _ _ N (match_cast ty k Fk Nk)).
    rewrite subst_nil by exact N.
    unfold cast_value, tpl_cast, T. cbn [expand group Nat.eqb].
    repeat rewrite <- app_assoc. now rewrite app_nil_r. }
  destruct Hl as [-> | ->]; unfold plain_lhs, ok_lhs;
    cbn [str list_ascii_of_string app];
    (rewrite subst_cast_word; [|assumption|reflexivity|discriminate]);
    f_equal; rewrite <- E.
  - apply (subst_skip _ _ (Ascii.eqb "a") (str " := "));
      auto using begins_cast; repeat constructor.
  - apply (subst_skip _ _ (Ascii.eqb "a") (str ", ok := "));
      auto using begins_cast; repeat constructor.
Qed.

Definition w_comma_o : window := lit_window (str ", o").

Lemma trigger_string_ok_comma : trigger pat_string_ok w_comma_o.
Proof.
  intros mt rest c D. apply shape_string_ok in D.
  destruct D as (W & D & -> & _). find_window.
Qed.

Ltac open_cast :=
  unfold cast_expr, cast_value, plain_lhs, ok_lhs, w_comma_o; open_block.

(** The line forms that the direct-cast rules rewrite: asserted type, engine
    value type, left-hand side. *)
Definition cast_lines : list (string * string * text) :=
  [ ("string", "StringValue", plain_lhs);
    ("float64", "NumberValue", plain_lhs);
    ("float64", "NumberValue", ok_lhs);
    ("bool", "BoolValue", plain_lhs);
    ("bool", "BoolValue", ok_lhs) ].

Section CastLine.
Variables indent name k : text.
Hypothesis Fi : all_blank indent.
Hypothesis Fn : all_in CWord name.
Hypothesis Fk : all_in CDigit k.
Hypothesis Nk : k <> [].

Ltac keep_with w T :=
  apply (keep_block _ _ w);
    [reflexivity | reflexivity | apply T | open_cast; no_occ |].

Ltac fire_here ty lhs :=
  apply (map_block _ _ (indent ++ name ++ lhs ++ cast_expr ty k));
    [reflexivity | reflexivity | apply fire_cast; auto |].

Lemma cast_line_strings ty v lhs doc :
  In (ty, v, lhs) cast_lines ->
  has_block (indent ++ name ++ lhs ++ cast_expr ty k) doc ->
  has_block (indent ++ name ++ lhs ++ cast_value v k) (strings_text doc).
Proof.
  intros Hin H. unfold strings_text.
  destruct Hin as [E|[E|[E|[E|[E|[]]]]]]; injection E as <- <- <-.
  - keep_with w_cast_b trigger_cast_bool.
    keep_with w_cast_f trigger_cast_float.
    fire_here "string"%string plain_lhs.
    keep_with w_comma_o trigger_string_ok_comma. exact H.
  - keep_with w_cast_b trigger_cast_bool.
    fire_here "float64"%string plain_lhs.
    keep_with w_cast_s trigger_cast_string.
    keep_with w_cast_s trigger_string_ok. exact H.
  - keep_with w_cast_b trigger_cast_bool.
    fire_here "float64"%string ok_lhs.
    keep_with w_cast_s trigger_cast_string.
    keep_with w_cast_s trigger_string_ok. exact H.
  - fire_here "bool"%string plain_lhs.
    keep_with w_cast_f trigger_cast_float.
    keep_with w_cast_s trigger_cast_string.
    keep_with w_cast_s trigger_string_ok. exact H.
  - fire_here "bool"%string ok_lhs.
    keep_with w_cast_f trigger_cast_float.
    keep_with w_cast_s trigger_cast_string.
    keep_with w_cast_s trigger_string_ok. exact H.
Qed.

Lemma cast_value_kept ty v lhs doc :
  In (ty, v, lhs) cast_lines ->
  has_block (indent ++ name ++ lhs ++ cast_value v k) doc ->
  has_block (indent ++ name ++ lhs ++ cast_value v k)
    (returns_text (object_text doc)).
Proof.
  intros Hin H.
  apply (keep_returns (indent ++ name ++ lhs ++ cast_value v k) []).
  1-5: destruct Hin as [E|[E|[E|[E|[E|[]]]]]]; injection E as <- <- <-.
  1-15: try (left; unfold join; open_cast; no_occ).
  1-10: repeat constructor; unfold safe_schema, safe_index; open_cast;
    first [no_occ | right; no_occ].
  apply keep_object; auto.
  destruct Hin as [E|[E|[E|[E|[E|[]]]]]]; injection E as <- <- <-;
    open_cast; no_occ.
Qed.

Lemma cast_line_one_line ty v lhs :
  In (ty, v, lhs) cast_lines ->
  ~ In NL (indent ++ name ++ lhs ++ cast_expr ty k).
Proof.
  intros Hin.
  destruct Hin as [E|[E|[E|[E|[E|[]]]]]]; injection E as <- <- <-;
    unfold cast_expr, plain_lhs, ok_lhs; one_line.
Qed.

Lemma cast_line_rewritten ty v lhs doc :
  In (ty, v, lhs) cast_lines ->
  has_block (indent ++ name ++ lhs ++ cast_expr ty k) doc ->
  has_block (indent ++ name ++ lhs ++ cast_value v k) (pipeline_text doc).
Proof.
  intros Hin H. unfold pipeline_text.
  apply (cast_value_kept ty); auto. apply (cast_line_strings ty); auto.
  apply keep_import; auto. now apply (cast_line_one_line ty v).
Qed.
End CastLine.

(** X10.  A line [name := args[k].(T)] (after any indentation) with [T] one
    of [string], [float64], [bool] comes out of the pipeline with the type
    assertion replaced by the engine accessor:
    [name := args[k].(engine.StringValue).Value()], and [NumberValue],
    [BoolValue] for the other two.  No guard is added. *)
Theorem direct_cast_rewritten doc indent name k ty v :
  In (ty, v) direct_casts ->
  all_blank indent -> all_in CWord name -> all_in CDigit k -> k <> [] ->
  has_block (indent ++ name ++ str " := " ++ cast_expr ty k) doc ->
  exists out, pipeline doc = Some out /\
    has_block (indent ++ name ++ str " := " ++ cast_value v k) out.
Proof.
  intros Hin Fi Fn Fk Nk H.
  exists (pipeline_text doc). split; [apply pipeline_total|].
  apply (cast_line_rewritten indent name k Fi Fn Fk Nk ty v plain_lhs); auto.
  destruct Hin as [E|[E|[E|[]]]]; injection E as <- <-; simpl; auto.
Qed.

Lemma direct_cast_rewritten_witness :
  exists out,
    pipeline ([TAB] ++ str "rate" ++ str " := " ++ cast_expr "float64" (str "1"))
    = Some out /\
    has_block ([TAB] ++ str "rate" ++ str " := "
               ++ cast_value "NumberValue" (str "1")) out.
Proof.
  apply (direct_cast_rewritten _ [TAB] (str "rate") (str "1")
           "float64" "NumberValue").
  - simpl. auto.
  - repeat constructor.
  - repeat constructor.
  - repeat constructor.
  - discriminate.
  - apply has_block_whole.
Defined.

(** X11.  Only the string form of the destructuring idiom gets a guard.  A
    line [name, ok := args[k].(float64)] or [name, ok := args[k].(bool)]
    keeps its two-name left-hand side and gets no check on [args[k]]: the
    pipeline only replaces the type assertion, giving
    [name, ok := args[k].(engine.NumberValue).Value()] (and [BoolValue]). *)
Theorem ok_cast_not_guarded doc indent name k ty v :
  In (ty, v) [("float64", "NumberValue"); ("bool", "BoolValue")]%string ->
  all_blank indent -> all_in CWord name -> all_in CDigit k -> k <> [] ->
  has_block (indent ++ name ++ str ", ok := " ++ cast_expr ty k) doc ->
  exists out, pipeline doc = Some out /\
    has_block (indent ++ name ++ str ", ok := " ++ cast_value v k) out.
Proof.
  intros Hin Fi Fn Fk Nk H.
  exists (pipeline_text doc). split; [apply pipeline_total|].
  apply (cast_line_rewritten indent name k Fi Fn Fk Nk ty v ok_lhs); auto.
  destruct Hin as [E|[E|[]]]; injection E as <- <-; simpl; auto 6.
Qed.

Lemma ok_cast_not_guarded_witness :
  exists out,
    pipeline ([TAB] ++ str "flag" ++ str ", ok := " ++ cast_expr "bool" (str "2"))
    = Some out /\
    has_block ([TAB] ++ str "flag" ++ str ", ok := "
               ++ cast_value "BoolValue" (str "2")) out.
Proof.
  apply (ok_cast_not_guarded _ [TAB] (str "flag") (str "2") "bool" "BoolValue").
  - simpl. auto.
  - repeat constructor.
  - repeat constructor.
  - repeat constructor.
  - discriminate.
  - apply has_block_whole.
Defined.

(** * Indexed returns in general *)

Definition index_ret (v e : text) : text :=
  str "return " ++ v ++ str "[" ++ e ++ str "], nil".

Definition array_lines (indent v e : text) : list text :=
  [ indent ++ str "// TODO: Convert array/slice return";
    [TAB; TAB] ++
    str "return engine.NewArrayValue(helpers.ConvertSliceToScriptValue(" ++
    v ++ str "[" ++ e ++ str "])), nil" ].

Lemma ident_not_rbracket b :
  cls_mem ident_char b = true -> cls_mem not_rbracket b = true.
Proof.
  destruct b as [[] [] [] [] [] [] [] []]; vm_compute; intros; congruence.
Qed.

Lemma match_index_ret v e post :
  identifier v -> all_in ident_char e -> e <> [] ->
  match_at pat_ret_index (index_ret v e ++ post) = Some ([(2, e); (1, v)], post).
Proof.
  destruct v as [|i v']; [contradiction|]. intros [Hi Hv] Fe Ne.
  unfold index_ret. repeat rewrite <- app_assoc.
  apply match_ret_index; auto.
  eapply Forall_impl; [|exact Fe]. apply ident_not_rbracket.
Qed.

Lemma fire_index_ret indent v e post :
  all_blank indent -> identifier v -> all_in ident_char e -> e <> [] ->
  line_end post ->
  exists post',
    subst pat_ret_index tpl_ret_index ((indent ++ index_ret v e) ++ post)
    = join (array_lines indent v e) ++ post' /\ line_end post'.
Proof.
  intros Fi Hv Fe Ne He. exists (subst pat_ret_index tpl_ret_index post). split.
  - rewrite <- app_assoc.
    rewrite (subst_skip _ _ (Ascii.eqb "r")) by
      (auto using begins_ret_index; apply blank_fails; auto).
    rewrite (subst_fire pat_ret_index tpl_ret_index _ _ _ eq_refl
               (match_index_ret v e post Hv Fe Ne)).
    unfold array_lines, join, tpl_ret_index, T.
    cbn [expand group Nat.eqb]. repeat rewrite <- app_assoc. cbn [app].
    repeat rewrite <- app_assoc. reflexivity.
  - destruct He as [->|(q & ->)].
    + left. now apply subst_nil.
    + right. exists (subst pat_ret_index tpl_ret_index q). apply subst_copy.
      apply (begins_no_match _ (Ascii.eqb "r")); auto using begins_ret_index.
Qed.

Lemma index_ret_fires indent v e doc :
  all_blank indent -> identifier v -> all_in ident_char e -> e <> [] ->
  guarded_block (indent ++ index_ret v e) doc ->
  has_block (join (array_lines indent v e))
    (subst pat_ret_index tpl_ret_index doc).
Proof.
  intros Fi Hv Fe Ne (pre & post & -> & Hs & He & Hc).
  destruct (fire_index_ret indent v e post Fi Hv Fe Ne He) as (post' & E & He').
  destruct Hs as [->|(p & ->)].
  - cbn [app]. rewrite E. exists [], post'.
    split; [reflexivity|]. split; auto. now left.
  - destruct (index_before_line ((indent ++ index_ret v e) ++ post)
                (length p) [] p (le_n _) Hc) as (p' & Ep).
    replace ((p ++ [NL]) ++ (indent ++ index_ret v e) ++ post)
      with (p ++ NL :: (indent ++ index_ret v e) ++ post)
      by (now rewrite <- !app_assoc).
    rewrite Ep, E. exists (p' ++ [NL]), post'.
    split; [now rewrite <- !app_assoc|]. split; auto. right. now exists p'.
Qed.

Section IndexReturn.
Variables indent v e : text.
Hypothesis Fi : all_blank indent.
Hypothesis Fv : all_in ident_char v.
Hypothesis Fe : all_in ident_char e.

Let L := indent ++ index_ret v e.

Lemma index_ret_quiet :
  occurs w_cast_s L = false /\ occurs w_cast_f L = false /\
  occurs w_cast_b L = false /\ occurs w_cast_m L = false /\
  occurs w_ident_comma L = false /\ occurs w_digit_comma L = false /\
  occurs w_e_comma L = false /\ occurs w_schema L = false.
Proof. unfold L, index_ret. repeat split; open_block; no_occ. Qed.

Lemma index_ret_one_line : ~ In NL L.
Proof. unfold L, index_ret. one_line. Qed.
End IndexReturn.

(** X12.  The index rule for any names: in a document in which no earlier
    line ends with a [[] still open, a line [return v[e], nil] (after any
    indentation), with [v] an identifier and [e] a name or a number, is
    replaced by two lines: the comment
    [// TODO: Convert array/slice return] at the line's own indentation, and
    [return engine.NewArrayValue(helpers.ConvertSliceToScriptValue(v[e])), nil]
    behind exactly two tabs, whatever the indentation was. *)
Theorem indexed_return_rewritten doc indent v e :
  all_blank indent -> identifier v -> all_in ident_char e -> e <> [] ->
  guarded_block (indent ++ index_ret v e) doc ->
  exists out, pipeline doc = Some out /\
    has_block (join (array_lines indent v e)) out.
Proof.
  intros Fi Hv Fe Ne H. exists (pipeline_text doc).
  split; [apply pipeline_total|].
  pose proof (identifier_chars v Hv) as Fv.
  destruct (index_ret_quiet indent v e Fi Fv Fe)
    as (Hs & Hf & Hb & Hm & H1 & H2 & H3 & H4).
  unfold pipeline_text, returns_text, object_text, strings_text.
  apply index_ret_fires; auto.
  apply keep_guarded_schema; auto.
  apply (keep_guarded _ _ w_e_comma);
    auto using trigger_ret_bool_comma, quiet_ret_bool.
  apply (keep_guarded _ _ w_digit_comma);
    auto using trigger_ret_int_comma, quiet_ret_int.
  apply (keep_guarded _ _ w_ident_comma);
    auto using trigger_ret_ident_comma, quiet_ret_ident.
  apply (keep_guarded _ _ w_cast_m); auto using trigger_object, quiet_object.
  apply (keep_guarded _ _ w_cast_b);
    auto using trigger_cast_bool, quiet_cast_bool.
  apply (keep_guarded _ _ w_cast_f);
    auto using trigger_cast_float, quiet_cast_float.
  apply (keep_guarded _ _ w_cast_s);
    auto using trigger_cast_string, quiet_cast_string.
  apply (keep_guarded _ _ w_cast_s);
    auto using trigger_string_ok, quiet_string_ok.
  apply keep_guarded_import; auto.
  now apply index_ret_one_line.
Qed.

Lemma indexed_return_rewritten_witness :
  exists out,
    pipeline (str "x := m[0]" ++ NL :: [TAB; TAB; TAB]
              ++ index_ret (str "items") (str "0")) = Some out /\
    has_block (join (array_lines [TAB; TAB; TAB] (str "items") (str "0"))) out.
Proof.
  apply (indexed_return_rewritten _ [TAB; TAB; TAB] (str "items") (str "0")).
  - repeat constructor.
  - split; [reflexivity | repeat constructor].
  - repeat constructor.
  - discriminate.
  - exists (str "x := m[0]" ++ [NL]), [].
    split; [reflexivity|]. split; [right; now exists (str "x := m[0]")|].
    split; [now left|]. vm_compute. discriminate.
Defined.

(** * The helper import is added once *)

Lemma starts_with_app_l B : forall x y,
  starts_with B x = true -> starts_with B (x ++ y) = true.
Proof.
  induction B as [|a B IH]; intros x y H; [reflexivity|].
  destruct x as [|b x]; [discriminate|]. simpl in *.
  apply andb_true_iff in H. destruct H as [H1 H2].
  now rewrite H1, (IH x y H2).
Qed.

Lemma contains_app_l B : forall x y,
  contains B x = true -> contains B (x ++ y) = true.
Proof.
  induction x as [|a x IH]; intros y H.
  - simpl in H. rewrite orb_false_r in H.
    apply (starts_with_app_l B [] y) in H. simpl in H.
    destruct y; simpl; now rewrite H.
  - simpl in H. apply orb_true_iff in H. cbn [app contains].
    apply orb_true_iff. destruct H as [H|H]; [left|right]; auto.
    now apply (starts_with_app_l B (a :: x) y).
Qed.

Lemma helper_line_helpers s : contains helpers (NL :: helper_line ++ s) = true.
Proof.
  apply (contains_app_r helpers [NL]). apply contains_app_l.
  vm_compute. reflexivity.
Qed.

Lemma Ins_no_helpers s s' :
  Ins s s' -> contains helpers s' = false -> s' = s.
Proof.
  induction 1 as [|a s s' H IH|s s' H IH]; intros C; auto.
  - f_equal. apply IH. cbn [contains] in C.
    apply orb_false_iff in C. tauto.
  - now rewrite helper_line_helpers in C.
Qed.

(** X13.  The import rule settles after one run: applied to its own result
    it changes nothing, so a second run never adds the helper import a
    second time. *)
Theorem helper_import_once doc out :
  add_helper_import doc = Some out -> add_helper_import out = Some out.
Proof.
  rewrite !add_helper_import_total. intros E. injection E as <-. f_equal.
  destruct (contains helpers (import_text doc)) eqn:C2.
  - unfold import_text at 1. now rewrite C2.
  - unfold import_text at 1. rewrite C2. cbn [negb].
    unfold import_text in *.
    destruct (contains helpers doc) eqn:C; cbn [negb] in *.
    + congruence.
    + now rewrite (Ins_no_helpers _ _ (subst_Ins doc) C2) at 1.
Qed.

Lemma helper_import_once_witness :
  let doc := str "import (" ++ [NL; TAB; DQ] ++ str "fmt" ++ [DQ; NL]
             ++ str ")" ++ [NL] in
  let out := str "import (" ++ [NL; TAB; DQ] ++ str "fmt" ++ [DQ; NL]
             ++ helper_line ++ str ")" ++ [NL] in
  add_helper_import out = Some out.
Proof.
  intros doc out. apply (helper_import_once doc). vm_compute. reflexivity.
Defined.

(** * Text behind a return: the line-end anchor *)

(** What the three anchored return rules have in common: a match is
    [return G, nil] with [G] a run of identifier characters, and the line
    ends behind it. *)
Definition ret_shape (r : regex) : Prop :=
  forall mt rest c, Derives r mt rest [] c ->
    exists G, mt = str "return " ++ G ++ str ", nil" /\
      all_in ident_char G /\ at_eol rest = true.

Lemma digit_ident_char b :
  cls_mem CDigit b = true -> cls_mem ident_char b = true.
Proof.
  destruct b as [[] [] [] [] [] [] [] []]; vm_compute; intros; congruence.
Qed.

Lemma ret_shape_ident : ret_shape pat_ret_ident.
Proof.
  intros mt rest c D. apply shape_ret_ident in D.
  destruct D as (i & I & -> & _ & Hi & HI & He). exists (i :: I).
  repeat split; auto. constructor; auto. now apply ident_start_char.
Qed.

Lemma ret_shape_int : ret_shape pat_ret_int.
Proof.
  intros mt rest c D. apply shape_ret_int in D.
  destruct D as (G & -> & _ & FG & _ & He). exists G.
  repeat split; auto. eapply Forall_impl; [|exact FG]. apply digit_ident_char.
Qed.

Lemma ret_shape_bool : ret_shape pat_ret_bool.
Proof.
  intros mt rest c D. apply shape_ret_bool in D.
  destruct D as (G & -> & _ & [-> | ->] & He);
    eexists; repeat split; auto; repeat constructor.
Qed.

Lemma ret_shape_begins r : ret_shape r -> begins r (Ascii.eqb "r").
Proof.
  intros S mt rest c D. apply S in D. destruct D as (G & -> & _).
  eexists. eexists. split; reflexivity.
Qed.

Lemma ret_shape_trigger r : ret_shape r -> trigger r w_nil.
Proof.
  intros S mt rest c D. apply S in D. destruct D as (G & -> & _).
  find_window.
Qed.

Lemma run_unique (P : ascii -> bool) c c' : forall x x' y y',
  Forall (fun b => P b = true) x -> Forall (fun b => P b = true) x' ->
  P c = false -> P c' = false ->
  x ++ c :: y = x' ++ c' :: y' -> x = x' /\ c :: y = c' :: y'.
Proof.
  induction x as [|a x IH]; intros x' y y' F F' Hc Hc' E.
  - destruct x' as [|a' x']; [now split|].
    cbn [app] in E. injection E as -> _. inversion F'; subst. congruence.
  - destruct x' as [|a' x'].
    + cbn [app] in E. injection E as -> _. inversion F; subst. congruence.
    + cbn [app] in E. injection E as -> E. inversion F; inversion F'; subst.
      destruct (IH x' y y') as [-> E']; auto.
Qed.

(** The anchor: with anything but a line end behind [, nil] there is no
    match at the [return]. *)
Lemma ret_no_match_trailing r v c t :
  ret_shape r -> all_in ident_char v -> c <> NL ->
  match_at r (ret_line v ++ c :: t) = None.
Proof.
  intros S Fv Hc.
  destruct (match_at r (ret_line v ++ c :: t)) as [[cc rest]|] eqn:E; auto.
  apply match_at_sound in E. destruct E as (mt & E & D).
  apply S in D. destruct D as (G & -> & FG & He).
  unfold ret_line in E. repeat rewrite <- app_assoc in E.
  apply app_inv_head in E. cbn [str list_ascii_of_string app] in E.
  apply (run_unique (cls_mem ident_char)) in E; auto.
  destruct E as [_ E]. injection E as E. subst rest.
  cbn [at_eol] in He. apply Ascii.eqb_eq in He. contradiction.
Qed.

Lemma ret_no_match_rn r s :
  ret_shape r -> match_at r ("r" :: "n" :: s)%char = None.
Proof.
  intros S.
  destruct (match_at r ("r" :: "n" :: s)%char) as [[cc rest]|] eqn:E; auto.
  apply match_at_sound in E. destruct E as (mt & E & D).
  apply S in D. destruct D as (G & -> & _).
  cbn [str list_ascii_of_string app] in E. discriminate.
Qed.

(** No match begins inside a name that a comma follows. *)
Lemma ret_not_in_word r b x z :
  ret_shape r -> all_in ident_char (b :: x) ->
  match_at r ((b :: x) ++ ","%char :: z) = None.
Proof.
  intros S F.
  destruct (match_at r ((b :: x) ++ ","%char :: z)) as [[cc rest]|] eqn:E; auto.
  apply match_at_sound in E. destruct E as (mt & E & D).
  apply S in D. destruct D as (G & -> & _).
  cbn [str list_ascii_of_string app] in E.
  unfold all_in in F. rewrite Forall_forall in F.
  destruct x as [|a2 [|a3 [|a4 [|a5 [|a6 [|a7 x]]]]]]; cbn [app] in E;
    try discriminate.
  injection E; intros; subst.
  assert (H7 : cls_mem ident_char " "%char = true) by (apply F; simpl; auto 10).
  vm_compute in H7. discriminate.
Qed.

Lemma subst_ret_word r t v z :
  ret_shape r -> all_in ident_char v ->
  subst r t (v ++ ","%char :: z) = v ++ subst r t (","%char :: z).
Proof.
  intros S F. induction v as [|b x IH]; auto.
  rewrite <- app_comm_cons at 1.
  rewrite subst_copy.
  - rewrite IH; [reflexivity|]. now inversion F.
  - rewrite app_comm_cons. now apply ret_not_in_word.
Qed.

(** Characters of a trailing note: word characters, blanks and the slash. *)
Definition plain (b : ascii) : bool := is_word b || blank b || Ascii.eqb b "/".

Definition all_plain (x : text) : Prop := Forall (fun b => plain b = true) x.

Lemma occurs_run p w x :
  Forall (fun b => p b = false) x -> occurs (p :: w) x = false.
Proof.
  intros F. rewrite <- (app_nil_r x). now rewrite occurs_skip1.
Qed.

Lemma trailing_kept r t indent v c tail :
  ret_shape r -> nullable r = false ->
  all_blank indent -> all_in ident_char v -> all_plain (c :: tail) ->
  subst r t (indent ++ ret_line v ++ c :: tail)
  = indent ++ ret_line v ++ c :: tail.
Proof.
  intros S N Fi Fv Ft.
  pose proof (ret_shape_begins r S) as B.
  assert (Hc : c <> NL).
  { inversion Ft; subst. intros ->. discriminate. }
  rewrite (subst_skip _ _ (Ascii.eqb "r")) by
    (auto; apply blank_fails; auto).
  f_equal.
  pose proof (ret_no_match_trailing r v c tail S Fv Hc) as N0.
  assert (E0 : ret_line v ++ c :: tail
               = str "return " ++ v ++ str ", nil" ++ c :: tail).
  { unfold ret_line. now repeat rewrite <- app_assoc. }
  rewrite E0 in *. cbn [str list_ascii_of_string app] in *.
  rewrite (subst_copy _ _ _ _ N0). f_equal.
  rewrite subst_copy by (now apply (begins_no_match r (Ascii.eqb "r"))). f_equal.
  rewrite subst_copy by (now apply (begins_no_match r (Ascii.eqb "r"))). f_equal.
  rewrite subst_copy by (now apply (begins_no_match r (Ascii.eqb "r"))). f_equal.
  rewrite subst_copy by (now apply ret_no_match_rn). f_equal.
  rewrite subst_copy by (now apply (begins_no_match r (Ascii.eqb "r"))). f_equal.
  rewrite subst_copy by (now apply (begins_no_match r (Ascii.eqb "r"))). f_equal.
  rewrite subst_ret_word by assumption. f_equal.
  do 5 (rewrite subst_copy
          by (now apply (begins_no_match r (Ascii.eqb "r"))); f_equal).
  apply (subst_no_trigger r t w_nil); [now apply ret_shape_trigger|].
  apply occurs_run. now apply (class_neq plain).
Qed.

Ltac run_fails_plain :=
  first [ run_fails | apply (class_neq plain); [reflexivity | assumption] ].

Ltac no_occ_plain :=
  repeat rewrite <- app_assoc;
  cbn [app str list_ascii_of_string];
  repeat first
    [ rewrite occurs_cons_skip by reflexivity
    | rewrite occurs_skip1 by run_fails_plain
    | rewrite occurs_skip2 by (first [run_fails_plain | head_ok])
    | rewrite occurs_skip3 by (first [run_fails_plain | head_ok]) ];
  reflexivity.

Section TrailingText.
Variables indent v tail : text.
Hypothesis Fi : all_blank indent.
Hypothesis Fv : all_in ident_char v.
Hypothesis Ft : all_plain tail.

Let L := indent ++ ret_line v ++ tail.

Lemma trailing_quiet :
  occurs w_cast_s L = false /\ occurs w_cast_f L = false /\
  occurs w_cast_b L = false /\ occurs w_cast_m L = false /\
  Forall safe_schema [L] /\ Forall safe_index [L].
Proof.
  unfold all_plain in Ft.
  unfold L. rewrite <- (app_nil_r tail).
  repeat split; try (open_ret; no_occ_plain).
  - repeat constructor. unfold safe_schema. open_ret. no_occ_plain.
  - repeat constructor; unfold safe_index; open_ret;
      first [left; no_occ_plain | no_occ_plain].
Qed.

Lemma trailing_one_line : ~ In NL L.
Proof.
  unfold L, ret_line.
  repeat first
    [ apply not_In_app
    | apply not_In_str; reflexivity
    | apply (run_not_In blank); [assumption | reflexivity]
    | apply (run_not_In plain); [assumption | reflexivity]
    | apply (run_not_In (cls_mem ident_char)); [assumption | reflexivity] ].
Qed.
End TrailingText.

(** X14.  The three anchored return rules need the line to end behind
    [, nil].  A return line with a value of identifier characters that has
    anything more on it -- trailing blanks, a comment of words -- is not
    wrapped: it comes out of the pipeline as it went in, in any
    document. *)
Theorem trailing_text_blocks_return doc indent v c tail :
  all_blank indent -> all_in ident_char v -> all_plain (c :: tail) ->
  has_block (indent ++ ret_line v ++ c :: tail) doc ->
  exists out, pipeline doc = Some out /\
    has_block (indent ++ ret_line v ++ c :: tail) out.
Proof.
  intros Fi Fv Ft H. exists (pipeline_text doc).
  split; [apply pipeline_total|].
  destruct (trailing_quiet indent v (c :: tail) Fi Fv Ft)
    as (Hs & Hf & Hb & Hm & Hsch & Hidx).
  unfold pipeline_text.
  apply keep_import in H; [|now apply trailing_one_line].
  apply keep_strings in H; auto. apply keep_object in H; auto.
  unfold returns_text.
  apply (keep_block_index (indent ++ ret_line v ++ c :: tail) []); auto.
  apply (keep_block_schema (indent ++ ret_line v ++ c :: tail) []); auto.
  apply (map_block _ _ (indent ++ ret_line v ++ c :: tail));
    [reflexivity | reflexivity
    | apply trailing_kept; auto using ret_shape_bool |].
  apply (map_block _ _ (indent ++ ret_line v ++ c :: tail));
    [reflexivity | reflexivity
    | apply trailing_kept; auto using ret_shape_int |].
  apply (map_block _ _ (indent ++ ret_line v ++ c :: tail));
    [reflexivity | reflexivity
    | apply trailing_kept; auto using ret_shape_ident |].
  exact H.
Qed.

Lemma trailing_text_blocks_return_witness :
  exists out,
    pipeline ([TAB] ++ ret_line (str "count") ++ str " // done") = Some out /\
    has_block ([TAB] ++ ret_line (str "count") ++ str " // done") out.
Proof.
  apply (trailing_text_blocks_return _ [TAB] (str "count") " "%char
           (str "// done")).
  - repeat constructor.
  - repeat constructor.
  - repeat constructor.
  - apply has_block_whole.
Defined.

(** * What the import rule and the schema rename leave alone *)

Lemma Ins_refl s : Ins s s.
Proof. induction s; constructor; auto. Qed.

(** X15.  The import rule only inserts: its result is the document with
    copies of the helper import line put in at starts of lines ([Ins]);
    every character of the document is kept, in order. *)
Theorem import_only_inserts doc out :
  add_helper_import doc = Some out -> Ins doc out.
Proof.
  rewrite add_helper_import_total. intros E. injection E as <-.
  unfold import_text. destruct (negb (contains helpers doc)).
  - apply subst_Ins.
  - apply Ins_refl.
Qed.

Lemma import_only_inserts_witness :
  Ins (str "import (" ++ [NL; TAB; DQ] ++ str "fmt" ++ [DQ; NL]
       ++ str ")" ++ [NL])
      (str "import (" ++ [NL; TAB; DQ] ++ str "fmt" ++ [DQ; NL]
       ++ helper_line ++ str ")" ++ [NL]).
Proof. apply import_only_inserts. vm_compute. reflexivity. Defined.

(** X16.  The schemaToScript rule is a rename and nothing else: its result
    is the text with some occurrences of [return schemaToScript(] replaced
    by [return convertSchemaToScriptValue(] ([Rep rules_schema]); the
    argument of the call, however long and over however many lines, and all
    other text are copied as they are. *)
Theorem schema_rule_only_renames s :
  exists out, re_sub pat_ret_schema tpl_ret_schema s = Some out /\
    Rep rules_schema s out.
Proof.
  exists (subst pat_ret_schema tpl_ret_schema s). split.
  - reflexivity.
  - apply subst_schema_Rep.
Qed.

(** * Text that a rule cannot touch, wherever it stands

    The blocks above stand on lines of their own.  A piece of text in the
    middle of a line, with anything before and behind it, is kept by a rule
    when no replaced piece of the rule can begin in it ([no_begin]) and none
    that began before it can reach into it ([no_reach]). *)
Section Immune.
Variable rules : text -> text -> Prop.

Definition no_begin (E : text) : Prop :=
  forall e1 e2 u v s0 b, E = e1 ++ e2 -> e2 <> [] -> rules u v ->
    u ++ s0 = e2 ++ b -> False.

Definition no_reach (E : text) : Prop :=
  forall u v u1 u2 s0 b, rules u v -> u = u1 ++ u2 -> u1 <> [] -> u2 <> [] ->
    u2 ++ s0 = E ++ b -> False.

Lemma Rep_inv s s' :
  Rep rules s s' ->
  (s = [] /\ s' = []) \/
  (exists c s0 s0', s = c :: s0 /\ s' = c :: s0' /\ Rep rules s0 s0') \/
  (exists u v s0 s0', rules u v /\ s = u ++ s0 /\ s' = v ++ s0' /\
     Rep rules s0 s0').
Proof.
  intros H. destruct H as [|c s0 s0' H|u v s0 s0' R H].
  - now left.
  - right. left. now exists c, s0, s0'.
  - right. right. now exists u, v, s0, s0'.
Qed.

Lemma Rep_head E b :
  no_begin E ->
  forall e2 e1 s', E = e1 ++ e2 -> Rep rules (e2 ++ b) s' ->
  exists b', s' = e2 ++ b' /\ Rep rules b b'.
Proof.
  intros NB. induction e2 as [|c e2 IH]; intros e1 s' HE H.
  - now exists s'.
  - apply Rep_inv in H.
    destruct H as [[H _]|[(c' & s0 & s0' & E1 & -> & H)|(u & v & s0 & s0' & R & E1 & _)]].
    + discriminate.
    + cbn [app] in E1. injection E1 as <- <-.
      destruct (IH (e1 ++ [c]) s0') as (b' & -> & Hb); auto.
      * now rewrite <- app_assoc.
      * now exists b'.
    + exfalso. apply (NB e1 (c :: e2) u v s0 b); auto. discriminate.
Qed.

Lemma Rep_keep E :
  no_begin E -> no_reach E -> E <> [] ->
  forall s s', Rep rules s s' -> forall a b, s = a ++ E ++ b ->
  exists a' b', s' = a' ++ E ++ b' /\ Rep rules a a' /\ Rep rules b b'.
Proof.
  intros NB NR NE s s' H.
  induction H as [|c s0 s0' H IH|u v s0 s0' R H IH]; intros a b E0.
  - destruct a; [|discriminate]. destruct E; [contradiction|discriminate].
  - destruct a as [|c' a0].
    + cbn [app] in E0.
      destruct (Rep_head E b NB E [] (c :: s0')) as (b' & -> & Hb).
      * reflexivity.
      * rewrite <- E0. now constructor.
      * exists [], b'. repeat split; auto. constructor.
    + cbn [app] in E0. injection E0 as <- ->.
      destruct (IH a0 b eq_refl) as (a' & b' & -> & Ha & Hb).
      exists (c :: a'), b'. repeat split; auto. now constructor.
  - apply app_eq_app in E0.
    destruct E0 as (l & [[-> E1]|[-> ->]]).
    + destruct l as [|d l].
      * rewrite app_nil_r in *. cbn [app] in E1.
        destruct (IH [] b) as (a' & b' & -> & Ha & Hb); [now rewrite E1|].
        exists (v ++ a'), b'. rewrite <- app_assoc. repeat split; auto.
        rewrite <- (app_nil_r a). now constructor.
      * exfalso. destruct a as [|c a].
        -- apply (NB [] E (d :: l) v s0 b); auto.
        -- apply (NR ((c :: a) ++ d :: l) v (c :: a) (d :: l) s0 b); auto;
             discriminate.
    + destruct (IH l b eq_refl) as (a' & b' & -> & Ha & Hb).
      exists (v ++ a'), b'. rewrite <- app_assoc. repeat split; auto.
      now constructor.
Qed.

(** Ways to show the two conditions. *)
Definition no_inside (E : text) : Prop :=
  forall x u y v, rules u v -> E = x ++ u ++ y -> False.

Definition terminal (c : ascii) : Prop :=
  forall u v x y, rules u v -> u = x ++ c :: y -> y = [].

Definition avoids (c : ascii) : Prop :=
  forall u v, rules u v -> ~ In c u.

Definition ends (q : ascii -> bool) : Prop :=
  forall u v, rules u v -> exists u' d, u = u' ++ [d] /\ q d = true.

Definition no_end_in (g : text) : Prop :=
  forall u v u1 u2 g', rules u v -> u = u1 ++ u2 -> u1 <> [] -> u2 <> [] ->
    g = u2 ++ g' -> False.

Lemma terminal_avoids c : avoids c -> terminal c.
Proof.
  intros A u v x y R E. exfalso. apply (A u v R). rewrite E.
  apply in_or_app. right. now left.
Qed.

Lemma no_inside_trigger w E :
  (forall u v, rules u v -> occurs w u = true) -> occurs w E = false ->
  no_inside E.
Proof.
  intros T H x u y v R E0. rewrite E0 in H.
  rewrite occurs_app_r in H; [discriminate|].
  apply occurs_app_l. now apply (T u v).
Qed.

Lemma no_begin_terminal E0 c :
  no_inside (E0 ++ [c]) -> terminal c -> no_begin (E0 ++ [c]).
Proof.
  intros NI TC e1 e2 u v s0 b HE N2 R E1.
  apply app_eq_app in E1. destruct E1 as (l & [[-> E1]|[-> ->]]).
  - destruct l as [|d l].
    + rewrite app_nil_r in R. apply (NI e1 e2 [] v R). now rewrite app_nil_r.
    + destruct (exists_last N2) as (e2' & c' & ->).
      rewrite app_assoc in HE. apply app_inj_tail in HE. destruct HE as [_ <-].
      specialize (TC _ v e2' (d :: l) R). rewrite <- app_assoc in TC.
      specialize (TC eq_refl). discriminate.
  - apply (NI e1 u l v R). exact HE.
Qed.

Lemma no_end_in_class q g : ends q -> Forall (fun b => q b = false) g ->
  no_end_in g.
Proof.
  intros Hq F u v u1 u2 g' R E N1 N2 ->.
  destruct (Hq u v R) as (u' & d & E' & Hd).
  destruct (exists_last N2) as (u2' & d' & ->).
  rewrite E, app_assoc in E'. apply app_inj_tail in E'. destruct E' as [_ ->].
  rewrite Forall_forall in F. rewrite F in Hd; [discriminate|].
  apply in_or_app. left. apply in_or_app. right. now left.
Qed.

Lemma no_reach_barrier g c rest :
  avoids c -> no_end_in g -> no_reach (g ++ c :: rest).
Proof.
  intros A NE u v u1 u2 s0 b R E N1 N2 E1.
  rewrite <- app_assoc in E1. apply app_eq_app in E1.
  destruct E1 as (l & [[-> E1]|[-> ->]]).
  - destruct l as [|d l].
    + rewrite app_nil_r in *. apply (NE u v u1 g [] R); auto.
      now rewrite app_nil_r.
    + cbn [app] in E1. injection E1 as <- _.
      apply (A _ v R). rewrite E. apply in_or_app. right. apply in_or_app.
      right. now left.
  - apply (NE u v u1 u2 l R); auto.
Qed.

Lemma no_end_in_nil : no_end_in [].
Proof.
  intros u v u1 u2 g' R E N1 N2 E1. destruct u2; [contradiction|discriminate].
Qed.

Lemma Rep_nil_inv s' :
  (forall u v, rules u v -> u <> []) -> Rep rules [] s' -> s' = [].
Proof.
  intros NE H. apply Rep_inv in H.
  destruct H as [[_ H]|[(c & s0 & s0' & E & _)|(u & v & s0 & s0' & R & E & _)]];
    auto; [discriminate|].
  exfalso. apply (NE u v R). destruct u; [reflexivity|discriminate].
Qed.
End Immune.

(** The pieces of one [re.sub]: every match of the pattern, replaced by its
    expansion. *)
Definition rules_of (r : regex) (t : template) (u v : text) : Prop :=
  exists rest c, Derives r u rest [] c /\ v = expand t c.

Lemma subst_rules_of r t s :
  nullable r = false -> Rep (rules_of r t) s (subst r t s).
Proof.
  intros N. apply subst_ind; auto.
  - constructor.
  - intros. now constructor.
  - intros mt rest c s' NE D H. constructor; auto. now exists rest, c.
Qed.

Definition inside (E s : text) : Prop := exists a b, s = a ++ E ++ b.

Lemma keep_inside rules E s s' :
  Rep rules s s' -> no_begin rules E -> no_reach rules E -> E <> [] ->
  inside E s -> inside E s'.
Proof.
  intros H NB NR NE (a & b & ->).
  destruct (Rep_keep rules E NB NR NE _ _ H a b eq_refl) as (a' & b' & -> & _).
  now exists a', b'.
Qed.

(** ** The pieces of each rule *)

Lemma not_In_lit (c : ascii) (s : string) :
  forallb (fun b => negb (Ascii.eqb c b)) (str s) = true -> ~ In c (str s).
Proof.
  intros H I. rewrite forallb_forall in H. apply H in I.
  now rewrite Ascii.eqb_refl in I.
Qed.

Lemma not_In_cons (c a : ascii) x : c <> a -> ~ In c x -> ~ In c (a :: x).
Proof. intros N H [E|I]; [now apply N|now apply H]. Qed.

Ltac lacks :=
  repeat first
    [ apply not_In_app
    | apply not_In_lit; reflexivity
    | apply not_In_cons; [discriminate|]
    | apply in_nil
    | apply (run_not_In blank); [assumption | reflexivity]
    | apply (run_not_In (cls_mem CWord)); [assumption | reflexivity]
    | apply (run_not_In (cls_mem CDigit)); [assumption | reflexivity]
    | apply (run_not_In (cls_mem ident_char)); [assumption | reflexivity] ].

Lemma terminal_last rules c :
  (forall u v, rules u v -> exists body, u = body ++ [c] /\ ~ In c body) ->
  terminal rules c.
Proof.
  intros H u v x y R E. destruct (H u v R) as (body & E' & N).
  destruct y as [|d y]; [reflexivity|]. exfalso.
  assert (Ny : d :: y <> []) by discriminate.
  destruct (exists_last Ny) as (y' & e & Ey). rewrite Ey in E.
  rewrite E in E'. change (x ++ c :: y' ++ [e]) with (x ++ (c :: y') ++ [e]) in E'.
  rewrite app_assoc in E'. apply app_inj_tail in E'. destruct E' as [<- _].
  apply N. apply in_or_app. right. now left.
Qed.

Lemma ends_last rules (q : ascii -> bool) c :
  (forall u v, rules u v -> exists body, u = body ++ [c]) -> q c = true ->
  ends rules q.
Proof.
  intros H Hq u v R. destruct (H u v R) as (body & ->). now exists body, c.
Qed.

(** *** The direct casts *)
Section CastPieces.
Variables ty v : string.
Hypothesis Hty : In (ty, v) direct_casts.

Let rules := rules_of (pat_cast ty) (tpl_cast v).

Lemma cast_piece u w :
  rules u w ->
  exists D, all_in CDigit D /\
    u = (str "args[" ++ D ++ str "].(" ++ str ty) ++ [")"%char].
Proof.
  intros (rest & c & D & _). apply shape_cast in D.
  destruct D as (D & -> & _ & FD & _). exists D. split; auto.
  now rewrite <- !app_assoc.
Qed.

Ltac cast_cases :=
  destruct Hty as [E|[E|[E|[]]]]; injection E as <- <-.

Lemma cast_terminal : terminal rules ")".
Proof.
  apply terminal_last. intros u w R.
  destruct (cast_piece u w R) as (D & FD & ->).
  eexists. split; [reflexivity|]. cast_cases; lacks.
Qed.

Lemma cast_ends : ends rules (Ascii.eqb ")").
Proof.
  apply (ends_last rules _ ")"%char); [|reflexivity]. intros u w R.
  destruct (cast_piece u w R) as (D & FD & ->). eauto.
Qed.

Lemma cast_avoids_space : avoids rules " ".
Proof.
  intros u w R. destruct (cast_piece u w R) as (D & FD & ->).
  cast_cases; lacks.
Qed.

Lemma cast_avoids_comma : avoids rules ",".
Proof.
  intros u w R. destruct (cast_piece u w R) as (D & FD & ->).
  cast_cases; lacks.
Qed.

Lemma cast_avoids_nl : avoids rules NL.
Proof.
  intros u w R. destruct (cast_piece u w R) as (D & FD & ->).
  cast_cases; lacks.
Qed.

Lemma cast_trigger :
  exists w, (forall u x, rules u x -> occurs w u = true) /\
    In w [w_cast_s; w_cast_f; w_cast_b].
Proof.
  cast_cases.
  - exists w_cast_s. split; [|simpl; auto].
    intros u x (rest & c & D & _). now apply trigger_cast_string in D.
  - exists w_cast_f. split; [|simpl; auto].
    intros u x (rest & c & D & _). now apply trigger_cast_float in D.
  - exists w_cast_b. split; [|simpl; auto].
    intros u x (rest & c & D & _). now apply trigger_cast_bool in D.
Qed.
End CastPieces.

(** *** The two destructuring rules *)
Lemma string_ok_piece u w :
  rules_of pat_string_ok tpl_string_ok u w ->
  exists W D, all_in CWord W /\ all_in CDigit D /\
    u = (W ++ str ", ok := args[" ++ D ++ str "].(string") ++ [")"%char].
Proof.
  intros (rest & c & D & _). apply shape_string_ok in D.
  destruct D as (W & D & -> & _ & FW & _ & FD & _). exists W, D.
  repeat split; auto. now rewrite <- !app_assoc.
Qed.

Lemma object_piece u w :
  rules_of object_pattern object_replacement u w ->
  exists W D, all_in CWord W /\ all_in CDigit D /\
    u = (W ++ str ", ok := args[" ++ D ++ str "].(map[string]interface{}")
        ++ [")"%char].
Proof.
  intros (rest & c & D & _). apply shape_object in D.
  destruct D as (W & D & -> & _ & FW & _ & FD & _). exists W, D.
  repeat split; auto. now rewrite <- !app_assoc.
Qed.

Lemma string_ok_terminal : terminal (rules_of pat_string_ok tpl_string_ok) ")".
Proof.
  apply terminal_last. intros u w R.
  destruct (string_ok_piece u w R) as (W & D & FW & FD & ->).
  eexists. split; [reflexivity|]. lacks.
Qed.

Lemma string_ok_ends : ends (rules_of pat_string_ok tpl_string_ok) (Ascii.eqb ")").
Proof.
  apply (ends_last _ _ ")"%char); [|reflexivity]. intros u w R.
  destruct (string_ok_piece u w R) as (W & D & FW & FD & ->). eauto.
Qed.

Lemma string_ok_avoids_brace : avoids (rules_of pat_string_ok tpl_string_ok) "{".
Proof.
  intros u w R. destruct (string_ok_piece u w R) as (W & D & FW & FD & ->).
  lacks.
Qed.

Lemma string_ok_avoids_nl : avoids (rules_of pat_string_ok tpl_string_ok) NL.
Proof.
  intros u w R. destruct (string_ok_piece u w R) as (W & D & FW & FD & ->).
  lacks.
Qed.

Lemma object_terminal : terminal (rules_of object_pattern object_replacement) ")".
Proof.
  apply terminal_last. intros u w R.
  destruct (object_piece u w R) as (W & D & FW & FD & ->).
  eexists. split; [reflexivity|]. lacks.
Qed.

Lemma object_ends : ends (rules_of object_pattern object_replacement) (Ascii.eqb ")").
Proof.
  apply (ends_last _ _ ")"%char); [|reflexivity]. intros u w R.
  destruct (object_piece u w R) as (W & D & FW & FD & ->). eauto.
Qed.

Lemma object_avoids_bar : avoids (rules_of object_pattern object_replacement) "|".
Proof.
  intros u w R. destruct (object_piece u w R) as (W & D & FW & FD & ->).
  lacks.
Qed.

Lemma object_avoids_nl : avoids (rules_of object_pattern object_replacement) NL.
Proof.
  intros u w R. destruct (object_piece u w R) as (W & D & FW & FD & ->).
  lacks.
Qed.

(** *** The anchored returns *)
Section RetPieces.
Variables (r : regex) (t : template).
Hypothesis S : ret_shape r.

Let rules := rules_of r t.

Lemma ret_piece u w :
  rules u w ->
  exists G, all_in ident_char G /\
    u = (str "return " ++ G ++ str ", ni") ++ ["l"%char].
Proof.
  intros (rest & c & D & _). apply S in D.
  destruct D as (G & -> & FG & _). exists G. split; auto.
  now rewrite <- !app_assoc.
Qed.

Lemma ret_ends : ends rules (Ascii.eqb "l").
Proof.
  apply (ends_last _ _ "l"%char); [|reflexivity]. intros u w R.
  destruct (ret_piece u w R) as (G & FG & ->). eauto.
Qed.

Lemma ret_avoids c :
  cls_mem ident_char c = false ->
  forallb (fun b => negb (Ascii.eqb c b)) (str "return , nil") = true ->
  avoids rules c.
Proof.
  intros Hc Hl u w R. destruct (ret_piece u w R) as (G & FG & ->).
  intros I. apply in_app_or in I. destruct I as [I|[<-|[]]].
  - apply in_app_or in I. destruct I as [I|I].
    + assert (I' : In c (str "return , nil")).
      { simpl in *. tauto. }
      rewrite forallb_forall in Hl. apply Hl in I'.
      now rewrite Ascii.eqb_refl in I'.
    + apply in_app_or in I. destruct I as [I|I].
      * apply (run_not_In (cls_mem ident_char) G c); auto.
      * assert (I' : In c (str "return , nil")).
        { simpl in *. tauto. }
        rewrite forallb_forall in Hl. apply Hl in I'.
        now rewrite Ascii.eqb_refl in I'.
  - discriminate.
Qed.

Lemma ret_trigger u w : rules u w -> occurs w_nil u = true.
Proof.
  intros (rest & c & D & _). now apply (ret_shape_trigger r S) in D.
Qed.
End RetPieces.

(** *** The schema rename and the index rule *)
Lemma schema_avoids c :
  forallb (fun b => negb (Ascii.eqb c b)) (str "return schemaToScript(") = true ->
  avoids rules_schema c.
Proof.
  intros H u v [-> _]. now apply not_In_lit.
Qed.

Lemma schema_ends : ends rules_schema (Ascii.eqb "(").
Proof.
  intros u v [-> _]. exists (str "return schemaToScript"), "("%char.
  split; reflexivity.
Qed.

Lemma schema_trigger u v : rules_schema u v -> occurs w_schema u = true.
Proof. intros [-> _]. reflexivity. Qed.

Definition is_bracket (b : ascii) : bool := Ascii.eqb b "[" || Ascii.eqb b "]".

Definition w_any_bracket : window := [is_bracket].

Lemma index_avoids c :
  cls_mem ident_char c = false ->
  forallb (fun b => negb (Ascii.eqb c b)) (str "return [], nil") = true ->
  avoids rules_index c.
Proof.
  intros Hc Hl u v [(i & I & Hi & FI & -> & _)|[-> _]] In1.
  - assert (F : all_in ident_char (i :: I)).
    { constructor; auto. now apply ident_start_char. }
    apply in_app_or in In1. destruct In1 as [I1|I1].
    + assert (I' : In c (str "return [], nil")) by (simpl in *; tauto).
      rewrite forallb_forall in Hl. apply Hl in I'.
      now rewrite Ascii.eqb_refl in I'.
    + apply in_app_or in I1. destruct I1 as [I1|I1].
      * apply (run_not_In (cls_mem ident_char) (i :: I) c); auto.
      * assert (I' : In c (str "return [], nil")) by (simpl in *; tauto).
        rewrite forallb_forall in Hl. apply Hl in I'.
        now rewrite Ascii.eqb_refl in I'.
  - assert (I' : In c (str "return [], nil")) by (simpl in *; tauto).
    rewrite forallb_forall in Hl. apply Hl in I'.
    now rewrite Ascii.eqb_refl in I'.
Qed.

Lemma index_trigger u v : rules_index u v -> occurs w_any_bracket u = true.
Proof.
  intros [(i & I & Hi & FI & -> & _)|[-> _]].
  - apply occurs_app_r. apply occurs_app_r. reflexivity.
  - reflexivity.
Qed.

(** ** One lemma for a piece of text and a rule *)
Lemma keep_seg rules E E0 c g q rest :
  E = E0 ++ [c] -> E = g ++ q :: rest ->
  no_inside rules E -> terminal rules c -> avoids rules q ->
  no_end_in rules g ->
  forall s s', Rep rules s s' -> inside E s -> inside E s'.
Proof.
  intros E1 E2 NI TC A NE s s' H.
  apply (keep_inside rules E s s' H).
  - rewrite E1 in *. now apply no_begin_terminal.
  - rewrite E2. now apply no_reach_barrier.
  - rewrite E1. destruct E0; discriminate.
Qed.

(** * The helper import in the result of the pipeline *)

(** The helper line with the line end before it and the closing parenthesis
    of the import block behind it. *)
Definition helper_seg : text := (NL :: helper_line) ++ [")"%char].

Lemma helper_seg_begin : helper_seg = [] ++ NL :: (helper_line ++ [")"%char]).
Proof. reflexivity. Qed.

Lemma helper_seg_quiet :
  occurs w_cast_s helper_seg = false /\ occurs w_cast_f helper_seg = false /\
  occurs w_cast_b helper_seg = false /\ occurs w_cast_m helper_seg = false /\
  occurs w_nil helper_seg = false /\ occurs w_schema helper_seg = false /\
  occurs w_any_bracket helper_seg = false.
Proof. repeat split; vm_compute; reflexivity. Qed.

Lemma helper_seg_cast ty v s :
  In (ty, v) direct_casts -> inside helper_seg s ->
  inside helper_seg (subst (pat_cast ty) (tpl_cast v) s).
Proof.
  intros Hty.
  destruct helper_seg_quiet as (Hs & Hf & Hb & _).
  apply (keep_seg (rules_of (pat_cast ty) (tpl_cast v)) _ _ _ _ _ _
           eq_refl helper_seg_begin).
  - destruct (cast_trigger ty v Hty) as (w & T & [<-|[<-|[<-|[]]]]);
      now apply (no_inside_trigger _ _ _ T).
  - now apply cast_terminal.
  - now apply cast_avoids_nl.
  - apply no_end_in_nil.
  - apply subst_rules_of. destruct Hty as [E|[E|[E|[]]]]; now injection E as <- <-.
Qed.

Lemma helper_seg_strings s :
  inside helper_seg s -> inside helper_seg (strings_text s).
Proof.
  intros H. unfold strings_text.
  apply helper_seg_cast; [simpl; auto|].
  apply helper_seg_cast; [simpl; auto|].
  apply helper_seg_cast; [simpl; auto|].
  revert H. destruct helper_seg_quiet as (Hs & _).
  apply (keep_seg (rules_of pat_string_ok tpl_string_ok) _ _ _ _ _ _
           eq_refl helper_seg_begin).
  - apply (no_inside_trigger _ w_cast_s); auto.
    intros u x (rest & c & D & _). now apply trigger_string_ok in D.
  - apply string_ok_terminal.
  - apply string_ok_avoids_nl.
  - apply no_end_in_nil.
  - now apply subst_rules_of.
Qed.

Lemma helper_seg_object s :
  inside helper_seg s -> inside helper_seg (object_text s).
Proof.
  destruct helper_seg_quiet as (_ & _ & _ & Hm & _).
  apply (keep_seg (rules_of object_pattern object_replacement) _ _ _ _ _ _
           eq_refl helper_seg_begin).
  - apply (no_inside_trigger _ w_cast_m); auto.
    intros u x (rest & c & D & _). now apply trigger_object in D.
  - apply object_terminal.
  - apply object_avoids_nl.
  - apply no_end_in_nil.
  - now apply subst_rules_of.
Qed.

Lemma helper_seg_ret r t s :
  ret_shape r -> nullable r = false ->
  inside helper_seg s -> inside helper_seg (subst r t s).
Proof.
  intros S N. destruct helper_seg_quiet as (_ & _ & _ & _ & Hn & _).
  apply (keep_seg (rules_of r t) _ _ _ _ _ _ eq_refl helper_seg_begin).
  - apply (no_inside_trigger _ w_nil); auto. now apply ret_trigger.
  - apply terminal_avoids. now apply (ret_avoids r t S ")"%char).
  - now apply (ret_avoids r t S NL).
  - apply no_end_in_nil.
  - now apply subst_rules_of.
Qed.

Lemma helper_seg_returns s :
  inside helper_seg s -> inside helper_seg (returns_text s).
Proof.
  intros H. unfold returns_text.
  destruct helper_seg_quiet as (_ & _ & _ & _ & _ & Hc & Hk).
  apply (keep_seg rules_index _ _ _ _ _ _ eq_refl helper_seg_begin
           (no_inside_trigger _ _ _ index_trigger Hk)
           (terminal_avoids _ _ (index_avoids ")"%char eq_refl eq_refl))
           (index_avoids NL eq_refl eq_refl) (no_end_in_nil _)
           _ _ (subst_index_Rep _)).
  apply (keep_seg rules_schema _ _ _ _ _ _ eq_refl helper_seg_begin
           (no_inside_trigger _ _ _ schema_trigger Hc)
           (terminal_avoids _ _ (schema_avoids ")"%char eq_refl))
           (schema_avoids NL eq_refl) (no_end_in_nil _)
           _ _ (subst_schema_Rep _)).
  apply helper_seg_ret; [apply ret_shape_bool|reflexivity|].
  apply helper_seg_ret; [apply ret_shape_int|reflexivity|].
  apply helper_seg_ret; [apply ret_shape_ident|reflexivity|].
  exact H.
Qed.

Lemma helper_seg_pipeline s :
  inside helper_seg s ->
  inside helper_seg (returns_text (object_text (strings_text s))).
Proof.
  intros H. now apply helper_seg_returns, helper_seg_object, helper_seg_strings.
Qed.

(** C3, amended.  When [helpers] occurs anywhere in the document, the import
    rule returns the document as it is.  When it occurs nowhere and the
    document has one import block -- [import (] at the start of a line, then
    lines without a closing parenthesis, then [)] -- and no other
    [import (], the import step adds exactly one helper import line, at the
    end of the block: after the last line of the block and before the
    closing parenthesis (right after the opening only when the block is
    empty); and the result of the pipeline has that line, on a line of its
    own, immediately before the closing parenthesis. *)
Theorem helper_import_placed doc :
  (contains helpers doc = true -> add_helper_import doc = Some doc) /\
  (contains helpers doc = false ->
   forall pre body post,
     doc = pre ++ (import_open ++ body) ++ ")"%char :: post ->
     line_start pre -> occurs w_import_open pre = false ->
     all_in not_rparen body -> (body = [] \/ exists b, body = b ++ [NL]) ->
     occurs w_import_open post = false ->
     add_helper_import doc
     = Some (pre ++ (import_open ++ body) ++ helper_line ++ ")"%char :: post) /\
     exists out x y,
       pipeline doc = Some out /\
       out = x ++ helper_line ++ ")"%char :: y /\ line_start x).
Proof.
  split; [apply helper_import_rule|].
  intros H pre body post E Hs Hp F Hb Hq.
  pose proof (proj2 (helper_import_rule doc) H pre body post E Hs Hp F Hb Hq)
    as R.
  split; [exact R|].
  rewrite add_helper_import_total in R. injection R as R.
  assert (I : inside helper_seg (import_text doc)).
  { rewrite R. destruct Hb as [->|(b & ->)].
    - exists (pre ++ str "import ("), post. unfold helper_seg, import_open.
      rewrite <- !app_assoc. reflexivity.
    - exists (pre ++ import_open ++ b), post. unfold helper_seg.
      rewrite <- !app_assoc. reflexivity. }
  apply helper_seg_pipeline in I. destruct I as (a' & b' & I).
  exists (pipeline_text doc), (a' ++ [NL]), b'.
  split; [apply pipeline_total|]. split.
  - unfold pipeline_text. rewrite I. unfold helper_seg.
    rewrite <- !app_assoc. reflexivity.
  - right. now exists a'.
Qed.

Lemma helper_import_placed_witness :
  let pre := str "package main" ++ [NL; NL] in
  let doc := pre ++ (import_open ++ fmt_import) ++ str ")" ++ [NL] in
  add_helper_import doc
  = Some (pre ++ (import_open ++ fmt_import) ++ helper_line ++ str ")" ++ [NL]) /\
  exists out x y,
    pipeline doc = Some out /\
    out = x ++ helper_line ++ ")"%char :: y /\ line_start x.
Proof.
  intros pre doc.
  apply (proj2 (helper_import_placed doc) eq_refl pre fmt_import [NL]).
  - reflexivity.
  - right. now exists (str "package main" ++ [NL]).
  - reflexivity.
  - repeat constructor.
  - right. now exists ([TAB; DQ] ++ str "fmt" ++ [DQ]).
  - reflexivity.
Defined.

(** ** Pieces that stay within a line *)
Lemma no_inside_split rules c l R :
  avoids rules c -> no_inside rules l -> no_inside rules R ->
  no_inside rules (l ++ c :: R).
Proof.
  intros A Hl HR x u y v Ru E.
  apply app_eq_app in E. destruct E as (n & [[E1 E2]|[E1 E2]]).
  - apply app_eq_app in E2.
    destruct E2 as (k & [[E3 E4]|[E3 E4]]).
    + destruct k as [|d k].
      * rewrite app_nil_r in E3. subst u.
        apply (Hl x n [] v Ru). now rewrite app_nil_r.
      * cbn [app] in E4. injection E4 as <- _.
        apply (A u v Ru). rewrite E3. apply in_or_app. right. now left.
    + apply (Hl x u k v Ru). now rewrite E1, E3.
  - destruct n as [|d n].
    + cbn [app] in E2. destruct u as [|d u].
      * apply (HR [] [] R v Ru). reflexivity.
      * cbn [app] in E2. injection E2 as <- _. apply (A _ v Ru). now left.
    + cbn [app] in E2. injection E2 as <- E2. apply (HR n u y v Ru E2).
Qed.

Lemma no_inside_join rules ls :
  avoids rules NL -> Forall (no_inside rules) ls -> ls <> [] ->
  no_inside rules (join ls).
Proof.
  intros A. induction ls as [|l ls IH]; intros F N; [contradiction|].
  inversion F as [|? ? Hl Hls]; subst.
  destruct ls as [|l2 ls]; [exact Hl|].
  change (join (l :: l2 :: ls)) with (l ++ NL :: join (l2 :: ls)).
  apply no_inside_split; auto. apply IH; auto. discriminate.
Qed.

Lemma index_no_inside_line l : safe_index l -> no_inside rules_index l.
Proof.
  intros [S1 S2] x u y v [(i & I & Hi & FI & -> & _)|[-> _]] ->.
  - destruct S1 as [S1|S1].
    + rewrite occurs_app_r in S1; [discriminate|]. apply occurs_app_l.
      apply occurs_app_r. apply occurs_app_r. reflexivity.
    + rewrite occurs_app_r in S1; [discriminate|]. apply occurs_app_l.
      change (str "return " ++ (i :: I) ++ str "[")
        with (str "retur" ++ ["n"; " "; i]%char ++ (I ++ str "[")).
      apply occurs_mid. unfold w_return. cbn [opens]. now rewrite Hi.
  - rewrite occurs_app_r in S2; [discriminate|]. apply occurs_app_l.
    reflexivity.
Qed.

Lemma index_no_inside ls :
  Forall safe_index ls -> ls <> [] -> no_inside rules_index (join ls).
Proof.
  intros F N. apply no_inside_join; auto.
  - apply (index_avoids NL); reflexivity.
  - eapply Forall_impl; [|exact F]. apply index_no_inside_line.
Qed.

Lemma schema_no_inside ls :
  Forall safe_schema ls -> ls <> [] -> no_inside rules_schema (join ls).
Proof.
  intros F N. apply no_inside_join; auto.
  - apply (schema_avoids NL); reflexivity.
  - eapply Forall_impl; [|exact F]. intros l Hl.
    apply (no_inside_trigger _ w_schema); auto. apply schema_trigger.
Qed.

(** No index piece ends in the opening of a guard. *)
Lemma index_no_end_in k :
  all_in CDigit k -> no_end_in rules_index (str "if args[" ++ k ++ str "] ").
Proof.
  intros Fk u v u1 u2 g' R E N1 N2 Eg.
  destruct (exists_last N2) as (u2' & d & ->).
  assert (Ng : ~ In "["%char (k ++ str "] ")) by lacks.
  destruct R as [(i & I & Hi & FI & -> & _)|[-> _]].
  - assert (FJ : all_in ident_char (i :: I)).
    { constructor; auto. now apply ident_start_char. }
    rewrite !app_assoc in E. apply app_inj_tail in E. destruct E as [E <-].
    remember (k ++ str "] ") as K eqn:EK.
    assert (Eg' : str "if args" ++ "["%char :: K = u2' ++ "["%char :: g').
    { rewrite <- app_assoc in Eg. exact Eg. }
    clear Eg. rename Eg' into Eg.
    assert (Eu : u2' = str "if args").
    { symmetry in Eg. apply app_eq_app in Eg.
      destruct Eg as (n & [[E1 E2]|[E1 E2]]).
      - destruct n as [|c n]; [now rewrite app_nil_r in E1|].
        exfalso. cbn [app] in E2. injection E2 as <- E2.
        apply Ng. rewrite E2. apply in_or_app. right. now left.
      - destruct n as [|c n]; [now rewrite app_nil_r in E1|].
        exfalso. cbn [app] in E2. injection E2 as <- E2.
        assert (I1 : In "["%char (str "if args")).
        { rewrite E1. apply in_or_app. right. now left. }
        simpl in I1. intuition discriminate. }
    subst u2'. symmetry in E.
    assert (Ns : ~ In " "%char (i :: I)).
    { apply (run_not_In (cls_mem ident_char)); auto. }
    apply app_eq_app in E. destruct E as (n & [[E1 E2]|[E1 E2]]).
    + apply Ns. rewrite E2. apply in_or_app. right. simpl. tauto.
    + destruct n as [|c n].
      * cbn [app] in E2. apply Ns. rewrite <- E2. simpl. tauto.
      * cbn [app] in E2. injection E2 as <- E2.
        assert (I1 : In "i"%char (str "return ")).
        { rewrite E1. apply in_or_app. right. now left. }
        simpl in I1. intuition discriminate.
  - change (str "], nil") with (str "], ni" ++ ["l"%char]) in E.
    rewrite app_assoc in E. apply app_inj_tail in E. destruct E as [_ <-].
    assert (I1 : In "l"%char (str "if args[" ++ k ++ str "] ")).
    { rewrite Eg. apply in_or_app. left. apply in_or_app. right. now left. }
    revert I1. lacks.
Qed.

(** * The destructuring idioms anywhere in a line

    Both destructuring rules have the pattern word, [, ok := args[],
    digits, and a closing text [tl]; what is proved here for the one holds
    for the other. *)
Definition ok_mid : text := str ", ok := args[".

Section OkIdiom.
Variables (r : regex) (t : template) (tl tl_body tl_rest : text).
Hypothesis Hnull : nullable r = false.
Hypothesis tl_first : tl = "]"%char :: tl_rest.
Hypothesis tl_last : tl = tl_body ++ [")"%char].
Hypothesis tl_comma : ~ In ","%char tl.
Hypothesis shape : forall mt rest c, Derives r mt rest [] c ->
  exists W D, mt = W ++ ok_mid ++ D ++ tl /\ c = [(2, D); (1, W)] /\
    all_in CWord W /\ W <> [] /\ all_in CDigit D /\ D <> [].
Hypothesis matches : forall name k b,
  all_in CWord name -> name <> [] -> all_in CDigit k -> k <> [] ->
  match_at r (name ++ ok_mid ++ k ++ tl ++ b) = Some ([(2, k); (1, name)], b).

(** A match that reaches into the idiom is the idiom, with the word before
    it added to the name. *)
Lemma ok_overlap a l name k b W D rest :
  all_in CWord name -> name <> [] -> all_in CDigit k ->
  all_in CWord W -> all_in CDigit D ->
  l <> [] -> a ++ l = W ++ ok_mid ++ D ++ tl ->
  name ++ ok_mid ++ k ++ tl ++ b = l ++ rest ->
  W = a ++ name /\ D = k /\ rest = b.
Proof.
  intros Fn Nn Fk FW FD Nl Em E.
  assert (Hend : forall x, In x name -> x <> ")"%char).
  { intros x I ->. unfold all_in in Fn. rewrite Forall_forall in Fn.
    apply Fn in I. discriminate. }
  (* the match cannot end inside the name *)
  assert (Hlast : forall l', l = l' -> forall z, name = l' ++ z -> False).
  { intros l' <- z Ez.
    destruct (exists_last Nl) as (l0 & x & El). rewrite El in Em.
    rewrite tl_last in Em. rewrite !app_assoc in Em.
    apply app_inj_tail in Em. destruct Em as [_ ->].
    apply (Hend ")"%char); auto. rewrite Ez, El.
    apply in_or_app. left. apply in_or_app. right. now left. }
  apply app_eq_app in E. destruct E as (m & [[E1 E2]|[E1 E2]]).
  { exfalso. now apply (Hlast l eq_refl m). }
  destruct m as [|c m].
  { exfalso. apply (Hlast l eq_refl []). now rewrite app_nil_r, E1, app_nil_r. }
  unfold ok_mid in E2 at 1. cbn [str list_ascii_of_string app] in E2.
  injection E2 as <- E2.
  (* the comma behind the name is the comma of the pattern *)
  subst l. rewrite app_assoc in Em.
  remember (str " ok := args[" ++ D ++ tl) as P eqn:EP.
  assert (NP : ~ In ","%char P).
  { rewrite EP. apply not_In_app; [apply not_In_lit; reflexivity|].
    apply not_In_app; auto.
    apply (run_not_In (cls_mem CDigit)); auto. }
  assert (Em' : (a ++ name) ++ ","%char :: m = W ++ ","%char :: P).
  { rewrite Em, EP. reflexivity. }
  clear Em.
  assert (K : m = P -> D = k /\ rest = b).
  { intros ->. rewrite EP in E2. cbn [app] in E2. injection E2 as E2.
    rewrite <- !app_assoc in E2. rewrite tl_first in E2. cbn [app] in E2.
    apply (run_unique (cls_mem CDigit)) in E2; auto.
    destruct E2 as [-> E2]. split; auto.
    injection E2 as E2. apply app_inv_head in E2. now symmetry. }
  apply app_eq_app in Em'. destruct Em' as (n & [[E3 E4]|[E3 E4]]).
  - destruct n as [|c n].
    + rewrite app_nil_r in E3. cbn [app] in E4. injection E4 as E4.
      split; [now symmetry|]. now apply K.
    + exfalso. cbn [app] in E4. injection E4 as <- E4.
      apply NP. rewrite E4. apply in_or_app. right. now left.
  - destruct n as [|c n].
    + rewrite app_nil_r in E3. cbn [app] in E4. injection E4 as E4.
      split; [exact E3|]. now apply K.
    + exfalso. cbn [app] in E4. injection E4 as <- E4.
      unfold all_in in FW. rewrite Forall_forall in FW.
      assert (I : In ","%char W).
      { rewrite E3. apply in_or_app. right. now left. }
      apply FW in I. discriminate.
Qed.

(** Wherever the idiom stands, the rule rewrites it. *)
Lemma ok_fires n : forall a name k b,
  length a < n ->
  all_in CWord name -> name <> [] -> all_in CDigit k -> k <> [] ->
  exists a' w b',
    subst r t (a ++ name ++ ok_mid ++ k ++ tl ++ b)
    = a' ++ expand t [(2, k); (1, w ++ name)] ++ b' /\
    all_in CWord w.
Proof.
  induction n as [|n IH]; intros a name k b L Fn Nn Fk Nk; [lia|].
  destruct (match_at r (a ++ name ++ ok_mid ++ k ++ tl ++ b))
    as [[c rest]|] eqn:M.
  - rewrite (subst_fire r t _ c rest Hnull M).
    apply match_at_sound in M. destruct M as (mt & E & D).
    destruct (shape _ _ _ D) as (W & Dg & -> & -> & FW & NW & FD & ND).
    symmetry in E. apply app_eq_app in E.
    destruct E as (l & [[E1 E2]|[E1 E2]]).
    + destruct l as [|x l].
      * rewrite app_nil_r in E1. cbn [app] in E2.
        destruct (IH [] name k b) as (a' & w & b' & Es & Fw); auto.
        { subst a. destruct W; [contradiction|]. simpl in *. lia. }
        cbn [app] in Es. rewrite <- E2, Es.
        eexists. exists w, b'. split; [|exact Fw].
        now rewrite <- app_assoc.
      * destruct (ok_overlap a (x :: l) name k b W Dg rest)
          as (-> & -> & ->); auto; [discriminate|].
        exists [], a, (subst r t b). split; [reflexivity|].
        unfold all_in in *. apply Forall_app in FW. tauto.
    + subst a rest.
      destruct (IH l name k b) as (a' & w & b' & Es & Fw); auto.
      { rewrite length_app in L. destruct W; [contradiction|].
        simpl in L. lia. }
      rewrite Es. eexists. exists w, b'. split; [|exact Fw].
      now rewrite <- app_assoc.
  - destruct a as [|x a].
    + cbn [app] in M. rewrite matches in M; auto. discriminate.
    + cbn [app] in *. rewrite (subst_copy _ _ _ _ M).
      destruct (IH a name k b) as (a' & w & b' & Es & Fw); auto.
      { simpl in L. lia. }
      rewrite Es. exists (x :: a'), w, b'. split; auto.
Qed.
End OkIdiom.

Lemma match_string_idiom_in name k b :
  all_in CWord name -> name <> [] -> all_in CDigit k -> k <> [] ->
  match_at pat_string_ok (name ++ ok_mid ++ k ++ str "].(string)" ++ b)
  = Some ([(2, k); (1, name)], b).
Proof.
  intros Fn Nn Fk Nk.
  destruct name as [|n0 name]; [contradiction|].
  destruct k as [|k0 k]; [contradiction|].
  inversion Fn; subst. inversion Fk; subst.
  unfold match_at, pat_string_ok, ok_mid. rewrite m_seq.
  apply m_grp_run; [assumption | assumption | reflexivity |].
  rewrite m_lits_seq, m_seq.
  apply m_grp_run; [assumption | assumption | reflexivity |].
  now rewrite m_lits.
Qed.

Lemma match_object_idiom_in name k b :
  all_in CWord name -> name <> [] -> all_in CDigit k -> k <> [] ->
  match_at object_pattern
    (name ++ ok_mid ++ k ++ str "].(map[string]interface{})" ++ b)
  = Some ([(2, k); (1, name)], b).
Proof.
  intros Fn Nn Fk Nk.
  destruct name as [|n0 name]; [contradiction|].
  destruct k as [|k0 k]; [contradiction|].
  inversion Fn; subst. inversion Fk; subst.
  unfold match_at, object_pattern, ok_mid. rewrite m_seq.
  apply m_grp_run; [assumption | assumption | reflexivity |].
  rewrite m_lits_seq, m_seq.
  apply m_grp_run; [assumption | assumption | reflexivity |].
  now rewrite m_lits.
Qed.

Lemma expand_string_block N k :
  expand tpl_string_ok [(2, k); (1, N)] = join (string_block [] N k).
Proof.
  unfold string_block, join, guard_head, guard_error, guard_close, string_extract,
    tpl_string_ok, T.
  cbn [expand group Nat.eqb]. repeat rewrite <- app_assoc. reflexivity.
Qed.

Lemma expand_object_block N k :
  expand object_replacement [(2, k); (1, N)] = join (object_block [] N k).
Proof.
  unfold object_block, join, guard_head, guard_error, guard_close, object_make,
    object_loop, object_copy, object_replacement, T.
  cbn [expand group Nat.eqb]. repeat rewrite <- app_assoc. reflexivity.
Qed.

(** Wherever the string idiom stands in a text, the first rule puts the
    guard and the extraction in its place; the name is the whole word that
    ends where the idiom's name ends. *)
Lemma string_idiom_fires name k s :
  all_in CWord name -> name <> [] -> all_in CDigit k -> k <> [] ->
  inside (string_idiom name k) s ->
  exists w, all_in CWord w /\
    inside (join (string_block [] (w ++ name) k))
      (subst pat_string_ok tpl_string_ok s).
Proof.
  intros Fn Nn Fk Nk (a & b & ->).
  destruct (ok_fires pat_string_ok tpl_string_ok (str "].(string)")
              (str "].(string") (str ".(string)") eq_refl eq_refl eq_refl
              (not_In_lit ","%char "].(string)" eq_refl) shape_string_ok match_string_idiom_in
              (S (length a)) a name k b) as (a' & w & b' & E & Fw); auto.
  exists w. split; auto. exists a', b'.
  unfold string_idiom. rewrite <- !app_assoc. unfold ok_mid in E.
  rewrite E. now rewrite expand_string_block.
Qed.

Lemma object_idiom_fires name k s :
  all_in CWord name -> name <> [] -> all_in CDigit k -> k <> [] ->
  inside (object_idiom name k) s ->
  exists w, all_in CWord w /\
    inside (join (object_block [] (w ++ name) k))
      (subst object_pattern object_replacement s).
Proof.
  intros Fn Nn Fk Nk (a & b & ->).
  destruct (ok_fires object_pattern object_replacement
              (str "].(map[string]interface{})")
              (str "].(map[string]interface{}") (str ".(map[string]interface{})")
              eq_refl eq_refl eq_refl
              (not_In_lit ","%char "].(map[string]interface{})" eq_refl)
              shape_object match_object_idiom_in
              (S (length a)) a name k b) as (a' & w & b' & E & Fw); auto.
  exists w. split; auto. exists a', b'.
  unfold object_idiom. rewrite <- !app_assoc. unfold ok_mid in E.
  rewrite E. now rewrite expand_object_block.
Qed.

(** ** The rewritten blocks and the object idiom, in pieces *)
Ltac open_seg :=
  unfold string_block, object_block, object_idiom, join, guard_head,
    guard_error, guard_close, string_extract, object_make, object_loop,
    object_copy;
  repeat first [ rewrite <- app_assoc
               | progress cbn [app str list_ascii_of_string] ].

Ltac runs_fail :=
  repeat (apply Forall_app; split);
  first [ run_fails | repeat constructor ].

Section Segments.
Variables N k : text.
Hypothesis FN : all_in CWord N.
Hypothesis Fk : all_in CDigit k.

Let ES := join (string_block [] N k).
Let EO := join (object_block [] N k).
Let IO := object_idiom N k.

Lemma string_seg_last : exists E0, ES = E0 ++ [")"%char].
Proof.
  exists (join [guard_head "String" k; guard_error "string"; guard_close]
          ++ NL :: [TAB; TAB] ++ N ++ str " := args[" ++ k
          ++ str "].(engine.StringValue).Value(").
  unfold ES. open_seg. reflexivity.
Qed.

Lemma object_seg_last : exists E0, EO = E0 ++ ["}"%char].
Proof.
  exists (join [guard_head "Object" k; guard_error "object"; guard_close;
                object_make N; object_loop k; object_copy N]
          ++ NL :: [TAB; TAB]).
  unfold EO. open_seg. reflexivity.
Qed.

Lemma idiom_seg_last : exists E0, IO = E0 ++ [")"%char].
Proof.
  exists (N ++ str ", ok := args[" ++ k ++ str "].(map[string]interface{}").
  unfold IO. open_seg. reflexivity.
Qed.

(** The beginning of a guard up to a character of choice. *)
Lemma string_seg_begin :
  (exists rest, ES = str "if" ++ " "%char :: rest) /\
  (exists rest, ES = (str "if args[" ++ k ++ str "] == nil ") ++ "|"%char :: rest) /\
  (exists rest, ES = str "if args" ++ "["%char :: rest) /\
  (exists rest, ES = str "i" ++ "f"%char :: rest) /\
  (exists rest, ES = (str "if args[" ++ k ++ str "] ") ++ "="%char :: rest).
Proof.
  unfold ES. repeat split; eexists; open_seg; reflexivity.
Qed.

Lemma object_seg_begin :
  (exists rest, EO = str "if args" ++ "["%char :: rest) /\
  (exists rest, EO = str "i" ++ "f"%char :: rest) /\
  (exists rest, EO = (str "if args[" ++ k ++ str "] ") ++ "="%char :: rest).
Proof.
  unfold EO. repeat split; eexists; open_seg; reflexivity.
Qed.

Lemma idiom_seg_begin :
  (exists rest,
     IO = (N ++ str ", ok := args[" ++ k ++ str "].(map[string]interface")
          ++ "{"%char :: rest) /\
  (exists rest, IO = N ++ ","%char :: rest).
Proof.
  unfold IO. split; eexists; open_seg; reflexivity.
Qed.
End Segments.

(** ** Each rule keeps the rewritten blocks and the object idiom *)
Ltac side := first [assumption | apply Forall_nil | reflexivity].

Section Kept.
Variables N k : text.
Hypothesis FN : all_in CWord N.
Hypothesis Fk : all_in CDigit k.

Let ES := join (string_block [] N k).
Let EO := join (object_block [] N k).
Let IO := object_idiom N k.

Lemma cast_nullable ty v :
  In (ty, v) direct_casts -> nullable (pat_cast ty) = false.
Proof. intros [E|[E|[E|[]]]]; now injection E as <- <-. Qed.

Lemma string_seg_cast ty v s :
  In (ty, v) direct_casts ->
  inside ES s -> inside ES (subst (pat_cast ty) (tpl_cast v) s).
Proof.
  intros Hty.
  destruct (string_seg_last N k) as (E0 & EL).
  destruct (string_seg_begin N k) as ((r1 & B1) & _).
  apply (keep_seg (rules_of (pat_cast ty) (tpl_cast v)) _ _ _ _ _ _ EL B1).
  - destruct (cast_trigger ty v Hty) as (w & T & [<-|[<-|[<-|[]]]]);
      apply (no_inside_trigger _ _ _ T).
    + apply string_block_cast_s; side.
    + apply string_block_cast_f; side.
    + apply string_block_cast_b; side.
  - now apply cast_terminal.
  - now apply cast_avoids_space.
  - apply (no_end_in_class _ (Ascii.eqb ")")); [now apply cast_ends|].
    runs_fail.
  - apply subst_rules_of. now apply (cast_nullable ty v).
Qed.

Lemma string_seg_object s :
  inside ES s -> inside ES (object_text s).
Proof.
  destruct (string_seg_last N k) as (E0 & EL).
  destruct (string_seg_begin N k) as (_ & (r1 & B1) & _).
  apply (keep_seg (rules_of object_pattern object_replacement)
           _ _ _ _ _ _ EL B1).
  - apply (no_inside_trigger _ w_cast_m).
    + intros u x (rest & c & D & _). now apply trigger_object in D.
    + apply string_block_cast_m; side.
  - apply object_terminal.
  - apply object_avoids_bar.
  - apply (no_end_in_class _ (Ascii.eqb ")")); [apply object_ends|].
    runs_fail.
  - now apply subst_rules_of.
Qed.

Lemma string_seg_ret r t s :
  ret_shape r -> nullable r = false ->
  inside ES s -> inside ES (subst r t s).
Proof.
  intros S Nr.
  destruct (string_seg_last N k) as (E0 & EL).
  destruct (string_seg_begin N k) as (_ & _ & (r1 & B1) & _).
  apply (keep_seg (rules_of r t) _ _ _ _ _ _ EL B1).
  - apply (no_inside_trigger _ w_nil); [now apply ret_trigger|].
    apply string_block_nil; side.
  - apply terminal_avoids. now apply (ret_avoids r t S ")"%char).
  - now apply (ret_avoids r t S "["%char).
  - apply (no_end_in_class _ (Ascii.eqb "l")); [now apply ret_ends|].
    runs_fail.
  - now apply subst_rules_of.
Qed.

Lemma string_seg_schema s :
  inside ES s -> inside ES (subst pat_ret_schema tpl_ret_schema s).
Proof.
  destruct (string_seg_last N k) as (E0 & EL).
  destruct (string_seg_begin N k) as (_ & _ & _ & (r1 & B1) & _).
  apply (keep_seg rules_schema _ _ _ _ _ _ EL B1).
  - apply schema_no_inside; [|discriminate].
    apply string_block_schema; side.
  - apply terminal_avoids. now apply (schema_avoids ")"%char).
  - now apply (schema_avoids "f"%char).
  - apply (no_end_in_class _ (Ascii.eqb "(")); [apply schema_ends|].
    runs_fail.
  - apply subst_schema_Rep.
Qed.

Lemma string_seg_index s :
  inside ES s -> inside ES (subst pat_ret_index tpl_ret_index s).
Proof.
  destruct (string_seg_last N k) as (E0 & EL).
  destruct (string_seg_begin N k) as (_ & _ & _ & _ & (r1 & B1)).
  apply (keep_seg rules_index _ _ _ _ _ _ EL B1).
  - apply index_no_inside; [|discriminate].
    apply string_block_index; side.
  - apply terminal_avoids. now apply (index_avoids ")"%char).
  - now apply (index_avoids "="%char).
  - now apply index_no_end_in.
  - apply subst_index_Rep.
Qed.

Lemma idiom_seg_string_ok s :
  inside IO s -> inside IO (subst pat_string_ok tpl_string_ok s).
Proof.
  destruct (idiom_seg_last N k) as (E0 & EL).
  destruct (idiom_seg_begin N k) as ((r1 & B1) & _).
  apply (keep_seg (rules_of pat_string_ok tpl_string_ok) _ _ _ _ _ _ EL B1).
  - apply (no_inside_trigger _ w_cast_s).
    + intros u x (rest & c & D & _). now apply trigger_string_ok in D.
    + apply (object_idiom_cast_s [] N k); side.
  - apply string_ok_terminal.
  - apply string_ok_avoids_brace.
  - apply (no_end_in_class _ (Ascii.eqb ")")); [apply string_ok_ends|].
    runs_fail.
  - now apply subst_rules_of.
Qed.

Lemma idiom_seg_cast ty v s :
  In (ty, v) direct_casts ->
  inside IO s -> inside IO (subst (pat_cast ty) (tpl_cast v) s).
Proof.
  intros Hty.
  destruct (idiom_seg_last N k) as (E0 & EL).
  destruct (idiom_seg_begin N k) as (_ & (r1 & B1)).
  apply (keep_seg (rules_of (pat_cast ty) (tpl_cast v)) _ _ _ _ _ _ EL B1).
  - destruct (cast_trigger ty v Hty) as (w & T & [<-|[<-|[<-|[]]]]);
      apply (no_inside_trigger _ _ _ T).
    + apply (object_idiom_cast_s [] N k); side.
    + apply (object_idiom_cast_f [] N k); side.
    + apply (object_idiom_cast_b [] N k); side.
  - now apply cast_terminal.
  - now apply cast_avoids_comma.
  - apply (no_end_in_class _ (Ascii.eqb ")")); [now apply cast_ends|].
    runs_fail.
  - apply subst_rules_of. now apply (cast_nullable ty v).
Qed.

Lemma object_seg_ret r t s :
  ret_shape r -> nullable r = false ->
  inside EO s -> inside EO (subst r t s).
Proof.
  intros S Nr.
  destruct (object_seg_last N k) as (E0 & EL).
  destruct (object_seg_begin N k) as ((r1 & B1) & _).
  apply (keep_seg (rules_of r t) _ _ _ _ _ _ EL B1).
  - apply (no_inside_trigger _ w_nil); [now apply ret_trigger|].
    apply object_block_nil; side.
  - apply terminal_avoids. now apply (ret_avoids r t S "}"%char).
  - now apply (ret_avoids r t S "["%char).
  - apply (no_end_in_class _ (Ascii.eqb "l")); [now apply ret_ends|].
    runs_fail.
  - now apply subst_rules_of.
Qed.

Lemma object_seg_schema s :
  inside EO s -> inside EO (subst pat_ret_schema tpl_ret_schema s).
Proof.
  destruct (object_seg_last N k) as (E0 & EL).
  destruct (object_seg_begin N k) as (_ & (r1 & B1) & _).
  apply (keep_seg rules_schema _ _ _ _ _ _ EL B1).
  - apply schema_no_inside; [|discriminate].
    apply object_block_schema; side.
  - apply terminal_avoids. now apply (schema_avoids "}"%char).
  - now apply (schema_avoids "f"%char).
  - apply (no_end_in_class _ (Ascii.eqb "(")); [apply schema_ends|].
    runs_fail.
  - apply subst_schema_Rep.
Qed.

Lemma object_seg_index s :
  inside EO s -> inside EO (subst pat_ret_index tpl_ret_index s).
Proof.
  destruct (object_seg_last N k) as (E0 & EL).
  destruct (object_seg_begin N k) as (_ & _ & (r1 & B1)).
  apply (keep_seg rules_index _ _ _ _ _ _ EL B1).
  - apply index_no_inside; [|discriminate].
    apply object_block_index; side.
  - apply terminal_avoids. now apply (index_avoids "}"%char).
  - now apply (index_avoids "="%char).
  - now apply index_no_end_in.
  - apply subst_index_Rep.
Qed.
End Kept.

Lemma inside_import E s :
  ~ In NL E -> inside E s -> inside E (import_text s).
Proof.
  intros NE H. unfold import_text.
  destruct (negb (contains helpers s)); auto.
  destruct H as (a & b & ->).
  pose proof (subst_Ins (a ++ E ++ b)) as I.
  apply Ins_app in I. destruct I as (a' & y' & -> & _ & I).
  apply Ins_app in I. destruct I as (E' & b' & -> & IE & _).
  apply Ins_same in IE; auto. subst E'. now exists a', b'.
Qed.

(** C4.  Wherever a document has the destructuring string-argument idiom
    [name, ok := args[k].(string)] -- on a line of its own or in the middle
    of one, as in [if name, ok := args[0].(string); ok {] -- the result of
    the pipeline has in its place the four lines of [string_block]: the
    guard on [args[k]] that returns the error "argument must be string",
    and after it the extraction
    [name := args[k].(engine.StringValue).Value()].  The name is the whole
    word that ends where the idiom's name ends: it has a word [w] in front
    when the idiom stands right behind word characters. *)
Theorem string_idiom_rewritten doc name k :
  all_in CWord name -> name <> [] -> all_in CDigit k -> k <> [] ->
  inside (string_idiom name k) doc ->
  exists out w,
    pipeline doc = Some out /\ all_in CWord w /\
    inside (join (string_block [] (w ++ name) k)) out.
Proof.
  intros Fn Nn Fk Nk H.
  apply inside_import in H; [|unfold string_idiom; one_line].
  apply string_idiom_fires in H; auto. destruct H as (w & Fw & H).
  assert (FN : all_in CWord (w ++ name)) by (apply Forall_app; now split).
  exists (pipeline_text doc), w. split; [apply pipeline_total|]. split; auto.
  unfold pipeline_text, returns_text, strings_text.
  apply string_seg_index; auto. apply string_seg_schema; auto.
  apply string_seg_ret; auto using ret_shape_bool.
  apply string_seg_ret; auto using ret_shape_int.
  apply string_seg_ret; auto using ret_shape_ident.
  apply string_seg_object; auto.
  apply (string_seg_cast _ _ FN Fk "bool" "BoolValue"); [simpl; auto|].
  apply (string_seg_cast _ _ FN Fk "float64" "NumberValue"); [simpl; auto|].
  apply (string_seg_cast _ _ FN Fk "string" "StringValue"); [simpl; auto|].
  exact H.
Qed.

Lemma string_idiom_rewritten_witness :
  exists out w,
    pipeline (str "if name, ok := args[0].(string); ok {") = Some out /\
    all_in CWord w /\
    inside (join (string_block [] (w ++ str "name") (str "0"))) out.
Proof.
  apply (string_idiom_rewritten _ (str "name") (str "0")).
  - repeat constructor.
  - discriminate.
  - repeat constructor.
  - discriminate.
  - exists (str "if "), (str "; ok {"). reflexivity.
Defined.

(** C5.  Wherever a document has the object-argument idiom
    [name, ok := args[k].(map[string]interface{})] -- on a line of its own
    or in the middle of one -- the result of the pipeline has in its place
    the seven lines of [object_block]: the guard on [args[k]] that returns
    the error "argument must be object", the construction of the empty
    mapping [name := make(map[string]interface{})], and the loop over the
    fields of [args[k]] that stores [v.ToGo()] under the same key.  The name
    is the whole word that ends where the idiom's name ends ([w] in front
    when the idiom stands right behind word characters). *)
Theorem object_idiom_rewritten doc name k :
  all_in CWord name -> name <> [] -> all_in CDigit k -> k <> [] ->
  inside (object_idiom name k) doc ->
  exists out w,
    pipeline doc = Some out /\ all_in CWord w /\
    inside (join (object_block [] (w ++ name) k)) out.
Proof.
  intros Fn Nn Fk Nk H.
  apply inside_import in H; [|unfold object_idiom; one_line].
  apply (idiom_seg_string_ok _ _ Fn Fk) in H.
  apply (idiom_seg_cast _ _ Fn Fk "string" "StringValue") in H; [|simpl; auto].
  apply (idiom_seg_cast _ _ Fn Fk "float64" "NumberValue") in H; [|simpl; auto].
  apply (idiom_seg_cast _ _ Fn Fk "bool" "BoolValue") in H; [|simpl; auto].
  apply object_idiom_fires in H; auto. destruct H as (w & Fw & H).
  assert (FN : all_in CWord (w ++ name)) by (apply Forall_app; now split).
  exists (pipeline_text doc), w. split; [apply pipeline_total|]. split; auto.
  unfold pipeline_text, returns_text.
  apply object_seg_index; auto. apply object_seg_schema; auto.
  apply object_seg_ret; auto using ret_shape_bool.
  apply object_seg_ret; auto using ret_shape_int.
  apply object_seg_ret; auto using ret_shape_ident.
Qed.

Lemma object_idiom_rewritten_witness :
  exists out w,
    pipeline (str "if opts, ok := args[1].(map[string]interface{}); ok {")
    = Some out /\
    all_in CWord w /\
    inside (join (object_block [] (w ++ str "opts") (str "1"))) out.
Proof.
  apply (object_idiom_rewritten _ (str "opts") (str "1")).
  - repeat constructor.
  - discriminate.
  - repeat constructor.
  - discriminate.
  - exists (str "if "), (str "; ok {"). reflexivity.
Defined.
